(** * ViDubb: the timeline reconciliation core of [app.py]

    A shallow embedding of the parts of [VideoDubbing.__init__] that decide
    the timing of the dubbed track: the sentence segmenter (lines 271-298),
    the speaker attributor (lines 108-114, 239, 457-472), the silence budget
    tracker and the timing reconciler (lines 501-592) and the track assembler
    (lines 601-617).

    Around that core the development also covers the speakers' reference
    audio (lines 224-237), the choice of translator and of synthesizer
    ([tools/translation_service.py], [tools/enhanced_tts.py],
    [config/google_cloud_setup.py], the language tables) and the handling of
    the result files (lines 646-698 and [process_video]).

    Numbers.  Python floats are idealised to exact rationals ([Q]), compared
    with [==]; every comparison and branch of the source is kept as written.
    Audio buffers are abstracted to the sequence of their parts with the
    duration of each part in milliseconds, which is all the timing policy
    reads ([len(audio)]). *)

From Stdlib Require Import QArith Qminmax Qabs Qround ZArith List Sorted Permutation.
From Stdlib Require Import String Ascii Bool Lia Lqa.
From Stdlib Require DecimalNat DecimalString.
Import ListNotations.
Open Scope Q_scope.

(** ** Python run-time behaviour the code relies on *)

Module Py.

Inductive Error : Type :=
| ZeroDivisionError
| ValueError
| IndexError
| FileNotFoundError.

Inductive Result (A : Type) : Type :=
| Ok (a : A)
| Raise (e : Error).
Arguments Ok {A} a.
Arguments Raise {A} e.

Definition bind {A B} (m : Result A) (k : A -> Result B) : Result B :=
  match m with
  | Ok a => k a
  | Raise e => Raise e
  end.

(** [x < y] on numbers. *)
Definition ltb (x y : Q) : bool := negb (Qle_bool y x).

(** [x / y]: raises [ZeroDivisionError] when the divisor is zero. *)
Definition div (x y : Q) : Result Q :=
  if Qeq_bool y 0 then Raise ZeroDivisionError else Ok (x / y).

(** [int(x)]: truncation toward zero. *)
Definition int (x : Q) : Z := Z.quot (Qnum x) (Zpos (Qden x)).

(** [min(l)] and [max(l)]: the first smallest (largest) element;
    [ValueError] on the empty list. *)
Fixpoint min_from (best : Q) (l : list Q) : Q :=
  match l with
  | [] => best
  | x :: r => min_from (if ltb x best then x else best) r
  end.

Fixpoint max_from (best : Q) (l : list Q) : Q :=
  match l with
  | [] => best
  | x :: r => max_from (if ltb best x then x else best) r
  end.

Definition min (l : list Q) : Result Q :=
  match l with
  | [] => Raise ValueError
  | x :: r => Ok (min_from x r)
  end.

Definition max (l : list Q) : Result Q :=
  match l with
  | [] => Raise ValueError
  | x :: r => Ok (max_from x r)
  end.

(** [max(l, key=k)]: the first element whose key is largest. *)
Fixpoint max_key_from {A} (k : A -> nat) (best : A) (l : list A) : A :=
  match l with
  | [] => best
  | x :: r => max_key_from k (if (k best <? k x)%nat then x else best) r
  end.

Definition max_key {A} (k : A -> nat) (l : list A) : Result A :=
  match l with
  | [] => Raise ValueError
  | x :: r => Ok (max_key_from k x r)
  end.

(** [round(x)]: the nearest integer, the even one of the two when [x] is
    half-way between them. *)
Definition round (x : Q) : Z :=
  let f := Qfloor x in
  let d := x - inject_Z f in
  if Qlt_le_dec (1 # 2) d then (f + 1)%Z
  else if Qlt_le_dec d (1 # 2) then f
  else if Z.even f then f else (f + 1)%Z.

(** [str(n)] and [f"{n}"] for a natural number: its decimal digits. *)
Definition str (n : nat) : string := DecimalString.NilEmpty.string_of_uint (Nat.to_uint n).

(** The value of a decimal digit. *)
Definition digit (c : ascii) : option nat :=
  let n := nat_of_ascii c in
  if (48 <=? n)%nat && (n <=? 57)%nat then Some (n - 48)%nat else None.

Fixpoint int_digits (s : string) (acc : nat) : Result nat :=
  match s with
  | EmptyString => Ok acc
  | String c rest =>
      match digit c with
      | Some d => int_digits rest (10 * acc + d)
      | None => Raise ValueError
      end
  end.

(** [int(s)] on a string of decimal digits, the only strings the code
    passes to it; [ValueError] on the empty string and on any other
    character. *)
Definition int_of_string (s : string) : Result nat :=
  match s with
  | EmptyString => Raise ValueError
  | String _ _ => int_digits s 0
  end.

(** [s.split('.')[0]]: what precedes the first dot. *)
Fixpoint before_dot (s : string) : string :=
  match s with
  | EmptyString => EmptyString
  | String c rest =>
      if Ascii.eqb c "." then EmptyString else String c (before_dot rest)
  end.

(** [s.endswith(suffix)]. *)
Fixpoint endswith (s suffix : string) : bool :=
  String.eqb s suffix
  || match s with
     | EmptyString => false
     | String _ rest => endswith rest suffix
     end.

(** [l.sort(key=...)] on elements already paired with their key: the sort
    is stable, elements of equal key keep their order. *)
Fixpoint insert_by_key {A} (x : nat * A) (l : list (nat * A)) : list (nat * A) :=
  match l with
  | [] => [x]
  | y :: rest =>
      if (fst x <=? fst y)%nat then x :: l else y :: insert_by_key x rest
  end.

Definition sort_by_key {A} (l : list (nat * A)) : list (nat * A) :=
  fold_right insert_by_key [] l.

(** [os.listdir]: the names in a directory, in an order the system
    chooses. *)
Record Listing : Type := mkListing {
  listdir : list string -> list string;
  listdir_permutation : forall names : list string, Permutation (listdir names) names
}.

End Py.

Import Py.

Declare Scope py_scope.
Delimit Scope py_scope with py.
Notation "x <- m ;; k" := (Py.bind m (fun x => k))
  (at level 61, m at next level, right associativity) : py_scope.
Notation "' pat <- m ;; k" := (Py.bind m (fun x => match x with pat => k end))
  (at level 61, pat pattern, m at next level, right associativity) : py_scope.
Open Scope py_scope.

(** ** Audio buffers (the pydub values the code manipulates) *)

Module Audio.

Inductive Part : Type :=
| Silence (ms : Q)
| Speech (ms : Q).

Definition part_ms (p : Part) : Q :=
  match p with
  | Silence ms => ms
  | Speech ms => ms
  end.

Definition AudioSegment : Type := list Part.

(** [len(audio)], in milliseconds. *)
Fixpoint len (a : AudioSegment) : Q :=
  match a with
  | [] => 0
  | p :: r => part_ms p + len r
  end.

(** [AudioSegment.silent(duration=d)]: a request for a negative duration
    produces an empty buffer.  The buffer is given the duration asked for,
    which is what the timing policy computes with.  pydub itself builds the
    buffer from whole frames at 11025 Hz and reports lengths in whole
    milliseconds ([silent_frames] and [frames_ms] below): the length it
    reports is the duration asked for when that is a whole number of
    milliseconds and less than a millisecond away from it otherwise
    ([silent_whole_milliseconds], [silent_within_a_millisecond]).  Buffers
    are joined frame by frame, so the length pydub reports for a whole track
    can be a millisecond away from the sum of the durations of its parts. *)
Definition silent (duration : Q) : AudioSegment := [Silence (Qmax duration 0)].

(** The frames of [AudioSegment.silent(duration=d)]:
    [int(frame_rate * (duration / 1000.0))] at the default rate, none when
    that is negative. *)
Definition silent_frames (duration : Q) : Z :=
  Z.max (Py.int (11025 * (duration / 1000))) 0.

(** [len(audio)] for a buffer of that many frames at 11025 Hz:
    [round(1000 * (frame_count / frame_rate))]. *)
Definition frames_ms (frames : Z) : Z :=
  Py.round (1000 * (inject_Z frames / 11025)).

(** [len(audio[:stop])] for a buffer of [n] milliseconds.  pydub clamps
    [stop] to [n] and counts a negative position from the end of the buffer;
    it then slices its sample data at that position, where a position that is
    still negative is counted from the end once more and the result is
    clamped to the buffer. *)
Definition slice_to (n stop : Z) : Z :=
  let stop := Z.min stop n in
  let position := if (stop <? 0)%Z then (n - Z.abs stop)%Z else stop in
  if (position <? 0)%Z then Z.max (n + position) 0 else Z.min position n.

(** Milliseconds of silence contained in a buffer. *)
Fixpoint silence_ms (a : AudioSegment) : Q :=
  match a with
  | [] => 0
  | Silence ms :: r => ms + silence_ms r
  | Speech _ :: r => silence_ms r
  end.

(** Milliseconds of synthesized speech contained in a buffer. *)
Fixpoint speech_ms (a : AudioSegment) : Q :=
  match a with
  | [] => 0
  | Silence _ :: r => speech_ms r
  | Speech ms :: r => ms + speech_ms r
  end.

End Audio.

Import Audio.

(** ** Sentence records: [records[i] = [translated, sentence, start, end,
       speaker, emotion]] *)

Record SentenceRecord : Type := mkRecord {
  translated : string;
  sentence : string;
  r_start : Q;
  r_end : Q;
  speaker : string;
  emotion : option string
}.

(** ** Silence budget tracker (lines 501-509 and 576-583)

    The same four lines appear twice in the source, once on the leading gap
    and once on each gap to the next sentence: the pair returned is
    [(previous_silence_time, natural_scilence)] after them. *)

Definition split_silence (natural_scilence : Q) : Q * Q :=
  if Qle_bool 0.8 natural_scilence
  then (0.8, natural_scilence - 0.8)
  else (natural_scilence, 0).

(** ** Timing reconciler (lines 515-592) *)

Inductive Regime : Type := Stretch | Drop | Pad.

(** The [if theta < 1 and theta > 0.44 / elif theta < 0.44 / else] chain. *)
Definition select_regime (theta : Q) : Regime :=
  if Py.ltb theta 1 && Py.ltb 0.44 theta then Stretch
  else if Py.ltb theta 0.44 then Drop
  else Pad.

(** [theta = lo/lt] followed by the branch taken. *)
Definition branch (lo lt : Q) : Result Regime :=
  theta <- Py.div lo lt ;;
  Ok (select_regime theta).

Definition tip : Z := 350.

(** One iteration's diagnostics and output: the values the loop prints
    ([previous_silence_time] at its top, [lo] and [lt] at its bottom) and the
    two buffers it joins into [su_audio_chunks/{i}.wav]. *)
Record Chunk : Type := mkChunk {
  index : nat;
  pending : Q;
  lo_total : Q;
  lt_adjusted : Q;
  clip : AudioSegment;
  trailing : AudioSegment
}.

Definition chunk_audio (c : Chunk) : AudioSegment := clip c ++ trailing c.

(** Lines 543-544: the synthesized clip of [raw] milliseconds without its
    last [tip] milliseconds, [audio[:len(audio)-tip]]. *)
Definition trimmed (raw : Z) : AudioSegment :=
  [Speech (inject_Z (slice_to raw (raw - tip)))].

(** Line 548: [lo = max(records[i][3] - records[i][2], 0)]. *)
Definition slot (r : SentenceRecord) : Q := Qmax (r_end r - r_start r) 0.

(** ** Dictionaries in insertion order

    Assigning to a key that is already present replaces its value and keeps
    its position. *)

Fixpoint dict_set {K V : Type} (eqb : K -> K -> bool) (d : list (K * V))
    (key : K) (value : V) : list (K * V) :=
  match d with
  | [] => [(key, value)]
  | (k, v) :: rest =>
      if eqb k key then (k, value) :: rest
      else (k, v) :: dict_set eqb rest key value
  end.

Definition values {K V : Type} (d : list (K * V)) : list V := map snd d.

Module Reconciler.

Section Collaborators.

(** The text-to-speech collaborator: called with the translated text, the
    speaker whose reference audio is used, the emotion and the sentence
    index (the output path); [None] when synthesis fails, otherwise the
    length in milliseconds of the file it wrote. *)
Variable synthesize_speech : string -> string -> option string -> nat -> option Z.

(** The tempo-stretch collaborator ([ffmpeg -filter:a atempo=speed]):
    [None] stands for a non-zero return code. *)
Variable ffmpeg_atempo : AudioSegment -> Q -> option AudioSegment.

(** The order in which [os.listdir("su_audio_chunks")] returns the chunk
    files. *)
Variable listing : Listing.

Definition synthesized (i : nat) (r : SentenceRecord) : option Z :=
  synthesize_speech (translated r) (speaker r) (emotion r) i.

(** Lines 547-570: from the trimmed clip to the reconciled clip. *)
Definition reconcile (audio : AudioSegment) (lo p : Q) : Result AudioSegment :=
  let lt := len audio / 1000 in
  theta <- Py.div lo lt ;;
  match select_regime theta with
  | Stretch =>
      theta_prim <- Py.div (lo + p) lt ;;
      speed <- Py.div 1 theta_prim ;;
      match ffmpeg_atempo audio speed with
      | Some out => Ok out
      | None => Ok (silent ((lo + p) * 1000))
      end
  | Drop => Ok (silent ((lo + p) * 1000))
  | Pad => Ok (silent (p * 1000) ++ audio)
  end.

(** The body of the loop for sentence [i], where [next] is [records[i+1]]
    when [i+1 < len(records)].  The result is the new
    [previous_silence_time] and the chunk written, if any. *)
Definition process (i : nat) (r : SentenceRecord) (next : option SentenceRecord)
    (p : Q) : Result (Q * option Chunk) :=
  match synthesized i r with
  | None => Ok (p, None)
  | Some raw =>
      let audio := trimmed raw in
      let lo := slot r in
      out <- reconcile audio lo p ;;
      let lt := len out / 1000 in
      let lo := r_end r - r_start r + p in
      match next with
      | Some r' =>
          let '(p', natural_scilence) :=
            split_silence (Qmax (r_start r' - r_end r) 0) in
          Ok (p', Some (mkChunk i p lo lt out
                          (silent ((Qmax (lo - lt) 0 + natural_scilence) * 1000))))
      | None =>
          Ok (p, Some (mkChunk i p lo lt out (silent (Qmax (lo - lt) 0 * 1000))))
      end
  end.

(** [for i in range(len(records))], as a recursion on the records still to
    process: [records[i]] is the head and [records[i+1]] the head of the
    rest. *)
Fixpoint loop (i : nat) (records : list SentenceRecord) (p : Q)
    (chunks : list Chunk) : Result (Q * list Chunk) :=
  match records with
  | [] => Ok (p, chunks)
  | r :: rest =>
      '(p', c) <- process i r (hd_error rest) p ;;
      loop (S i) rest p' (match c with Some c => chunks ++ [c] | None => chunks end)
  end.

(** [su_audio_chunks/{i}.wav], the file of sentence [i]. *)
Definition file_name (i : nat) : string := (str i ++ ".wav")%string.

(** The directory [su_audio_chunks] after the loop: it is emptied before the
    loop (lines 497-499) and every chunk is written under the name of its
    sentence. *)
Definition su_audio_chunks (written : list Chunk) : list (string * Chunk) :=
  fold_left (fun d c => dict_set String.eqb d (file_name (index c)) c) written [].

(** Line 602: [f.endswith(('.mp3', '.wav', '.ogg'))]. *)
Definition is_audio (f : string) : bool :=
  endswith f ".mp3" || endswith f ".wav" || endswith f ".ogg".

(** Line 605: the keys [int(x.split('.')[0])] of the sort. *)
Fixpoint with_keys (audio_files : list string) : Result (list (nat * string)) :=
  match audio_files with
  | [] => Ok []
  | f :: rest =>
      k <- int_of_string (before_dot f) ;;
      ks <- with_keys rest ;;
      Ok ((k, f) :: ks)
  end.

(** Line 610: [AudioSegment.from_file] on a file of the directory. *)
Fixpoint from_file (dir : list (string * Chunk)) (f : string) : Result Chunk :=
  match dir with
  | [] => Raise FileNotFoundError
  | (name, c) :: rest => if String.eqb name f then Ok c else from_file rest f
  end.

Fixpoint read_all (dir : list (string * Chunk)) (audio_files : list string)
    : Result (list Chunk) :=
  match audio_files with
  | [] => Ok []
  | f :: rest =>
      c <- from_file dir f ;;
      cs <- read_all dir rest ;;
      Ok (c :: cs)
  end.

(** Lines 602-611: the chunk files in the order the assembler joins them. *)
Definition assemble (dir : list (string * Chunk)) : Result (list Chunk) :=
  let audio_files := filter is_audio (listdir listing (map fst dir)) in
  keyed <- with_keys audio_files ;;
  read_all dir (map snd (sort_by_key keyed)).

(** The assembled track, with what the assembler joined. *)
Record Track : Type := mkTrack {
  prefix : AudioSegment;
  chunks : list Chunk;
  final_pad : AudioSegment;
  final_pending : Q
}.

Definition combined (t : Track) : AudioSegment :=
  prefix t ++ List.concat (map chunk_audio (chunks t)) ++ final_pad t.

(** Lines 501-617: [total_length] is the duration of the source video in
    seconds.  [records[0]] raises [IndexError] on an empty list.  The chunks
    of the track are the files of [su_audio_chunks], listed, filtered by
    extension, sorted by the number in their name and read back. *)
Definition dub (records : list SentenceRecord) (total_length : Q) : Result Track :=
  match records with
  | [] => Raise IndexError
  | r0 :: _ =>
      let '(p0, natural_scilence) := split_silence (r_start r0) in
      '(p, written) <- loop 0 records p0 [] ;;
      joined <- assemble (su_audio_chunks written) ;;
      Ok (mkTrack (silent (natural_scilence * 1000)) joined
            (silent (Qabs (total_length - r_end (last records r0)) * 1000)) p)
  end.

(** What a completed iteration did: nothing, or one chunk. *)
Inductive Processed (i : nat) (r : SentenceRecord) (next : option SentenceRecord)
    (p : Q) : Q -> option Chunk -> Prop :=
| Skipped :
    synthesized i r = None ->
    Processed i r next p p None
| WroteLast (raw : Z) (out : AudioSegment) :
    next = None ->
    synthesized i r = Some raw ->
    reconcile (trimmed raw) (slot r) p = Ok out ->
    Processed i r next p p
      (Some (mkChunk i p (r_end r - r_start r + p) (len out / 1000) out
               (silent (Qmax (r_end r - r_start r + p - len out / 1000) 0 * 1000))))
| WroteNext (raw : Z) (out : AudioSegment) (r' : SentenceRecord) :
    next = Some r' ->
    synthesized i r = Some raw ->
    reconcile (trimmed raw) (slot r) p = Ok out ->
    Processed i r next p
      (fst (split_silence (Qmax (r_start r' - r_end r) 0)))
      (Some (mkChunk i p (r_end r - r_start r + p) (len out / 1000) out
               (silent ((Qmax (r_end r - r_start r + p - len out / 1000) 0
                         + snd (split_silence (Qmax (r_start r' - r_end r) 0))) * 1000)))).

(** Every value [previous_silence_time] holds during the loop, in order: on
    entry, and after each iteration that completed (an exception ends the
    list). *)
Fixpoint pending_history (i : nat) (records : list SentenceRecord) (p : Q)
    : list Q :=
  p :: match records with
       | [] => []
       | r :: rest =>
           match process i r (hd_error rest) p with
           | Ok (p', _) => pending_history (S i) rest p'
           | Raise _ => []
           end
       end.

(** A completed run of the loop over [records], from sentence [i] and the
    credit [p] to the final credit, with the chunks it wrote. *)
Inductive Trace : nat -> list SentenceRecord -> Q -> Q -> list Chunk -> Prop :=
| TraceEnd (i : nat) (p : Q) :
    Trace i [] p p []
| TraceSkip (i : nat) (r : SentenceRecord) (rest : list SentenceRecord)
    (p p' : Q) (cs : list Chunk) :
    Processed i r (hd_error rest) p p None ->
    Trace (S i) rest p p' cs ->
    Trace i (r :: rest) p p' cs
| TraceChunk (i : nat) (r : SentenceRecord) (rest : list SentenceRecord)
    (p q p' : Q) (c : Chunk) (cs : list Chunk) :
    Processed i r (hd_error rest) p q (Some c) ->
    Trace (S i) rest q p' cs ->
    Trace i (r :: rest) p p' (c :: cs).

(** The gap that follows [r] on the original timeline, as the tracker reads
    it; nothing follows the last sentence. *)
Definition gap_after (r : SentenceRecord) (rest : list SentenceRecord) : Q :=
  match rest with
  | [] => 0
  | r' :: _ => Qmax (r_start r' - r_end r) 0
  end.

(** The gaps that follow a synthesized sentence. *)
Fixpoint kept_gaps (i : nat) (records : list SentenceRecord) : Q :=
  match records with
  | [] => 0
  | r :: rest =>
      (match synthesized i r with
       | Some _ => gap_after r rest
       | None => 0
       end) + kept_gaps (S i) rest
  end.

(** The time the sentences that were not synthesized take on the original
    timeline: their slot and the gap that follows them. *)
Fixpoint omitted_time (i : nat) (records : list SentenceRecord) : Q :=
  match records with
  | [] => 0
  | r :: rest =>
      (match synthesized i r with
       | Some _ => 0
       | None => slot r + gap_after r rest
       end) + omitted_time (S i) rest
  end.

(** Whether the last sentence was synthesized. *)
Fixpoint last_written (i : nat) (records : list SentenceRecord) : bool :=
  match records with
  | [] => false
  | r :: rest =>
      match rest with
      | [] => match synthesized i r with Some _ => true | None => false end
      | _ :: _ => last_written (S i) rest
      end
  end.

(** The credit that no chunk used: the final [previous_silence_time] when the
    last sentence was not synthesized. *)
Definition unused_credit (records : list SentenceRecord) (p : Q) : Q :=
  if last_written 0 records then 0 else p.

End Collaborators.

End Reconciler.

Import Reconciler.


(** ** Speaker attributor (lines 108-114, 239 and 457-472) *)

Record Turn : Type := mkTurn {
  turn_start : Q;
  turn_end : Q;
  turn_speaker : string
}.

Definition Rolls : Type := list ((Q * Q) * string).

Definition key_eqb (a b : Q * Q) : bool :=
  Qeq_bool (fst a) (fst b) && Qeq_bool (snd a) (snd b).

(** Lines 111-114: turns longer than 1.5 s enter [speakers_rolls]. *)
Fixpoint diarize (turns : list Turn) (speakers_rolls : Rolls) : Rolls :=
  match turns with
  | [] => speakers_rolls
  | t :: rest =>
      diarize rest
        (if Py.ltb 1.5 (Qabs (turn_end t - turn_start t))
         then dict_set key_eqb speakers_rolls (turn_start t, turn_end t) (turn_speaker t)
         else speakers_rolls)
  end.

Definition occurrences (l : list string) (v : string) : nat :=
  count_occ string_dec l v.

(** Line 239. *)
Definition most_occured_speaker (speakers_rolls : Rolls) : Result string :=
  Py.max_key (occurrences (values speakers_rolls)) (values speakers_rolls).

(** Modelled from the spec: [get_overlap] of [tools/utils.py], a file that is
    not among the sources; section 4.2 gives the overlap of a sentence with an
    interval as [max(0, min(sentEnd, intEnd) - max(sentStart, intStart))]. *)
Definition get_overlap (a b : Q * Q) : Q :=
  Qmax 0 (Qmin (snd a) (snd b) - Qmax (fst a) (fst b)).

(** The interval as line 463-464 read it: [int(key[0])], [int(key[1])]. *)
Definition speaker_range (key : Q * Q) : Q * Q :=
  (inject_Z (Py.int (fst key)), inject_Z (Py.int (snd key))).

(** Lines 462-472, from the current [max_overlap] and [speaker]. *)
Fixpoint scan_speakers (span : Q * Q) (items : Rolls) (max_overlap : Q)
    (speaker : string) : string :=
  match items with
  | [] => speaker
  | (key, value) :: rest =>
      let overlap := get_overlap span (speaker_range key) in
      if Py.ltb max_overlap overlap
      then scan_speakers span rest overlap value
      else scan_speakers span rest max_overlap speaker
  end.

(** Lines 457-472 for one sentence span. *)
Definition assign_speaker (span : Q * Q) (speakers_rolls : Rolls)
    (most_occured : string) : string :=
  scan_speakers span speakers_rolls 0 most_occured.

(** Line 239 followed by lines 457-472: the speaker a sentence span gets.
    Line 239 runs once, before the first sentence, and raises [ValueError]
    when [speakers_rolls] is empty. *)
Definition attributed_speaker (span : Q * Q) (speakers_rolls : Rolls)
    : Result string :=
  most_occured <- most_occured_speaker speakers_rolls ;;
  Ok (assign_speaker span speakers_rolls most_occured).

(** ** Sentence segmenter (lines 247-298) *)

Record WordToken : Type := mkWord {
  word : string;
  w_start : Q;
  w_end : Q
}.

(** [for m in range(len(time_stamped[k][0]))], with [m] characters left. *)
Fixpoint scan_word (m : nat) (w : WordToken) (letter f : nat) (starts : list Q)
    : nat * list Q :=
  match m with
  | O => (f, starts)
  | S m' =>
      let f := S f in
      scan_word m' w letter f
        (if (f =? letter)%nat then starts ++ [w_start w; w_end w] else starts)
  end.

(** [for k in range(len(time_stamped))]. *)
Fixpoint scan_words (time_stamped : list WordToken) (letter f : nat)
    (starts : list Q) : list Q :=
  match time_stamped with
  | [] => starts
  | w :: rest =>
      let '(f', starts') := scan_word (String.length (word w)) w letter f starts in
      scan_words rest letter f' starts'
  end.

(** [for j in range(len(sentences[i]))], on the characters left. *)
Fixpoint scan_sentence (chars : string) (time_stamped : list WordToken)
    (letter : nat) (tmp : string) (starts : list Q) : nat * string * list Q :=
  match chars with
  | EmptyString => (letter, tmp, starts)
  | String c rest =>
      let letter := S letter in
      scan_sentence rest time_stamped letter (tmp ++ String c EmptyString)
        (scan_words time_stamped letter 0 starts)
  end.

(** [for i in range(len(sentences))], filling [time_stamped_sentances]. *)
Fixpoint segment (sentences : list string) (time_stamped : list WordToken)
    (letter : nat) (time_stamped_sentances : list (string * (Q * Q)))
    : Result (list (string * (Q * Q))) :=
  match sentences with
  | [] => Ok time_stamped_sentances
  | s :: rest =>
      let '(letter, tmp, starts) := scan_sentence s time_stamped letter EmptyString [] in
      let letter := S letter in
      lo <- Py.min starts ;;
      hi <- Py.max starts ;;
      segment rest time_stamped letter
        (dict_set String.eqb time_stamped_sentances tmp (lo, hi))
  end.

(** Lines 271-298: the [record] list of [[sentence, start, end]]. *)
Definition sentence_spans (sentences : list string) (time_stamped : list WordToken)
    : Result (list (string * Q * Q)) :=
  d <- segment sentences time_stamped 0 [] ;;
  Ok (map (fun kv => (fst kv, fst (snd kv), snd (snd kv))) d).

(** ** Quantities of the original timeline, for the statements below *)

(** Word characters in the flattened stream. *)
Fixpoint total_chars (time_stamped : list WordToken) : nat :=
  match time_stamped with
  | [] => 0
  | w :: rest => String.length (word w) + total_chars rest
  end.

(** The value of [letter] when sentence [i] starts: every earlier sentence
    advanced it by its length plus one. *)
Fixpoint letter_before (sentences : list string) (i : nat) : nat :=
  match i, sentences with
  | S i', s :: rest => String.length s + 1 + letter_before rest i'
  | _, _ => 0
  end.

Fixpoint Qsum (l : list Q) : Q :=
  match l with
  | [] => 0
  | x :: r => x + Qsum r
  end.

(** The gaps between consecutive sentences, as the tracker reads them. *)
Fixpoint gaps (records : list SentenceRecord) : list Q :=
  match records with
  | r :: ((r' :: _) as rest) => Qmax (r_start r' - r_end r) 0 :: gaps rest
  | _ => []
  end.

(** The overlap the attributor computes for an entry of [speakers_rolls]. *)
Definition seen_overlap (span : Q * Q) (item : (Q * Q) * string) : Q :=
  get_overlap span (speaker_range (fst item)).

(** [x] is the first element of [l] whose measure is largest. *)
Definition first_largest {A B : Type} (lt le : B -> B -> Prop) (f : A -> B)
    (x : A) (l : list A) : Prop :=
  exists pre post : list A,
    l = pre ++ x :: post /\
    (forall y : A, In y pre -> lt (f y) (f x)) /\
    (forall y : A, In y post -> le (f y) (f x)).

(** Sentence [s], starting when [letter] characters have been counted, has no
    character inside the word stream. *)
Definition unmatched (time_stamped : list WordToken) (letter : nat) (s : string)
    : Prop :=
  forall j : nat, (j < String.length s)%nat ->
    (total_chars time_stamped < letter + j + 1)%nat.

(** What the trailing silence of a chunk corrects, [max(lo - lt, 0)], and by
    how much the reconciled clip exceeds its budget, [max(lt - lo, 0)]. *)
Definition shortfall (c : Chunk) : Q := Qmax (lo_total c - lt_adjusted c) 0.

Definition overrun (c : Chunk) : Q := Qmax (lt_adjusted c - lo_total c) 0.

(** A timeline on which every sentence ends after it starts and before the
    next one starts. *)
Fixpoint ordered (records : list SentenceRecord) : Prop :=
  match records with
  | [] => True
  | r :: rest =>
      r_start r <= r_end r /\
      match rest with
      | [] => True
      | r' :: _ => r_end r <= r_start r'
      end /\
      ordered rest
  end.

(** The leading gap, [records[0][2]]. *)
Definition leading_gap (records : list SentenceRecord) : Q :=
  match records with
  | [] => 0
  | r0 :: _ => r_start r0
  end.

(** The time from the start of the first sentence to the end of the last:
    every slot and every gap between two sentences. *)
Fixpoint span_time (records : list SentenceRecord) : Q :=
  match records with
  | [] => 0
  | r :: rest =>
      slot r + match rest with
               | [] => 0
               | r' :: _ => Qmax (r_start r' - r_end r) 0
               end + span_time rest
  end.

(** The range of the silence credit. *)
Definition in_budget (p : Q) : Prop := 0 <= p /\ p <= 0.8.

(** Seconds of audio in a buffer. *)
Definition seconds (a : AudioSegment) : Q := len a / 1000.


(** ** The rest of the reconciliation loop, for the statements below *)

(** The indices of the sentences that are synthesized, from sentence [i]
    on, in order. *)
Fixpoint written_indices
    (synthesize_speech : string -> string -> option string -> nat -> option Z)
    (i : nat) (records : list SentenceRecord) : list nat :=
  match records with
  | [] => []
  | r :: rest =>
      match synthesized synthesize_speech i r with
      | Some _ => i :: written_indices synthesize_speech (S i) rest
      | None => written_indices synthesize_speech (S i) rest
      end
  end.

(** The silence a chunk carries beyond its shortfall correction: the part of
    the following gap that the next credit [p'] does not borrow. *)
Definition extra_silence (r : SentenceRecord) (next : option SentenceRecord)
    (p' : Q) : Q :=
  match next with
  | Some r' => Qmax (r_start r' - r_end r) 0 - p'
  | None => 0
  end.


(** ** Speaker reference audio (lines 224-237) *)

(** pydub's reading of a position in a buffer of [n] milliseconds: a
    negative one is counted from the end. *)
Definition position (n v : Z) : Z :=
  if (v <? 0)%Z then (n - Z.abs v)%Z else v.

(** A bound of a slice of the sample data, as Python normalises it. *)
Definition slice_bound (n v : Z) : Z :=
  if (v <? 0)%Z then Z.max (n + v) 0 else Z.min v n.

(** [len(audio[start:end])] for a buffer of [n] milliseconds. *)
Definition slice_len (n start stop : Z) : Z :=
  let s := slice_bound n (position n (Z.min start n)) in
  let e := slice_bound n (position n (Z.min stop n)) in
  Z.max (e - s) 0.

(** The inner loop of lines 229-234: the length of [speaker_audio] for one
    speaker, [audio] being [n] milliseconds long. *)
Fixpoint speaker_audio (n : Z) (items : Rolls) (speaker : string) : Z :=
  match items with
  | [] => 0
  | (key, value) :: rest =>
      if String.eqb speaker value
      then
        let start := (Py.int (fst key) * 1000)%Z in
        let stop := (Py.int (snd key) * 1000)%Z in
        (slice_len n start stop + speaker_audio n rest speaker)%Z
      else speaker_audio n rest speaker
  end.

(** A turn the diarization pipeline can emit inside an audio of [n]
    milliseconds: it starts at a time that is not negative, ends after it
    starts and before the audio does. *)
Definition turn_in_audio (n : Z) (t : Turn) : Prop :=
  0 <= turn_start t /\ turn_start t <= turn_end t /\
  turn_end t * 1000 <= inject_Z n.

(** The turns that pass the test of line 112. *)
Definition long_turn (t : Turn) : Prop :=
  1.5 < Qabs (turn_end t - turn_start t).

(** ** Sentence spans, for the statements below *)

(** [x] is the start or the end of a word of the transcript. *)
Definition stamp (time_stamped : list WordToken) (x : Q) : Prop :=
  exists w : WordToken, In w time_stamped /\ (x = w_start w \/ x = w_end w).

(** The sentence of a [record] entry. *)
Definition span_text (span : string * Q * Q) : string := fst (fst span).

(** What holds of every entry of [time_stamped_sentances]. *)
Definition sound_entry (time_stamped : list WordToken) (sentences : list string)
    (entry : string * (Q * Q)) : Prop :=
  In (fst entry) sentences /\
  fst (snd entry) <= snd (snd entry) /\
  stamp time_stamped (fst (snd entry)) /\ stamp time_stamped (snd (snd entry)).

(** ** Truth values of Python objects *)

(** A string is true when it is not empty; [None] is false. *)
Definition truthy_string (s : string) : bool :=
  match s with
  | EmptyString => false
  | String _ _ => true
  end.

Definition truthy (o : option string) : bool :=
  match o with
  | None => false
  | Some s => truthy_string s
  end.

Definition is_not_none {A : Type} (o : option A) : bool :=
  match o with
  | None => false
  | Some _ => true
  end.

(** [d.get(key, default)] on a dictionary with string keys. *)
Fixpoint dict_get {V : Type} (d : list (string * V)) (key : string) (default : V) : V :=
  match d with
  | [] => default
  | (k, v) :: rest => if String.eqb k key then v else dict_get rest key default
  end.

(** ** The translation service ([tools/translation_service.py]) *)

Module Translation.

(** The state [__init__] leaves (lines 18-36). *)
Record TranslationService : Type := mkService {
  groq_client : bool;
  openrouter_api_key : option string
}.

(** [a or b] on two optional strings. *)
Definition or_else (a b : option string) : option string :=
  if truthy a then a else b.

(** Lines 18-36: [groq_builds] tells whether the Groq client could be
    built, [key_valid] whether OpenRouter accepted the key. *)
Definition init (groq_api_key openrouter_key : option string)
    (groq_builds key_valid : bool) : TranslationService :=
  let client := if truthy groq_api_key then groq_builds else false in
  let key :=
    if truthy openrouter_key
    then (if key_valid then openrouter_key else None)
    else openrouter_key in
  mkService client key.

(** Lines 212-217: the entries for [groq] and [openrouter]. *)
Definition get_available_providers (svc : TranslationService) : bool * bool :=
  (groq_client svc, is_not_none (openrouter_api_key svc)).

(** Lines 235-251: the three arguments are the environment variables
    [GROQ_TOKEN], [Groq_TOKEN] and [OPENROUTER_API_KEY]. *)
Definition setup_translation_service (GROQ_TOKEN Groq_TOKEN OPENROUTER_API_KEY
    : option string) (groq_builds key_valid : bool) : TranslationService :=
  init (or_else GROQ_TOKEN Groq_TOKEN) OPENROUTER_API_KEY groq_builds key_valid.

Section Providers.

(** What the two providers answer when they are set up: the value the
    method returns after its own [try]/[except], [None] on any failure.  The
    arguments are the sentence, the two contexts and the target language. *)
Variable groq_reply : string -> string -> string -> string -> option string.
Variable openrouter_reply : string -> string -> string -> string -> option string.

(** Lines 51-106. *)
Definition translate_with_groq (svc : TranslationService)
    (sentence before_context after_context target_language : string) : option string :=
  if negb (groq_client svc) then None
  else groq_reply sentence before_context after_context target_language.

(** Lines 108-176. *)
Definition translate_with_openrouter (svc : TranslationService)
    (sentence before_context after_context target_language : string) : option string :=
  if negb (truthy (openrouter_api_key svc)) then None
  else openrouter_reply sentence before_context after_context target_language.

(** Lines 178-210. *)
Definition translate (svc : TranslationService)
    (sentence before_context after_context target_language provider : string)
    : option string :=
  if String.eqb provider "groq" && groq_client svc then
    translate_with_groq svc sentence before_context after_context target_language
  else if String.eqb provider "openrouter" && truthy (openrouter_api_key svc) then
    translate_with_openrouter svc sentence before_context after_context target_language
  else if String.eqb provider "auto" then
    let first :=
      if truthy (openrouter_api_key svc) then
        let result :=
          translate_with_openrouter svc sentence before_context after_context
            target_language in
        if truthy result then result else None
      else None in
    match first with
    | Some result => Some result
    | None =>
        if groq_client svc then
          let result :=
            translate_with_groq svc sentence before_context after_context
              target_language in
          if truthy result then result else None
        else None
    end
  else None.

End Providers.

End Translation.

(** ** The synthesizer front end ([tools/enhanced_tts.py]) and its caller *)

Module Tts.

(** The state [__init__] leaves: [google_tts] is the availability of the
    Google client when one was built, [coqui_tts] whether the Coqui model is
    there. *)
Record EnhancedTTS : Type := mkTTS {
  use_google_tts : bool;
  google_tts : option bool;
  coqui_tts : bool
}.

Definition google_available (o : option bool) : bool :=
  match o with
  | Some available => available
  | None => false
  end.

(** Lines 8-35: [google_loads] tells whether the Google client could be
    built, [coqui_loads] whether the Coqui model could. *)
Definition init (use_google : bool) (google_loads coqui_loads : bool) : EnhancedTTS :=
  let google := if use_google then Some google_loads else None in
  let use :=
    if use_google then (if negb google_loads then false else use_google)
    else use_google in
  let coqui :=
    if negb use || negb (is_not_none google) || negb (google_available google)
    then coqui_loads
    else false in
  mkTTS use google coqui.

Inductive Engine : Type := Google | Coqui | NoEngine.

(** Lines 54-65: the engine [synthesize_speech] hands the request to. *)
Definition engine (t : EnhancedTTS) : Engine :=
  if use_google_tts t && is_not_none (google_tts t) && google_available (google_tts t)
  then Google
  else if coqui_tts t then Coqui
  else NoEngine.

(** The keyword arguments of a call to [synthesize_speech] that matter to
    the engines. *)
Record Request : Type := mkRequest {
  text : string;
  language_code : string;
  speaker_wav : option string;
  request_emotion : option string;
  gender : option string;
  sentence_index : nat
}.

(** [app.py], lines 519-537: the request built for sentence [i], where
    [speaker_file] is the path [speakers_audio/{speaker}.wav]. *)
Definition request_for (flag : bool) (google_credentials_path : option string)
    (target_language : string) (speaker_file : string -> string)
    (r : SentenceRecord) (i : nat) : Request :=
  if flag && truthy google_credentials_path
  then mkRequest (translated r) target_language None None (Some "NEUTRAL"%string) i
  else mkRequest (translated r) target_language (Some (speaker_file (speaker r)))
         (emotion r) None i.

(** [app.py], lines 490-494: the front end the loop uses. *)
Definition front_end (flag : bool) (google_credentials_path : option string)
    (google_loads coqui_loads : bool) : EnhancedTTS :=
  init (flag && is_not_none google_credentials_path) google_loads coqui_loads.

End Tts.

(** ** Google Cloud credentials ([config/google_cloud_setup.py]) *)

Module Credentials.

Section Host.

(** The host: which paths exist, and the expansion of
    [~/.config/gcloud/application_default_credentials.json]. *)
Variable exists_ : string -> bool.
Variable home_default : string.

Definition default_paths : list string :=
  ["config/google-cloud-credentials.json"%string;
   "google-cloud-credentials.json"%string;
   home_default].

Fixpoint first_existing (paths : list string) : option string :=
  match paths with
  | [] => None
  | path :: rest => if exists_ path then Some path else first_existing rest
  end.

(** Lines 6-47: [env_application] is [GOOGLE_APPLICATION_CREDENTIALS] and
    [env_path] is [GOOGLE_CLOUD_CREDENTIALS_PATH] once the [.env] file has
    been loaded. *)
Definition setup_google_cloud_credentials (env_application env_path : option string)
    : option string :=
  match env_application with
  | Some creds_path =>
      if truthy_string creds_path && exists_ creds_path then Some creds_path
      else match env_path with
           | Some creds_path' =>
               if truthy_string creds_path' && exists_ creds_path'
               then Some creds_path'
               else first_existing default_paths
           | None => first_existing default_paths
           end
  | None =>
      match env_path with
      | Some creds_path' =>
          if truthy_string creds_path' && exists_ creds_path'
          then Some creds_path'
          else first_existing default_paths
      | None => first_existing default_paths
      end
  end.

(** The paths the function looks at, in order. *)
Definition candidates (env_application env_path : option string) : list string :=
  (match env_application with Some p => [p] | None => [] end)
  ++ (match env_path with Some p => [p] | None => [] end)
  ++ default_paths.

End Host.

End Credentials.

(** ** Language tables ([app.py], lines 700-717; [tools/google_tts.py],
       lines 155-183) *)

Definition language_mapping : list (string * string) :=
  [("English", "en"); ("Spanish", "es"); ("French", "fr"); ("German", "de");
   ("Italian", "it"); ("Turkish", "tr"); ("Russian", "ru"); ("Dutch", "nl");
   ("Czech", "cs"); ("Arabic", "ar"); ("Chinese (Simplified)", "zh-cn");
   ("Japanese", "ja"); ("Korean", "ko"); ("Hindi", "hi"); ("Hungarian", "hu")]%string.

Definition GOOGLE_TTS_LANGUAGE_MAPPING : list (string * string) :=
  [("en", "en-US"); ("es", "es-ES"); ("fr", "fr-FR"); ("de", "de-DE");
   ("it", "it-IT"); ("tr", "tr-TR"); ("ru", "ru-RU"); ("nl", "nl-NL");
   ("cs", "cs-CZ"); ("ar", "ar-XA"); ("zh-cn", "zh-CN"); ("ja", "ja-JP");
   ("ko", "ko-KR"); ("hi", "hi-IN"); ("hu", "hu-HU")]%string.

Definition get_google_language_code (vidubb_language_code : string) : string :=
  dict_get GOOGLE_TTS_LANGUAGE_MAPPING vidubb_language_code "en-US"%string.

(** ** Which translator a run uses ([app.py], lines 370 and 450, and the
       call at lines 731-742) *)

(** The arguments [process_video] passes to [VideoDubbing], by position. *)
Record Settings : Type := mkSettings {
  Video_path : string;
  source_language : string;
  target_language : string;
  LipSync : bool;
  Voice_denoising : bool;
  whisper_model : string;
  Context_translation : string;
  huggingface_auth_token : option string;
  use_google_tts : bool;
  translation_provider : string
}.

(** [d[key]] on a dictionary with string keys: [None] stands for
    [KeyError]. *)
Fixpoint dict_item {V : Type} (d : list (string * V)) (key : string) : option V :=
  match d with
  | [] => None
  | (k, v) :: rest => if String.eqb k key then Some v else dict_item rest key
  end.

Inductive Translator : Type :=
| MarianMT
| ContextService (provider : string).

(** Lines 370 and 450: the test that picks the translator. *)
Definition translator (s : Settings) : Translator :=
  if negb (truthy_string (Context_translation s))
     || String.eqb (Context_translation s) "API code here"
  then MarianMT
  else ContextService (translation_provider s).

(** Lines 720-742, for a video that is a local file ([video_path] is what
    lines 724-729 leave): [None] stands for the [KeyError] of an unknown
    language name. *)
Definition process_video_settings (video_path source target : string)
    (use_wav2lip : bool) (model : string) (bg_sound : bool)
    (hf_token : option string) (google : bool) (provider : string)
    : option Settings :=
  match dict_item language_mapping source with
  | None => None
  | Some source_code =>
      match dict_item language_mapping target with
      | None => None
      | Some target_code =>
          Some (mkSettings video_path source_code target_code use_wav2lip
                  (negb bg_sound) model "" hf_token google provider)
      end
  end.

(** ** The result files (lines 646-698 and 743-757) *)

Module Files.

Inductive Error : Type :=
| FileNotFoundError
| DestinationExists.

Inductive Result (A : Type) : Type :=
| Ok (a : A)
| Raise (e : Error).
Arguments Ok {A} a.
Arguments Raise {A} e.

Definition bind {A B} (m : Result A) (k : A -> Result B) : Result B :=
  match m with
  | Ok a => k a
  | Raise e => Raise e
  end.

(** The files that exist, by path relative to the working directory. *)
Definition Fs : Type := list string.

Definition exists_ (fs : Fs) (path : string) : bool :=
  existsb (String.eqb path) fs.

Definition create (path : string) (fs : Fs) : Fs :=
  if exists_ fs path then fs else path :: fs.

Definition unlink (path : string) (fs : Fs) : Fs :=
  filter (fun q => negb (String.eqb path q)) fs.

(** [os.remove(path)]. *)
Definition remove (path : string) (fs : Fs) : Result Fs :=
  if exists_ fs path then Ok (unlink path fs) else Raise FileNotFoundError.

(** [os.path.basename(path)]: what follows the last slash. *)
Fixpoint basename_from (path name : string) : string :=
  match path with
  | EmptyString => name
  | String c rest =>
      if Ascii.eqb c "/" then basename_from rest EmptyString
      else basename_from rest (name ++ String c EmptyString)
  end.

Definition basename (path : string) : string := basename_from path EmptyString.

Fixpoint ends_with_slash (path : string) : bool :=
  match path with
  | EmptyString => false
  | String c EmptyString => Ascii.eqb c "/"
  | String _ rest => ends_with_slash rest
  end.

(** [os.path.join(folder, name)] for a relative [name]. *)
Definition join (folder name : string) : string :=
  match folder with
  | EmptyString => name
  | _ => if ends_with_slash folder then folder ++ name else folder ++ "/" ++ name
  end.

(** [shutil.move(src, folder)] into a directory that exists ([audio] and
    [results] are made at lines 87 and 91): the destination is tested first,
    then the file is renamed. *)
Definition move (src folder : string) (fs : Fs) : Result Fs :=
  let real_dst := join folder (basename src) in
  if exists_ fs real_dst then Raise DestinationExists
  else if exists_ fs src then Ok (create real_dst (unlink src fs))
  else Raise FileNotFoundError.

(** A tool started with [subprocess.run] or [os.system]: the call never
    raises; when the tool works its output file is there afterwards. *)
Definition run (works : bool) (output : string) (fs : Fs) : Fs :=
  if works then create output fs else fs.

(** Whether each of the three tools works on this run. *)
Record Tools : Type := mkTools {
  mux_works : bool;
  denoise_works : bool;
  wav2lip_works : bool
}.

(** Lines 646-698: [output_file_paths] is the accompaniment file the
    separator wrote. *)
Definition finish (LipSync Voice_denoising : bool) (tools : Tools)
    (output_file_paths : string) (fs : Fs) : Result Fs :=
  let fs := run (mux_works tools) "output_video.mp4" fs in
  bind (move output_file_paths "audio/" fs) (fun fs =>
  let fs := if Voice_denoising
            then run (denoise_works tools) "denoised_video.mp4" fs else fs in
  let fs := if LipSync && Voice_denoising
            then run (wav2lip_works tools) "Wav2Lip/results/result_voice.mp4" fs
            else fs in
  let fs := if LipSync && negb Voice_denoising
            then run (wav2lip_works tools) "Wav2Lip/results/result_voice.mp4" fs
            else fs in
  if LipSync && Voice_denoising then
    bind (move "Wav2Lip/results/result_voice.mp4" "results" fs) (fun fs =>
    bind (remove "output_video.mp4" fs) (fun fs =>
    move "denoised_video.mp4" "results" fs))
  else if LipSync && negb Voice_denoising then
    bind (move "Wav2Lip/results/result_voice.mp4" "results" fs) (fun fs =>
    bind (remove "output_video.mp4" fs) (fun fs =>
    remove "denoised_video.mp4" fs))
  else if negb LipSync && Voice_denoising then
    bind (move "denoised_video.mp4" "results" fs) (fun fs =>
    remove "output_video.mp4" fs)
  else
    move "output_video.mp4" "results" fs).

(** Lines 743-755: the path [process_video] reports. *)
Definition source_path (use_wav2lip bg_sound : bool) : string :=
  if use_wav2lip && negb bg_sound then "results/result_voice.mp4"
  else if use_wav2lip && bg_sound then "results/result_voice.mp4"
  else if negb use_wav2lip && negb bg_sound then "results/denoised_video.mp4"
  else "results/output_video.mp4".

(** Lines 731-761, from line 646 on: the path [process_video] returns,
    [None] when the constructor raised. *)
Definition process_video_path (use_wav2lip bg_sound : bool) (tools : Tools)
    (output_file_paths : string) (fs : Fs) : option string :=
  match finish use_wav2lip (negb bg_sound) tools output_file_paths fs with
  | Ok _ => Some (source_path use_wav2lip bg_sound)
  | Raise _ => None
  end.

End Files.

(** ** Concrete collaborators and sentences, for the examples *)

(** A synthesizer whose clip for sentence [i] is the [i]-th entry of
    [clips]. *)
Definition tts_clips (clips : list (option Z))
    : string -> string -> option string -> nat -> option Z :=
  fun _ _ _ i => nth i clips None.

(** A tempo tool that always succeeds, dividing the length by the speed. *)
Definition atempo_exact : AudioSegment -> Q -> option AudioSegment :=
  fun a speed => Some [Speech (len a / speed)].

(** A tempo tool that always fails. *)
Definition atempo_fails : AudioSegment -> Q -> option AudioSegment :=
  fun _ _ => None.

Definition spoken (from to : Q) : SentenceRecord :=
  mkRecord "bonjour" "hello" from to "SPEAKER_00" None.

(** A system that lists a directory from its last entry to its first. *)
Definition backwards : Listing :=
  mkListing (@rev string) (fun names => Permutation_sym (Permutation_rev names)).

(** Eleven sentences of half a second, one every second. *)
Definition eleven : list SentenceRecord :=
  map (fun k => spoken (inject_Z (Z.of_nat k)) (inject_Z (Z.of_nat k) + 0.5))
    (seq 0 11).

(** A translation provider that gives the same answer to every request. *)
Definition always (answer : option string)
    : string -> string -> string -> string -> option string :=
  fun _ _ _ _ => answer.

(** The path of line 533. *)
Definition speaker_file (speaker : string) : string :=
  ("speakers_audio/" ++ speaker ++ ".wav")%string.

(** A host on which [path] is the only file. *)
Definition only_file (path : string) : string -> bool := String.eqb path.

(** * Properties *)

(** ** Comparisons and the Python helpers *)

Lemma ltb_true (x y : Q) : Py.ltb x y = true <-> x < y.
Proof.
  unfold Py.ltb. rewrite negb_true_iff, <- not_true_iff_false, Qle_bool_iff.
  split; [apply Qnot_le_lt | apply Qlt_not_le].
Qed.

Lemma ltb_false (x y : Q) : Py.ltb x y = false <-> y <= x.
Proof.
  unfold Py.ltb. rewrite negb_false_iff. apply Qle_bool_iff.
Qed.

Lemma Qle_bool_false (x y : Q) : Qle_bool x y = false <-> y < x.
Proof.
  rewrite <- not_true_iff_false, Qle_bool_iff.
  split; [apply Qnot_le_lt | apply Qlt_not_le].
Qed.

Lemma div_ok (x y : Q) : ~ y == 0 -> Py.div x y = Ok (x / y).
Proof.
  intros H. unfold Py.div.
  destruct (Qeq_bool y 0) eqn:E; [ | reflexivity].
  apply Qeq_bool_iff in E. contradiction.
Qed.

Lemma div_zero (x y : Q) : y == 0 -> Py.div x y = Raise ZeroDivisionError.
Proof.
  intros H. unfold Py.div. apply Qeq_bool_iff in H. now rewrite H.
Qed.

(** Case analysis on the boolean comparisons of a goal, leaving the
    corresponding order facts in the context. *)
Ltac split_cmp :=
  repeat match goal with
    | |- context [Py.ltb ?x ?y] =>
        let E := fresh "E" in
        destruct (Py.ltb x y) eqn:E;
        [apply ltb_true in E | apply ltb_false in E]
    | |- context [Qle_bool ?x ?y] =>
        let E := fresh "E" in
        destruct (Qle_bool x y) eqn:E;
        [apply Qle_bool_iff in E | apply Qle_bool_false in E]
    end.

Ltac max_cases x y :=
  let H := fresh "Hmax" in
  destruct (Q.max_spec x y) as [[? H] | [? H]].

(** ** Audio buffers *)

Lemma len_app (a b : AudioSegment) : len (a ++ b) == len a + len b.
Proof.
  induction a as [ | x a IH]; cbn; [ | rewrite IH]; lra.
Qed.

Lemma silence_ms_app (a b : AudioSegment) :
  silence_ms (a ++ b) == silence_ms a + silence_ms b.
Proof.
  induction a as [ | [ms | ms] a IH]; cbn; [ | rewrite IH | rewrite IH]; lra.
Qed.

Lemma speech_ms_app (a b : AudioSegment) :
  speech_ms (a ++ b) == speech_ms a + speech_ms b.
Proof.
  induction a as [ | [ms | ms] a IH]; cbn; [ | rewrite IH | rewrite IH]; lra.
Qed.

Lemma len_silent (d : Q) : len (silent d) == Qmax d 0.
Proof. cbn. lra. Qed.

Lemma len_silent_nonneg (d : Q) : 0 <= d -> len (silent d) == d.
Proof. intros H. rewrite len_silent. now apply Q.max_l. Qed.

Lemma slice_to_nonneg (n stop : Z) : (0 <= slice_to n stop)%Z.
Proof.
  unfold slice_to.
  destruct (Z.min stop n <? 0)%Z eqn:E1;
    [apply Z.ltb_lt in E1 | apply Z.ltb_ge in E1];
    match goal with
    | |- context [(?x <? 0)%Z] =>
        destruct (x <? 0)%Z eqn:E2;
        [apply Z.ltb_lt in E2 | apply Z.ltb_ge in E2]
    end; lia.
Qed.

Lemma len_trimmed (raw : Z) :
  len (trimmed raw) == inject_Z (slice_to raw (raw - tip)).
Proof. cbn. lra. Qed.

Lemma ms_seconds (x : Q) : x / 1000 == x * (1 # 1000).
Proof. field. Qed.

Lemma div_mul (x y : Q) : ~ y == 0 -> x / y * y == x.
Proof. intros H. field. exact H. Qed.

Lemma div_by_zero (x y : Q) : y == 0 -> x / y == 0.
Proof. intros E. rewrite E. unfold Qdiv. cbn. ring. Qed.

(** Brings a quotient [x / y] with a positive divisor back to products. *)
Ltac by_product x y Hy :=
  let E := fresh "E" in
  let q := fresh "q" in
  assert (E : x / y * y == x) by (apply div_mul; lra);
  set (q := x / y) in *; clearbody q; nra.

Lemma div_gt_iff (a x y : Q) : 0 < y -> (a < x / y <-> a * y < x).
Proof. intros Hy. split; intros H; by_product x y Hy. Qed.

Lemma trimmed_nonneg (raw : Z) : 0 <= len (trimmed raw).
Proof.
  rewrite len_trimmed. change 0 with (inject_Z 0). rewrite <- Zle_Qle.
  apply slice_to_nonneg.
Qed.

(** A clip whose [theta] is not zero lasts a positive time. *)
Lemma clip_positive (raw : Z) (lo : Q) :
  ~ lo / seconds (trimmed raw) == 0 -> 0 < seconds (trimmed raw).
Proof.
  intros H. unfold seconds in *. pose proof (trimmed_nonneg raw) as Hn.
  destruct (Qeq_dec (len (trimmed raw)) 0) as [E | Hne].
  - exfalso. apply H, div_by_zero. rewrite E. reflexivity.
  - rewrite ms_seconds. lra.
Qed.

(** *** The length pydub reports for a silence *)

Lemma round_near (x : Q) (k : Z) :
  inject_Z k - (1 # 2) < x -> x < inject_Z k + (1 # 2) -> Py.round x = k.
Proof.
  intros Hlo Hhi. unfold Py.round.
  pose proof (Qfloor_le x) as Hf. pose proof (Qlt_floor x) as Hc.
  rewrite inject_Z_plus in Hc. change (inject_Z 1) with 1 in Hc.
  assert (Hcases : k = Qfloor x \/ k = (Qfloor x + 1)%Z).
  { assert (H1 : (Qfloor x <= k)%Z).
    { destruct (Z_le_gt_dec (Qfloor x) k) as [H | H]; [exact H | exfalso].
      assert (Hq : inject_Z (k + 1) <= inject_Z (Qfloor x)) by (rewrite <- Zle_Qle; lia).
      rewrite inject_Z_plus in Hq. change (inject_Z 1) with 1 in Hq. lra. }
    assert (H2 : (k <= Qfloor x + 1)%Z).
    { destruct (Z_le_gt_dec k (Qfloor x + 1)) as [H | H]; [exact H | exfalso].
      assert (Hq : inject_Z (Qfloor x + 2) <= inject_Z k) by (rewrite <- Zle_Qle; lia).
      rewrite inject_Z_plus in Hq. change (inject_Z 2) with 2 in Hq. lra. }
    lia. }
  destruct Hcases as [E | E]; subst k.
  - destruct (Qlt_le_dec (1 # 2) (x - inject_Z (Qfloor x))); [lra | ].
    destruct (Qlt_le_dec (x - inject_Z (Qfloor x)) (1 # 2)); [reflexivity | lra].
  - rewrite inject_Z_plus in Hlo, Hhi. change (inject_Z 1) with 1 in Hlo, Hhi.
    destruct (Qlt_le_dec (1 # 2) (x - inject_Z (Qfloor x))); [reflexivity | lra].
Qed.

Lemma silent_frames_floor (d : Q) :
  0 <= d ->
  inject_Z (silent_frames d) <= 11025 * (d / 1000) /\
  11025 * (d / 1000) < inject_Z (silent_frames d) + 1.
Proof.
  intros Hd. unfold silent_frames, Py.int.
  set (x := 11025 * (d / 1000)).
  assert (Hx : 0 <= x).
  { unfold x. assert (E : 11025 * (d / 1000) == d * (11025 # 1000)) by field.
    rewrite E. lra. }
  clearbody x. destruct x as [n m]. cbn [Qnum Qden].
  assert (Hn : (0 <= n)%Z).
  { unfold Qle in Hx. cbn in Hx. lia. }
  rewrite Z.quot_div_nonneg by lia.
  change (n / Z.pos m)%Z with (Qfloor (n # m)).
  set (x := n # m) in *.
  pose proof (Qfloor_le x) as Hf. pose proof (Qlt_floor x) as Hc.
  rewrite inject_Z_plus in Hc. change (inject_Z 1) with 1 in Hc.
  assert (H0 : (0 <= Qfloor x)%Z).
  { change 0%Z with (Qfloor 0). now apply Qfloor_resp_le. }
  rewrite Z.max_l by lia. split; assumption.
Qed.

(** The length pydub reports for a silence is less than a millisecond away
    from the duration asked for. *)
Lemma silent_within_a_millisecond (d : Q) :
  0 <= d -> Qabs (inject_Z (frames_ms (silent_frames d)) - d) < 1.
Proof.
  intros Hd. destruct (silent_frames_floor d Hd) as [Hlo Hhi].
  unfold frames_ms.
  set (F := inject_Z (silent_frames d)) in *.
  set (x := 1000 * (F / 11025)).
  assert (Ed : 11025 * (d / 1000) == d * (11025 # 1000)) by field.
  assert (Ex : x == F * (1000 # 11025)) by (unfold x; field).
  rewrite Ed in Hlo, Hhi.
  assert (Hx1 : x <= d) by lra.
  assert (Hx2 : d - (1000 # 11025) < x) by lra.
  assert (Hr : inject_Z (Py.round x) <= x + (1 # 2) /\ x - (1 # 2) <= inject_Z (Py.round x)).
  { unfold Py.round. pose proof (Qfloor_le x) as Hf. pose proof (Qlt_floor x) as Hc.
    rewrite inject_Z_plus in Hc. change (inject_Z 1) with 1 in Hc.
    destruct (Qlt_le_dec (1 # 2) (x - inject_Z (Qfloor x))).
    - rewrite inject_Z_plus. change (inject_Z 1) with 1. lra.
    - destruct (Qlt_le_dec (x - inject_Z (Qfloor x)) (1 # 2)); [lra | ].
      destruct (Z.even (Qfloor x)); [lra | ].
      rewrite inject_Z_plus. change (inject_Z 1) with 1. lra. }
  apply Qabs_Qlt_condition. lra.
Qed.

(** For a whole number of milliseconds it is that number. *)
Lemma silent_whole_milliseconds (d : Z) :
  (0 <= d)%Z -> frames_ms (silent_frames (inject_Z d)) = d.
Proof.
  intros Hd.
  assert (Hq : 0 <= inject_Z d) by (change 0 with (inject_Z 0); now rewrite <- Zle_Qle).
  destruct (silent_frames_floor (inject_Z d) Hq) as [Hlo Hhi].
  unfold frames_ms. set (F := inject_Z (silent_frames (inject_Z d))) in *.
  assert (Ed : 11025 * (inject_Z d / 1000) == inject_Z d * (11025 # 1000)) by field.
  assert (Ex : 1000 * (F / 11025) == F * (1000 # 11025)) by field.
  rewrite Ed in Hlo, Hhi.
  apply round_near; lra.
Qed.

(** ** The regime chain *)

Lemma select_regime_stretch (theta : Q) :
  select_regime theta = Stretch <-> 0.44 < theta /\ theta < 1.
Proof.
  unfold select_regime. split_cmp; cbn; split; intros H;
    try discriminate; try reflexivity; try (split; assumption);
    destruct H; lra.
Qed.

Lemma select_regime_drop (theta : Q) :
  select_regime theta = Drop <-> theta < 0.44.
Proof.
  unfold select_regime. split_cmp; cbn; split; intros H;
    try discriminate; try reflexivity; try assumption; lra.
Qed.

Lemma select_regime_pad (theta : Q) :
  select_regime theta = Pad <-> 1 <= theta \/ theta == 0.44.
Proof.
  unfold select_regime. split_cmp; cbn; split; intros H;
    try discriminate; try reflexivity;
    try (destruct H; lra);
    try solve [left; lra]; try solve [right; lra].
Qed.

Lemma branch_spec (lo lt : Q) :
  ~ lt == 0 ->
  (branch lo lt = Ok Stretch <-> 0.44 < lo / lt /\ lo / lt < 1) /\
  (branch lo lt = Ok Drop <-> lo / lt < 0.44) /\
  (branch lo lt = Ok Pad <-> 1 <= lo / lt \/ lo / lt == 0.44).
Proof.
  intros Hlt. unfold branch. rewrite (div_ok lo lt Hlt). cbn.
  rewrite <- select_regime_stretch, <- select_regime_drop, <- select_regime_pad.
  repeat split; intros H; try congruence; now inversion H.
Qed.

(** C1, at the boundary.  A sentence whose slot is 0.44 s with a clip of
    exactly 1 s has [theta = 0.44]: the claim puts it in the drop regime
    ([theta <= 0.44]), the chain sends it to the pad regime, which the claim
    reserves for [theta >= 1]. *)
Theorem C1_theta_044_is_padded :
  slot (spoken 0 0.44) / seconds (trimmed 1350) == 0.44 /\
  ~ 1 <= slot (spoken 0 0.44) / seconds (trimmed 1350) /\
  branch (slot (spoken 0 0.44)) (seconds (trimmed 1350)) = Ok Pad /\
  branch (slot (spoken 0 0.44)) (seconds (trimmed 1350)) <> Ok Drop /\
  Reconciler.reconcile atempo_exact (trimmed 1350) (slot (spoken 0 0.44)) 0.3
  = Ok (silent (0.3 * 1000) ++ trimmed 1350).
Proof.
  split; [reflexivity | ].
  split; [intros H; now apply Qle_bool_iff in H | ].
  split; [reflexivity | ].
  split; [discriminate | reflexivity].
Qed.

(** ** The silence budget tracker *)

Lemma split_silence_capped (g : Q) :
  0.8 <= g -> split_silence g = (0.8, g - 0.8).
Proof.
  intros H. unfold split_silence. apply Qle_bool_iff in H. now rewrite H.
Qed.

Lemma split_silence_small (g : Q) :
  g < 0.8 -> split_silence g = (g, 0).
Proof.
  intros H. unfold split_silence. apply Qle_bool_false in H. now rewrite H.
Qed.

Lemma split_silence_budget (g : Q) :
  0 <= g -> in_budget (fst (split_silence g)).
Proof.
  intros H. unfold split_silence, in_budget. split_cmp; cbn; lra.
Qed.

Lemma split_silence_sum (g : Q) :
  fst (split_silence g) + snd (split_silence g) == g.
Proof.
  unfold split_silence. split_cmp; cbn; lra.
Qed.

Lemma split_silence_rest_nonneg (g : Q) : 0 <= snd (split_silence g).
Proof.
  unfold split_silence. split_cmp; cbn; lra.
Qed.

Lemma gap_nonneg (a b : Q) : 0 <= Qmax (a - b) 0.
Proof. apply Q.le_max_r. Qed.

Section ReconcilerFacts.

Variable synthesize_speech : string -> string -> option string -> nat -> option Z.
Variable ffmpeg_atempo : AudioSegment -> Q -> option AudioSegment.
Variable listing : Listing.

Local Abbreviation synthesized := (synthesized synthesize_speech).
Local Abbreviation reconcile := (reconcile ffmpeg_atempo).
Local Abbreviation process := (process synthesize_speech ffmpeg_atempo).
Local Abbreviation loop := (loop synthesize_speech ffmpeg_atempo).
Local Abbreviation dub := (dub synthesize_speech ffmpeg_atempo listing).
Local Abbreviation assemble := (assemble listing).
Local Abbreviation pending_history := (pending_history synthesize_speech ffmpeg_atempo).
Local Abbreviation Processed := (Processed synthesize_speech ffmpeg_atempo).

Lemma process_skip (i : nat) (r : SentenceRecord) (next : option SentenceRecord) (p : Q) :
  synthesized i r = None -> process i r next p = Ok (p, None).
Proof.
  intros H. unfold Reconciler.process. now rewrite H.
Qed.

Lemma process_raise (i : nat) (r : SentenceRecord) (next : option SentenceRecord)
    (p : Q) (raw : Z) (e : Py.Error) :
  synthesized i r = Some raw ->
  reconcile (trimmed raw) (slot r) p = Raise e ->
  process i r next p = Raise e.
Proof.
  intros H1 H2. unfold Reconciler.process. rewrite H1.
  now rewrite H2.
Qed.

Lemma process_last (i : nat) (r : SentenceRecord) (p : Q) (raw : Z) (out : AudioSegment) :
  synthesized i r = Some raw ->
  reconcile (trimmed raw) (slot r) p = Ok out ->
  process i r None p =
    Ok (p, Some (mkChunk i p (r_end r - r_start r + p) (len out / 1000) out
                   (silent (Qmax (r_end r - r_start r + p - len out / 1000) 0 * 1000)))).
Proof.
  intros H1 H2. unfold Reconciler.process. rewrite H1.
  now rewrite H2.
Qed.

Lemma process_next (i : nat) (r r' : SentenceRecord) (p : Q) (raw : Z) (out : AudioSegment) :
  synthesized i r = Some raw ->
  reconcile (trimmed raw) (slot r) p = Ok out ->
  process i r (Some r') p =
    Ok (fst (split_silence (Qmax (r_start r' - r_end r) 0)),
        Some (mkChunk i p (r_end r - r_start r + p) (len out / 1000) out
                (silent ((Qmax (r_end r - r_start r + p - len out / 1000) 0
                          + snd (split_silence (Qmax (r_start r' - r_end r) 0))) * 1000)))).
Proof.
  intros H1 H2. unfold Reconciler.process. rewrite H1.
  rewrite H2. cbn.
  now destruct (split_silence (Qmax (r_start r' - r_end r) 0)).
Qed.

Lemma process_inv (i : nat) (r : SentenceRecord) (next : option SentenceRecord)
    (p p' : Q) (c : option Chunk) :
  process i r next p = Ok (p', c) -> Processed i r next p p' c.
Proof.
  intros H.
  destruct (synthesized i r) as [raw | ] eqn:Hs.
  - destruct (reconcile (trimmed raw) (slot r) p) as [out | e] eqn:Hr.
    + destruct next as [r' | ].
      * rewrite (process_next i r r' p raw out Hs Hr) in H. inversion H; subst.
        now apply WroteNext with (raw := raw).
      * rewrite (process_last i r p raw out Hs Hr) in H. inversion H; subst.
        now apply WroteLast with (raw := raw).
    + rewrite (process_raise i r next p raw e Hs Hr) in H. discriminate.
  - rewrite (process_skip i r next p Hs) in H. inversion H; subst.
    now apply Skipped.
Qed.

Lemma process_budget (i : nat) (r : SentenceRecord) (next : option SentenceRecord)
    (p p' : Q) (c : option Chunk) :
  process i r next p = Ok (p', c) -> in_budget p -> in_budget p'.
Proof.
  intros H Hp. apply process_inv in H.
  destruct H; try assumption.
  apply split_silence_budget, gap_nonneg.
Qed.

Lemma pending_history_budget (records : list SentenceRecord) :
  forall (i : nat) (p : Q),
    in_budget p -> Forall in_budget (pending_history i records p).
Proof.
  induction records as [ | r rest IH]; intros i p Hp; cbn.
  - constructor; [assumption | constructor].
  - constructor; [assumption | ].
    destruct (process i r (hd_error rest) p) as [[p' c] | e] eqn:E.
    + apply IH. eapply process_budget; eassumption.
    + constructor.
Qed.

Lemma loop_budget (records : list SentenceRecord) :
  forall (i : nat) (p p' : Q) (cs cs' : list Chunk),
    loop i records p cs = Ok (p', cs') ->
    in_budget p -> Forall (fun c => in_budget (pending c)) cs ->
    in_budget p' /\ Forall (fun c => in_budget (pending c)) cs'.
Proof.
  induction records as [ | r rest IH]; intros i p p' cs cs' H Hp Hcs; cbn in H.
  - inversion H; subst. now split.
  - destruct (process i r (hd_error rest) p) as [[q c] | e] eqn:E; [ | discriminate].
    cbn in H.
    assert (Hq : in_budget q) by (eapply process_budget; eassumption).
    apply process_inv in E.
    eapply IH; [exact H | exact Hq | ].
    destruct E; try assumption;
      (apply Forall_app; split; [assumption | ]);
      (constructor; [cbn; assumption | constructor]).
Qed.

(** The four outcomes of [reconcile]. *)

Lemma reconcile_zero (audio : AudioSegment) (lo p : Q) :
  len audio == 0 -> reconcile audio lo p = Raise ZeroDivisionError.
Proof.
  intros H. unfold Reconciler.reconcile.
  rewrite div_zero; [reflexivity | ]. rewrite H. reflexivity.
Qed.

Lemma reconcile_drop (audio : AudioSegment) (lo p : Q) :
  ~ len audio == 0 ->
  select_regime (lo / (len audio / 1000)) = Drop ->
  reconcile audio lo p = Ok (silent ((lo + p) * 1000)).
Proof.
  intros Hz Hr. unfold Reconciler.reconcile.
  rewrite div_ok; [cbn; now rewrite Hr | ].
  intros E. apply Hz. rewrite ms_seconds in E. lra.
Qed.

Lemma reconcile_pad (audio : AudioSegment) (lo p : Q) :
  ~ len audio == 0 ->
  select_regime (lo / (len audio / 1000)) = Pad ->
  reconcile audio lo p = Ok (silent (p * 1000) ++ audio).
Proof.
  intros Hz Hr. unfold Reconciler.reconcile.
  rewrite div_ok; [cbn; now rewrite Hr | ].
  intros E. apply Hz. rewrite ms_seconds in E. lra.
Qed.

Lemma reconcile_stretch (audio : AudioSegment) (lo p : Q) :
  ~ len audio == 0 ->
  select_regime (lo / (len audio / 1000)) = Stretch ->
  ~ (lo + p) / (len audio / 1000) == 0 ->
  reconcile audio lo p =
    Ok (match ffmpeg_atempo audio (1 / ((lo + p) / (len audio / 1000))) with
        | Some out => out
        | None => silent ((lo + p) * 1000)
        end).
Proof.
  intros Hz Hr Hp. unfold Reconciler.reconcile.
  assert (Hlt : ~ len audio / 1000 == 0)
    by (intros E; apply Hz; rewrite ms_seconds in E; lra).
  rewrite div_ok by exact Hlt. cbn. rewrite Hr.
  rewrite div_ok by exact Hlt. cbn.
  rewrite div_ok by exact Hp. cbn.
  now destruct (ffmpeg_atempo audio (1 / ((lo + p) / (len audio / 1000)))).
Qed.

Lemma process_wrote (i : nat) (r : SentenceRecord) (next : option SentenceRecord)
    (p : Q) (raw : Z) (out : AudioSegment) :
  synthesized i r = Some raw ->
  reconcile (trimmed raw) (slot r) p = Ok out ->
  exists (p' : Q) (c : Chunk),
    process i r next p = Ok (p', Some c) /\ clip c = out /\
    pending c = p /\ lt_adjusted c = len out / 1000.
Proof.
  intros Hs Hr. destruct next as [r' | ].
  - rewrite (process_next i r r' p raw out Hs Hr). eauto 8.
  - rewrite (process_last i r p raw out Hs Hr). eauto 8.
Qed.


Lemma seconds_silent (d : Q) : 0 <= d -> seconds (silent (d * 1000)) == d.
Proof.
  intros H. unfold seconds. rewrite len_silent_nonneg; [field | lra].
Qed.

Lemma seconds_app (a b : AudioSegment) : seconds (a ++ b) == seconds a + seconds b.
Proof. unfold seconds. rewrite len_app. field. Qed.

(** C4.  When sentence [i] has been reconciled and a sentence follows, the
    tracker reads [gap = max(nextStart - thisEnd, 0)]: from 0.8 s up the next
    [previous_silence_time] is 0.8 and [gap - 0.8] is added to the silence
    appended now, below 0.8 s the next value is the gap and nothing is
    added.  The silence appended to the reconciled clip [out] is measured: it
    lasts the shortfall [max(lo - lt, 0)] plus that extra, and the chunk
    lasts as long as [out] and that silence together. *)
Theorem C4_tracker_update (i : nat) (r r' : SentenceRecord) (p : Q) (raw : Z)
    (out : AudioSegment) :
  synthesized i r = Some raw ->
  reconcile (trimmed raw) (slot r) p = Ok out ->
  let gap := Qmax (r_start r' - r_end r) 0 in
  exists (p' extra : Q) (c : Chunk),
    process i r (Some r') p = Ok (p', Some c) /\
    trailing c = silent ((Qmax (lo_total c - lt_adjusted c) 0 + extra) * 1000) /\
    (0.8 <= gap -> p' = 0.8 /\ extra = gap - 0.8) /\
    (gap < 0.8 -> p' = gap /\ extra = 0) /\
    0 <= extra /\
    clip c = out /\
    lo_total c = r_end r - r_start r + p /\
    lt_adjusted c = seconds out /\
    silence_ms (trailing c)
    == (Qmax (lo_total c - lt_adjusted c) 0 + extra) * 1000 /\
    speech_ms (trailing c) == 0 /\
    seconds (trailing c) == Qmax (lo_total c - lt_adjusted c) 0 + extra /\
    seconds (chunk_audio c)
    == seconds out + Qmax (lo_total c - lt_adjusted c) 0 + extra.
Proof.
  intros Hs Hr. cbv zeta.
  pose proof (split_silence_rest_nonneg (Qmax (r_start r' - r_end r) 0)) as Hnn.
  pose proof (Q.le_max_r (r_end r - r_start r + p - len out / 1000) 0) as Hm.
  assert (Hsil : forall x : Q, 0 <= x -> silence_ms (silent x) == x).
  { intros x Hx. unfold silent. cbn [silence_ms].
    pose proof (Q.max_l x 0 Hx). lra. }
  exists (fst (split_silence (Qmax (r_start r' - r_end r) 0))),
         (snd (split_silence (Qmax (r_start r' - r_end r) 0))).
  eexists. split; [apply (process_next i r r' p raw out Hs Hr) | ].
  cbn [trailing lo_total lt_adjusted clip].
  split; [reflexivity | ].
  split; [intros Hg; now rewrite (split_silence_capped _ Hg) | ].
  split; [intros Hg; now rewrite (split_silence_small _ Hg) | ].
  split; [exact Hnn | ].
  split; [reflexivity | ]. split; [reflexivity | ]. split; [reflexivity | ].
  split; [apply Hsil; lra | ].
  split; [reflexivity | ].
  split; [apply seconds_silent; lra | ].
  unfold chunk_audio. cbn [clip trailing].
  rewrite seconds_app, seconds_silent by lra. lra.
Qed.

(** C5.  In the stretch regime the clip is handed to the tempo tool with
    speed [1/targetRatio], [targetRatio = (slot + pendingSilence) /
    clipDuration]; when the tool fails the iteration still completes, with
    [slot + pendingSilence] seconds of silence and no speech as its clip. *)
Theorem C5_stretch_or_silence (i : nat) (r : SentenceRecord)
    (next : option SentenceRecord) (p : Q) (raw : Z) :
  synthesized i r = Some raw ->
  0 <= p ->
  0.44 < slot r / seconds (trimmed raw) ->
  slot r / seconds (trimmed raw) < 1 ->
  let targetRatio := (slot r + p) / seconds (trimmed raw) in
  exists (p' : Q) (c : Chunk),
    process i r next p = Ok (p', Some c) /\
    clip c = match ffmpeg_atempo (trimmed raw) (1 / targetRatio) with
             | Some out => out
             | None => silent ((slot r + p) * 1000)
             end /\
    (ffmpeg_atempo (trimmed raw) (1 / targetRatio) = None ->
       seconds (clip c) == slot r + p /\ speech_ms (clip c) == 0).
Proof.
  intros Hs Hp Hlo Hhi targetRatio.
  assert (Hlt : 0 < seconds (trimmed raw)) by (apply (clip_positive raw (slot r)); lra).
  assert (Hpos : 0.44 * seconds (trimmed raw) < slot r) by now apply div_gt_iff.
  assert (Hz : ~ len (trimmed raw) == 0).
  { intros E. unfold seconds in Hlt. rewrite ms_seconds in Hlt. lra. }
  assert (Hratio : ~ (slot r + p) / seconds (trimmed raw) == 0).
  { assert (0 < (slot r + p) / seconds (trimmed raw)); [ | lra].
    apply div_gt_iff; [exact Hlt | lra]. }
  assert (Hreg : select_regime (slot r / seconds (trimmed raw)) = Stretch)
    by (apply select_regime_stretch; split; assumption).
  pose proof (reconcile_stretch (trimmed raw) (slot r) p Hz Hreg Hratio) as Hrec.
  destruct (process_wrote i r next p raw _ Hs Hrec) as (p' & c & Hproc & Hclip & _).
  exists p', c. split; [exact Hproc | ]. split; [exact Hclip | ].
  intros Hfail. rewrite Hclip. subst targetRatio. unfold seconds in Hfail.
  rewrite Hfail.
  split; [ | cbn; lra].
  unfold seconds. rewrite len_silent_nonneg; [field | nra].
Qed.

(** ** Accounting over a completed run *)

Local Abbreviation Trace := (Trace synthesize_speech ffmpeg_atempo).
Local Abbreviation kept_gaps := (kept_gaps synthesize_speech).
Local Abbreviation omitted_time := (omitted_time synthesize_speech).
Local Abbreviation last_written := (last_written synthesize_speech).
Local Abbreviation unused_credit := (unused_credit synthesize_speech).

Lemma loop_trace (records : list SentenceRecord) :
  forall (i : nat) (p p' : Q) (cs cs' : list Chunk),
    loop i records p cs = Ok (p', cs') ->
    exists new : list Chunk, cs' = cs ++ new /\ Trace i records p p' new.
Proof.
  induction records as [ | r rest IH]; intros i p p' cs cs' H; cbn [Reconciler.loop] in H.
  - inversion H; subst. exists []. split; [now rewrite app_nil_r | constructor].
  - destruct (process i r (hd_error rest) p) as [[q c] | e] eqn:E; [ | discriminate].
    cbn in H. apply process_inv in E. destruct c as [c | ].
    + apply IH in H. destruct H as (new & -> & Ht).
      exists (c :: new). split; [now rewrite <- app_assoc | ].
      now apply TraceChunk with (q := q).
    + assert (q = p) by (inversion E; reflexivity). subst q.
      apply IH in H. destruct H as (new & -> & Ht).
      exists new. split; [reflexivity | ]. now apply TraceSkip.
Qed.

Lemma shortfall_overrun (c : Chunk) :
  lt_adjusted c + shortfall c == lo_total c + overrun c.
Proof.
  unfold shortfall, overrun.
  max_cases (lo_total c - lt_adjusted c) 0; max_cases (lt_adjusted c - lo_total c) 0; lra.
Qed.

(** What a written chunk holds, in the terms of the original timeline. *)
Lemma processed_account (i : nat) (r : SentenceRecord) (rest : list SentenceRecord)
    (p q : Q) (c : Chunk) :
  Processed i r (hd_error rest) p q (Some c) ->
  synthesized i r <> None /\
  index c = i /\
  pending c = p /\
  lo_total c = r_end r - r_start r + p /\
  seconds (clip c) = lt_adjusted c /\
  seconds (trailing c) + match rest with [] => 0 | _ :: _ => q end
    == shortfall c + gap_after r rest /\
  (rest = [] -> q = p).
Proof.
  intros H. inversion H as [ | raw out Hn Hs Hr | raw out r' Hn Hs Hr]; subst; cbn.
  - destruct rest; [ | discriminate]. cbn.
    split; [congruence | ]. repeat (split; [reflexivity | ]).
    split; [ | reflexivity].
    rewrite seconds_silent; [unfold shortfall; cbn; lra | apply Q.le_max_r].
  - destruct rest as [ | r'' rest]; [discriminate | ]. cbn in Hn.
    inversion Hn; subst r''. cbn [gap_after].
    split; [congruence | ]. repeat (split; [reflexivity | ]).
    split; [ | discriminate].
    pose proof (split_silence_sum (Qmax (r_start r' - r_end r) 0)) as Hsum.
    pose proof (split_silence_rest_nonneg (Qmax (r_start r' - r_end r) 0)) as Hnn.
    rewrite seconds_silent.
    + unfold shortfall; cbn. lra.
    + pose proof (Q.le_max_r (r_end r - r_start r + p - len out / 1000) 0). lra.
Qed.

Lemma last_written_skip (i : nat) (r : SentenceRecord) (rest : list SentenceRecord) :
  synthesized i r = None -> last_written i (r :: rest) = last_written (S i) rest.
Proof.
  intros H. cbn [Reconciler.last_written]. rewrite H. now destruct rest.
Qed.

Lemma last_written_chunk (i : nat) (r r' : SentenceRecord) (rest : list SentenceRecord) :
  last_written i (r :: r' :: rest) = last_written (S i) (r' :: rest).
Proof. reflexivity. Qed.

Lemma processed_skip_inv (i : nat) (r : SentenceRecord) (next : option SentenceRecord)
    (p q : Q) :
  Processed i r next p q None -> synthesized i r = None.
Proof. intros H. now inversion H. Qed.

(** Silence: what was emitted after the clips and what was borrowed add up
    to the credit on entry, the gaps after synthesized sentences and the
    shortfall corrections. *)
Lemma trace_silence (i : nat) (records : list SentenceRecord) (p p' : Q)
    (new : list Chunk) :
  Trace i records p p' new ->
  Qsum (map (fun c => seconds (trailing c)) new) + Qsum (map pending new)
    + (if last_written i records then 0 else p')
  == p + kept_gaps i records + Qsum (map shortfall new).
Proof.
  intros H. induction H as [i p | i r rest p p' cs Hp Ht IH | i r rest p q p' c cs Hp Ht IH].
  - cbn. lra.
  - apply processed_skip_inv in Hp.
    rewrite (last_written_skip i r rest Hp). cbn [Reconciler.kept_gaps]. rewrite Hp. lra.
  - apply processed_account in Hp.
    destruct Hp as (Hs & _ & Hpend & _ & _ & Htr & Hlast).
    cbn [Reconciler.kept_gaps map Qsum]. rewrite Hpend.
    destruct (synthesized i r) as [raw | ] eqn:Es; [ | congruence].
    destruct rest as [ | r' rest].
    + specialize (Hlast eq_refl). subst q. inversion Ht; subst.
      cbn [Reconciler.last_written]. rewrite Es. cbn in *. lra.
    + rewrite last_written_chunk. lra.
Qed.

(** Duration: on an ordered timeline the chunks last as long as the slots
    and gaps of the synthesized sentences, plus the credit on entry and what
    the clips exceed their budget by. *)
Lemma trace_duration (i : nat) (records : list SentenceRecord) (p p' : Q)
    (new : list Chunk) :
  Trace i records p p' new ->
  ordered records ->
  Qsum (map (fun c => seconds (chunk_audio c)) new)
    + (if last_written i records then 0 else p') + omitted_time i records
  == p + span_time records + Qsum (map overrun new).
Proof.
  intros H. induction H as [i p | i r rest p p' cs Hp Ht IH | i r rest p q p' c cs Hp Ht IH];
    intros Ho.
  - cbn. lra.
  - apply processed_skip_inv in Hp. destruct Ho as (_ & _ & Ho).
    specialize (IH Ho).
    rewrite (last_written_skip i r rest Hp).
    cbn [Reconciler.omitted_time span_time]. rewrite Hp.
    unfold gap_after. destruct rest; lra.
  - apply processed_account in Hp.
    destruct Hp as (Hs & _ & Hpend & Hlo & Hclip & Htr & Hlast).
    destruct Ho as (Hr & _ & Ho). specialize (IH Ho).
    pose proof (shortfall_overrun c) as Hso. rewrite Hlo in Hso.
    assert (Hslot : slot r == r_end r - r_start r) by (apply Q.max_l; lra).
    cbn [Reconciler.omitted_time span_time map Qsum].
    unfold chunk_audio at 1. rewrite seconds_app, Hclip.
    destruct (synthesized i r) as [raw | ] eqn:Es; [ | congruence].
    destruct rest as [ | r' rest].
    + specialize (Hlast eq_refl). subst q. inversion Ht; subst.
      cbn [Reconciler.last_written]. rewrite Es. cbn in *. lra.
    + rewrite last_written_chunk. cbn [gap_after] in Htr. lra.
Qed.

Lemma trace_indices (i : nat) (records : list SentenceRecord) (p p' : Q)
    (new : list Chunk) :
  Trace i records p p' new ->
  forall c : Chunk, In c new ->
    exists (k : nat) (r : SentenceRecord),
      nth_error records k = Some r /\ index c = (i + k)%nat /\
      synthesized (i + k) r <> None.
Proof.
  intros H. induction H as [i p | i r rest p p' cs Hp Ht IH | i r rest p q p' c cs Hp Ht IH];
    intros x Hx.
  - destruct Hx.
  - destruct (IH x Hx) as (k & r0 & Hn & Hi & Hs).
    exists (S k), r0. rewrite Nat.add_succ_r. now repeat split.
  - destruct Hx as [<- | Hx].
    + apply processed_account in Hp. destruct Hp as (Hs & Hi & _).
      exists 0%nat, r. rewrite Nat.add_0_r. now repeat split.
    + destruct (IH x Hx) as (k & r0 & Hn & Hi & Hs).
      exists (S k), r0. rewrite Nat.add_succ_r. now repeat split.
Qed.

Lemma ordered_span (rest : list SentenceRecord) :
  forall r0 d : SentenceRecord,
    ordered (r0 :: rest) ->
    r_start r0 + span_time (r0 :: rest) == r_end (last (r0 :: rest) d).
Proof.
  induction rest as [ | r1 rest IH]; intros r0 d (H0 & H1 & Ho).
  - cbn. assert (Hslot : slot r0 == r_end r0 - r_start r0) by (apply Q.max_l; lra). lra.
  - specialize (IH r1 d Ho).
    assert (Hslot : slot r0 == r_end r0 - r_start r0) by (apply Q.max_l; lra).
    assert (Hgap : Qmax (r_start r1 - r_end r0) 0 == r_start r1 - r_end r0)
      by (apply Q.max_l; lra).
    change (last (r0 :: r1 :: rest) d) with (last (r1 :: rest) d).
    cbn [span_time] in *. lra.
Qed.

Lemma omitted_time_nonneg (records : list SentenceRecord) :
  forall i : nat, 0 <= omitted_time i records.
Proof.
  induction records as [ | r rest IH]; intros i; cbn [Reconciler.omitted_time].
  - lra.
  - specialize (IH (S i)).
    assert (0 <= slot r) by apply Q.le_max_r.
    assert (0 <= gap_after r rest) by (destruct rest; cbn; [lra | apply Q.le_max_r]).
    destruct (synthesized i r); lra.
Qed.

Lemma omitted_time_holds (pre post : list SentenceRecord) (r : SentenceRecord) :
  forall i : nat,
    synthesized (i + List.length pre) r = None ->
    slot r + gap_after r post <= omitted_time i (pre ++ r :: post).
Proof.
  induction pre as [ | a pre IH]; intros i H.
  - cbn [app List.length Reconciler.omitted_time] in *. rewrite Nat.add_0_r in H. rewrite H.
    pose proof (omitted_time_nonneg post (S i)). lra.
  - cbn [app List.length Reconciler.omitted_time] in *.
    rewrite Nat.add_succ_r in H. specialize (IH (S i) H).
    assert (0 <= slot a) by apply Q.le_max_r.
    assert (0 <= gap_after a (pre ++ r :: post))
      by (destruct (pre ++ r :: post); cbn; [lra | apply Q.le_max_r]).
    destruct (synthesized i a); lra.
Qed.

Lemma kept_gaps_all (records : list SentenceRecord) :
  forall i : nat,
    (forall (k : nat) (r : SentenceRecord),
        nth_error records k = Some r -> synthesized (i + k) r <> None) ->
    kept_gaps i records == Qsum (gaps records) /\
    (records <> [] -> last_written i records = true).
Proof.
  induction records as [ | r rest IH]; intros i H.
  - split; [reflexivity | congruence].
  - assert (Hr : synthesized i r <> None).
    { specialize (H 0%nat r eq_refl). now rewrite Nat.add_0_r in H. }
    assert (Hrest : forall k r0, nth_error rest k = Some r0 ->
                                 synthesized (S i + k) r0 <> None).
    { intros k r0 Hk. specialize (H (S k) r0 Hk). now rewrite Nat.add_succ_r in H. }
    destruct (IH (S i) Hrest) as [IHg IHl].
    cbn [Reconciler.kept_gaps]. destruct (synthesized i r) as [raw | ] eqn:Es; [ | congruence].
    destruct rest as [ | r' rest].
    + split; [cbn; lra | intros _; cbn; now rewrite Es].
    + split.
      * cbn [gap_after gaps Qsum]. rewrite IHg. reflexivity.
      * intros _. rewrite last_written_chunk. apply IHl. discriminate.
Qed.

Lemma concat_seconds (cs : list Chunk) :
  seconds (List.concat (map chunk_audio cs))
  == Qsum (map (fun c => seconds (chunk_audio c)) cs).
Proof.
  induction cs as [ | c cs IH]; cbn [map List.concat Qsum].
  - reflexivity.
  - rewrite seconds_app, IH. reflexivity.
Qed.

(** What [dub] returns, read back from its result. *)

(** ** The assembler

    The chunk files are named by sentence index, so that listing them in any
    order, keeping the audio files and sorting them by the number in their
    name gives them back in the order they were written. *)

Lemma trace_written (i : nat) (records : list SentenceRecord) (p p' : Q)
    (new : list Chunk) :
  Trace i records p p' new ->
  map index new = written_indices synthesize_speech i records.
Proof.
  intros H. induction H as [i p | i r rest p p' cs Hp Ht IH | i r rest p q p' c cs Hp Ht IH];
    cbn [written_indices map].
  - reflexivity.
  - apply processed_skip_inv in Hp. now rewrite Hp.
  - apply processed_account in Hp. destruct Hp as (Hs & Hi & _).
    destruct (synthesized i r) eqn:E; [ | congruence].
    now rewrite Hi, IH.
Qed.

Lemma written_indices_bounds (records : list SentenceRecord) :
  forall i : nat,
    Forall (fun k => (i <= k < i + List.length records)%nat)
      (written_indices synthesize_speech i records).
Proof.
  induction records as [ | r rest IH]; intros i; cbn [written_indices List.length].
  - constructor.
  - assert (Hrest : Forall (fun k => (i <= k < i + S (List.length rest))%nat)
                      (written_indices synthesize_speech (S i) rest)).
    { eapply Forall_impl; [ | apply (IH (S i))]. cbn. intros k Hk. lia. }
    destruct (synthesized i r); [constructor; [lia | exact Hrest] | exact Hrest].
Qed.

Lemma written_indices_sorted (records : list SentenceRecord) :
  forall i : nat, StronglySorted Nat.lt (written_indices synthesize_speech i records).
Proof.
  induction records as [ | r rest IH]; intros i; cbn [written_indices].
  - constructor.
  - destruct (synthesized i r); [ | apply IH].
    constructor; [apply IH | ].
    eapply Forall_impl; [ | apply (written_indices_bounds rest (S i))].
    cbn. intros k Hk. unfold Nat.lt. lia.
Qed.

Lemma int_digits_uint (d : Decimal.uint) :
  forall acc : nat,
    int_digits (DecimalString.NilEmpty.string_of_uint d) acc = Ok (Nat.of_uint_acc d acc).
Proof.
  induction d; intros acc; cbn [DecimalString.NilEmpty.string_of_uint int_digits Nat.of_uint_acc];
    try reflexivity;
    (match goal with
     | |- context [digit ?c] =>
         let v := eval vm_compute in (digit c) in change (digit c) with v
     end);
    cbv iota; rewrite IHd, Nat.tail_mul_spec; do 2 f_equal; lia.
Qed.

(** [int(str(n)) == n]. *)
Lemma int_of_str (n : nat) : int_of_string (str n) = Ok n.
Proof.
  unfold int_of_string, str.
  destruct (DecimalString.NilEmpty.string_of_uint (Nat.to_uint n)) eqn:E.
  - exfalso. destruct (Nat.to_uint n) eqn:En; try discriminate.
    pose proof (DecimalNat.Unsigned.of_to n) as H. rewrite En in H. cbn in H. subst n.
    discriminate.
  - rewrite <- E. rewrite int_digits_uint.
    change (Nat.of_uint_acc (Nat.to_uint n) 0) with (Nat.of_uint (Nat.to_uint n)).
    now rewrite DecimalNat.Unsigned.of_to.
Qed.

Lemma before_dot_uint (d : Decimal.uint) (s : string) :
  before_dot (DecimalString.NilEmpty.string_of_uint d ++ s)
  = (DecimalString.NilEmpty.string_of_uint d ++ before_dot s)%string.
Proof.
  induction d; cbn [DecimalString.NilEmpty.string_of_uint String.append before_dot];
    try reflexivity; cbn [Ascii.eqb Bool.eqb]; now rewrite IHd.
Qed.

Lemma append_nothing (s : string) : (s ++ "")%string = s.
Proof. induction s as [ | c s IH]; cbn; [reflexivity | now rewrite IH]. Qed.

Lemma file_name_key (i : nat) : int_of_string (before_dot (file_name i)) = Ok i.
Proof.
  unfold file_name, str. rewrite before_dot_uint. cbn [before_dot Ascii.eqb Bool.eqb].
  rewrite append_nothing. apply int_of_str.
Qed.

Lemma file_name_inj (i j : nat) : file_name i = file_name j -> i = j.
Proof.
  intros H. pose proof (file_name_key i) as Hi. rewrite H, file_name_key in Hi.
  now inversion Hi.
Qed.

Lemma endswith_append (a suffix : string) : endswith (a ++ suffix) suffix = true.
Proof.
  induction a as [ | c a IH]; cbn [String.append endswith].
  - destruct suffix; cbn; [reflexivity | ].
    rewrite Ascii.eqb_refl, String.eqb_refl. reflexivity.
  - rewrite IH. apply orb_true_r.
Qed.

Lemma file_name_is_audio (i : nat) : is_audio (file_name i) = true.
Proof.
  unfold is_audio, file_name. rewrite endswith_append. now rewrite orb_true_r.
Qed.

Lemma dict_set_fresh {V : Type} (d : list (string * V)) (k : string) (v : V) :
  ~ In k (map fst d) -> dict_set String.eqb d k v = d ++ [(k, v)].
Proof.
  induction d as [ | [k' v'] d IH]; cbn [dict_set map fst In app]; intros H.
  - reflexivity.
  - destruct (String.eqb_spec k' k) as [-> | Hk]; [tauto | ].
    rewrite IH by tauto. reflexivity.
Qed.

Lemma written_files (written : list Chunk) :
  NoDup (map index written) ->
  su_audio_chunks written = map (fun c => (file_name (index c), c)) written.
Proof.
  unfold su_audio_chunks.
  set (entry := fun c : Chunk => (file_name (index c), c)).
  assert (G : forall acc : list Chunk,
             NoDup (map index (acc ++ written)) ->
             fold_left (fun d c => dict_set String.eqb d (file_name (index c)) c)
               written (map entry acc) = map entry (acc ++ written)).
  { induction written as [ | c rest IH]; intros acc H; cbn [fold_left].
    - now rewrite app_nil_r.
    - rewrite dict_set_fresh.
      + change (map entry acc ++ [(file_name (index c), c)])
          with (map entry acc ++ map entry [c]).
        rewrite <- map_app. rewrite IH; rewrite <- app_assoc; [reflexivity | exact H].
      + rewrite map_map. cbn [entry fst]. intros Hin.
        apply in_map_iff in Hin. destruct Hin as (x & Hx & Hxin).
        apply file_name_inj in Hx.
        rewrite map_app in H. cbn [map] in H.
        apply NoDup_remove_2 in H. apply H.
        apply in_or_app. left. rewrite <- Hx. now apply in_map. }
  intros H. apply (G [] H).
Qed.

Lemma with_keys_names (l : list nat) :
  with_keys (map file_name l) = Ok (map (fun i => (i, file_name i)) l).
Proof.
  induction l as [ | i l IH]; cbn [map with_keys]; [reflexivity | ].
  rewrite file_name_key. cbn [Py.bind]. rewrite IH. reflexivity.
Qed.

Lemma insert_permutation {A : Type} (x : nat * A) (l : list (nat * A)) :
  Permutation (insert_by_key x l) (x :: l).
Proof.
  induction l as [ | y l IH]; cbn [insert_by_key]; [reflexivity | ].
  destruct (fst x <=? fst y)%nat; [reflexivity | ].
  rewrite IH. apply perm_swap.
Qed.

Lemma sort_permutation {A : Type} (l : list (nat * A)) :
  Permutation (sort_by_key l) l.
Proof.
  induction l as [ | x l IH]; cbn [sort_by_key fold_right]; [reflexivity | ].
  rewrite insert_permutation. now constructor.
Qed.

Lemma insert_sorted {A : Type} (x : nat * A) (l : list (nat * A)) :
  StronglySorted (fun a b => (fst a <= fst b)%nat) l ->
  StronglySorted (fun a b => (fst a <= fst b)%nat) (insert_by_key x l).
Proof.
  induction l as [ | y l IH]; cbn [insert_by_key]; intros H.
  - repeat constructor.
  - inversion H as [ | ? ? Hl Hy]; subst.
    destruct (fst x <=? fst y)%nat eqn:E.
    + apply Nat.leb_le in E. constructor; [exact H | ].
      constructor; [exact E | ].
      eapply Forall_impl; [ | exact Hy]. cbn. intros; lia.
    + apply Nat.leb_gt in E. constructor; [now apply IH | ].
      eapply Permutation_Forall; [symmetry; apply insert_permutation | ].
      constructor; [lia | exact Hy].
Qed.

Lemma sort_sorted {A : Type} (l : list (nat * A)) :
  StronglySorted (fun a b => (fst a <= fst b)%nat) (sort_by_key l).
Proof.
  induction l as [ | x l IH]; cbn [sort_by_key fold_right]; [constructor | ].
  now apply insert_sorted.
Qed.

(** A list whose keys increase strictly is the only sorted arrangement of
    its elements. *)
Lemma sorted_unique {A : Type} (q : list (nat * A)) :
  StronglySorted (fun a b => (fst a < fst b)%nat) q ->
  forall r : list (nat * A),
    Permutation r q -> StronglySorted (fun a b => (fst a <= fst b)%nat) r -> r = q.
Proof.
  induction q as [ | y q IH]; intros Hq r Hp Hr.
  - apply Permutation_sym, Permutation_nil in Hp. exact Hp.
  - destruct r as [ | x r]; [apply Permutation_nil in Hp; discriminate | ].
    inversion Hq as [ | ? ? Hq' Hy]; subst.
    inversion Hr as [ | ? ? Hr' Hx]; subst.
    assert (x = y) as ->.
    { assert (Hxin : In x (y :: q)) by (eapply Permutation_in; [exact Hp | now left]).
      assert (Hyin : In y (x :: r))
        by (eapply Permutation_in; [symmetry; exact Hp | now left]).
      destruct Hxin as [E | Hxq]; [now symmetry | ].
      destruct Hyin as [E | Hyr]; [exact E | ].
      rewrite Forall_forall in Hy, Hx.
      specialize (Hy x Hxq). specialize (Hx y Hyr). cbn in Hy, Hx. lia. }
    f_equal. apply IH; [exact Hq' | | exact Hr'].
    now apply Permutation_cons_inv in Hp.
Qed.

Lemma from_file_written (cs : list Chunk) (c : Chunk) :
  NoDup (map index cs) -> In c cs ->
  from_file (map (fun c => (file_name (index c), c)) cs) (file_name (index c)) = Ok c.
Proof.
  induction cs as [ | x cs IH]; cbn [map from_file]; intros Hnd Hin; [destruct Hin | ].
  inversion Hnd as [ | ? ? Hx Hnd']; subst.
  destruct Hin as [-> | Hin].
  - now rewrite String.eqb_refl.
  - destruct (String.eqb_spec (file_name (index x)) (file_name (index c))) as [E | E].
    + apply file_name_inj in E. exfalso. apply Hx. rewrite E. now apply in_map.
    + now apply IH.
Qed.

Lemma read_all_written (cs l : list Chunk) :
  NoDup (map index cs) -> incl l cs ->
  read_all (map (fun c => (file_name (index c), c)) cs)
    (map (fun c => file_name (index c)) l) = Ok l.
Proof.
  intros Hnd. induction l as [ | c l IH]; intros Hl; cbn [map read_all]; [reflexivity | ].
  rewrite from_file_written; [ | exact Hnd | apply Hl; now left].
  cbn [Py.bind]. rewrite IH; [reflexivity | ].
  intros x Hx. apply Hl. now right.
Qed.

Lemma increasing_nodup (l : list nat) : StronglySorted Nat.lt l -> NoDup l.
Proof.
  induction 1 as [ | x l Hl IH Hx]; constructor; [ | exact IH].
  intros Hin. rewrite Forall_forall in Hx. specialize (Hx x Hin).
  unfold Nat.lt in Hx. lia.
Qed.

(** Whatever order the directory is listed in, the assembler reads the
    chunks back in the order of their sentences. *)
Lemma assemble_written (written : list Chunk) :
  StronglySorted Nat.lt (map index written) ->
  assemble (su_audio_chunks written) = Ok written.
Proof.
  intros Hs. pose proof (increasing_nodup _ Hs) as Hnd.
  unfold Reconciler.assemble. rewrite (written_files _ Hnd).
  rewrite map_map. cbn [fst].
  pose proof (listdir_permutation listing
                (map (fun c => file_name (index c)) written)) as Hp.
  rewrite <- (map_map index file_name) in Hp.
  rewrite <- (map_map index file_name).
  destruct (Permutation_map_inv _ _ Hp) as (l & Hl & Hpl).
  rewrite Hl.
  assert (Hf : filter is_audio (map file_name l) = map file_name l).
  { clear. induction l as [ | i l IH]; cbn [map filter]; [reflexivity | ].
    now rewrite file_name_is_audio, IH. }
  rewrite Hf, with_keys_names. cbn [Py.bind].
  assert (Hsort : sort_by_key (map (fun i => (i, file_name i)) l)
                  = map (fun i => (i, file_name i)) (map index written)).
  { apply sorted_unique.
    - clear - Hs. induction Hs as [ | x xs Hxs IH Hx]; cbn [map]; constructor.
      + exact IH.
      + rewrite Forall_map. eapply Forall_impl; [ | exact Hx].
        intros a Ha. exact Ha.
    - rewrite sort_permutation. apply Permutation_map. now symmetry.
    - apply sort_sorted. }
  rewrite Hsort, !map_map. cbn [snd].
  apply read_all_written; [exact Hnd | apply incl_refl].
Qed.

(** What a completed run is made of: the loop's result, joined by the
    assembler in the order the loop wrote it. *)
Lemma dub_loop (records : list SentenceRecord) (total_length : Q) (t : Track) :
  dub records total_length = Ok t ->
  exists (r0 : SentenceRecord) (rest : list SentenceRecord),
    records = r0 :: rest /\
    loop 0 records (fst (split_silence (r_start r0))) []
      = Ok (final_pending t, chunks t) /\
    prefix t = silent (snd (split_silence (r_start r0)) * 1000) /\
    final_pad t = silent (Qabs (total_length - r_end (last records r0)) * 1000).
Proof.
  intros H. unfold Reconciler.dub in H.
  destruct records as [ | r0 rest]; [discriminate | ].
  exists r0, rest. split; [reflexivity | ].
  destruct (split_silence (r_start r0)) as [p0 ns] eqn:Es. cbn [fst snd].
  destruct (loop 0 (r0 :: rest) p0 []) as [[q cs] | e] eqn:El; [ | discriminate].
  cbn [Py.bind] in H.
  pose proof El as Ht. apply loop_trace in Ht.
  destruct Ht as (new & Hcs & Ht). cbn in Hcs. subst new.
  rewrite assemble_written in H
    by (rewrite (trace_written _ _ _ _ _ Ht); apply written_indices_sorted).
  cbn [Py.bind] in H. inversion H; subst t. cbn. now repeat split.
Qed.

Lemma loop_dub (r0 : SentenceRecord) (rest : list SentenceRecord)
    (total_length q : Q) (cs : list Chunk) :
  loop 0 (r0 :: rest) (fst (split_silence (r_start r0))) [] = Ok (q, cs) ->
  dub (r0 :: rest) total_length
  = Ok (mkTrack (silent (snd (split_silence (r_start r0)) * 1000)) cs
          (silent (Qabs (total_length - r_end (last (r0 :: rest) r0)) * 1000)) q).
Proof.
  intros El. unfold Reconciler.dub.
  destruct (split_silence (r_start r0)) as [p0 ns] eqn:Es. cbn [fst snd] in *.
  rewrite El. cbn [Py.bind].
  pose proof El as Ht. apply loop_trace in Ht.
  destruct Ht as (new & Hcs & Ht). cbn in Hcs. subst new.
  rewrite assemble_written
    by (rewrite (trace_written _ _ _ _ _ Ht); apply written_indices_sorted).
  reflexivity.
Qed.

Lemma dub_inv (records : list SentenceRecord) (total_length : Q) (t : Track) :
  dub records total_length = Ok t ->
  exists (r0 : SentenceRecord) (rest : list SentenceRecord),
    records = r0 :: rest /\
    seconds (prefix t) + fst (split_silence (r_start r0)) == r_start r0 /\
    Trace 0 records (fst (split_silence (r_start r0))) (final_pending t) (chunks t) /\
    seconds (final_pad t) == Qabs (total_length - r_end (last records r0)).
Proof.
  intros H. apply dub_loop in H. destruct H as (r0 & rest & Hrec & El & Hpre & Hpad).
  exists r0, rest. split; [exact Hrec | ].
  pose proof (split_silence_sum (r_start r0)) as Hsum.
  pose proof (split_silence_rest_nonneg (r_start r0)) as Hnn.
  apply loop_trace in El. destruct El as (new & Hcs & Ht). cbn in Hcs. subst new.
  rewrite Hpre, Hpad.
  split; [rewrite seconds_silent by exact Hnn; lra | ].
  split; [exact Ht | ].
  apply seconds_silent, Qabs_nonneg.
Qed.

(** C3.  Starting from a non-negative leading gap, [previous_silence_time]
    lies in [[0, 0.8]] after its initialisation and after every iteration of
    the loop, whatever the collaborators return; so do the value each chunk
    was reconciled with and the value left when the run completes. *)
Theorem C3_pending_silence_within_budget (r0 : SentenceRecord)
    (rest : list SentenceRecord) (total_length : Q) :
  0 <= r_start r0 ->
  in_budget (fst (split_silence (r_start r0))) /\
  Forall in_budget
    (pending_history 0 (r0 :: rest) (fst (split_silence (r_start r0)))) /\
  (forall t : Track, dub (r0 :: rest) total_length = Ok t ->
     in_budget (final_pending t) /\
     Forall (fun c => in_budget (pending c)) (chunks t)).
Proof.
  intros H0.
  assert (Hb : in_budget (fst (split_silence (r_start r0))))
    by now apply split_silence_budget.
  split; [exact Hb | ].
  split; [now apply pending_history_budget | ].
  intros t Ht. apply dub_loop in Ht.
  destruct Ht as (r1 & rest1 & Hrec & El & _). inversion Hrec; subst r1 rest1.
  eapply loop_budget; [exact El | exact Hb | constructor].
Qed.


Lemma last_nonempty (r0 : SentenceRecord) (rest : list SentenceRecord) :
  forall d d' : SentenceRecord, last (r0 :: rest) d = last (r0 :: rest) d'.
Proof.
  revert r0. induction rest as [ | r1 rest IH]; intros r0 d d'.
  - reflexivity.
  - change (last (r1 :: rest) d = last (r1 :: rest) d'). apply IH.
Qed.

(** C2, as the code has it.  In a completed run the silence emitted after
    the clips (the leading prefix and every trailing silence) and the credit
    borrowed by the chunks, with the credit left over when the last sentence
    was not synthesized, add up to the leading gap, the gaps that follow
    synthesized sentences and the shortfall corrections
    [max(totalSlot - adjustedDuration, 0)]; the final pad is
    [abs(total_length - lastEnd)].  When every sentence is synthesized the
    gaps counted are all the gaps between sentences. *)
Theorem C2_silence_is_redistributed (records : list SentenceRecord)
    (total_length : Q) (t : Track) :
  dub records total_length = Ok t ->
  seconds (prefix t) + Qsum (map (fun c => seconds (trailing c)) (chunks t))
    + Qsum (map pending (chunks t)) + unused_credit records (final_pending t)
  == leading_gap records + kept_gaps 0 records + Qsum (map shortfall (chunks t)) /\
  (forall d : SentenceRecord,
     seconds (final_pad t) == Qabs (total_length - r_end (last records d))) /\
  ((forall (k : nat) (r : SentenceRecord),
       nth_error records k = Some r -> synthesized k r <> None) ->
   seconds (prefix t) + Qsum (map (fun c => seconds (trailing c)) (chunks t))
     + Qsum (map pending (chunks t))
   == leading_gap records + Qsum (gaps records) + Qsum (map shortfall (chunks t))).
Proof.
  intros H. apply dub_inv in H.
  destruct H as (r0 & rest & -> & Hpre & Ht & Hpad).
  pose proof (trace_silence _ _ _ _ _ Ht) as Hs.
  assert (Hfirst : seconds (prefix t)
                   + Qsum (map (fun c => seconds (trailing c)) (chunks t))
                   + Qsum (map pending (chunks t))
                   + unused_credit (r0 :: rest) (final_pending t)
                   == leading_gap (r0 :: rest) + kept_gaps 0 (r0 :: rest)
                      + Qsum (map shortfall (chunks t))).
  { unfold Reconciler.unused_credit, leading_gap.
    destruct (last_written 0 (r0 :: rest)); lra. }
  split; [exact Hfirst | ].
  split; [intros d; now rewrite (last_nonempty r0 rest d r0) | ].
  intros Hall.
  destruct (kept_gaps_all (r0 :: rest) 0 Hall) as [Hg Hl].
  unfold Reconciler.unused_credit in Hfirst.
  rewrite (Hl ltac:(discriminate)) in Hfirst. rewrite <- Hg. lra.
Qed.

(** C9.  When synthesis fails for the sentence that follows [pre], the
    iteration returns the credit it received and writes no chunk, so the loop
    goes on from the next sentence with that credit; no chunk of the track
    bears its index, and on an ordered timeline the track is shorter than the
    timeline by the slot and the following gap of every sentence that was not
    synthesized, this one included (the clips' overruns and the credit left
    unused apart). *)
Theorem C9_failed_synthesis_skips_sentence (pre post : list SentenceRecord)
    (r : SentenceRecord) :
  synthesized (List.length pre) r = None ->
  (forall p : Q, process (List.length pre) r (hd_error post) p = Ok (p, None)) /\
  (forall (p : Q) (cs : list Chunk),
     loop (List.length pre) (r :: post) p cs = loop (S (List.length pre)) post p cs) /\
  (forall (total_length : Q) (t : Track),
     dub (pre ++ r :: post) total_length = Ok t ->
     (forall c : Chunk, In c (chunks t) -> index c <> List.length pre) /\
     (ordered (pre ++ r :: post) ->
      slot r + gap_after r post <= omitted_time 0 (pre ++ r :: post) /\
      seconds (combined t) + unused_credit (pre ++ r :: post) (final_pending t)
        + omitted_time 0 (pre ++ r :: post)
      == r_end (last (pre ++ r :: post) r) + seconds (final_pad t)
         + Qsum (map overrun (chunks t)))).
Proof.
  intros Hfail.
  split; [intros p; now apply process_skip | ].
  split.
  { intros p cs. cbn [Reconciler.loop]. now rewrite (process_skip _ _ _ p Hfail). }
  intros total_length t H. apply dub_inv in H.
  destruct H as (r0 & rest & Hrec & Hpre & Ht & Hpad).
  split.
  - intros c Hc Hi.
    destruct (trace_indices _ _ _ _ _ Ht c Hc) as (k & r1 & Hn & Hk & Hs).
    cbn in Hk. rewrite Hi in Hk. subst k.
    rewrite nth_error_app2, Nat.sub_diag in Hn by lia. cbn in Hn.
    inversion Hn; subst r1. now apply Hs.
  - intros Ho. split; [now apply (omitted_time_holds pre post r 0%nat) | ].
    pose proof (trace_duration _ _ _ _ _ Ht Ho) as Hd.
    rewrite Hrec in Ho. pose proof (ordered_span rest r0 r Ho) as Hspan.
    rewrite <- Hrec in Hspan.
    unfold combined. rewrite !seconds_app, concat_seconds.
    unfold Reconciler.unused_credit.
    destruct (last_written 0 (pre ++ r :: post)); lra.
Qed.

(** C7.  In the pad regime ([theta >= 1]) the reconciled clip is
    [pendingSilence] seconds of silence followed by the trimmed clip itself:
    the tempo tool is not involved, the speech keeps its length, and the
    re-measured duration is [clipDuration + pendingSilence]. *)
Theorem C7_pad_prepends_pending_silence (i : nat) (r : SentenceRecord)
    (next : option SentenceRecord) (p : Q) (raw : Z) :
  synthesized i r = Some raw ->
  1 <= slot r / seconds (trimmed raw) ->
  exists (p' : Q) (c : Chunk),
    process i r next p = Ok (p', Some c) /\
    clip c = silent (p * 1000) ++ trimmed raw /\
    speech_ms (clip c) == len (trimmed raw) /\
    (0 <= p ->
       silence_ms (clip c) == p * 1000 /\
       seconds (clip c) == seconds (trimmed raw) + p /\
       lt_adjusted c == seconds (trimmed raw) + p).
Proof.
  intros Hs Hth.
  assert (Hlt : 0 < seconds (trimmed raw)) by (apply (clip_positive raw (slot r)); lra).
  assert (Hz : ~ len (trimmed raw) == 0).
  { intros E. unfold seconds in Hlt. rewrite ms_seconds in Hlt. lra. }
  assert (Hreg : select_regime (slot r / seconds (trimmed raw)) = Pad)
    by (apply select_regime_pad; now left).
  pose proof (reconcile_pad (trimmed raw) (slot r) p Hz Hreg) as Hrec.
  destruct (process_wrote i r next p raw _ Hs Hrec) as (p' & c & Hproc & Hclip & _ & Hadj).
  exists p', c. split; [exact Hproc | ]. split; [exact Hclip | ].
  rewrite Hadj, Hclip. split; [cbn; lra | ].
  intros Hp.
  assert (Hmax : Qmax (p * 1000) 0 == p * 1000) by (apply Q.max_l; lra).
  assert (Hsec : seconds (silent (p * 1000) ++ trimmed raw)
                 == seconds (trimmed raw) + p).
  { unfold seconds. rewrite len_app, len_silent, Hmax. field. }
  split; [cbn; rewrite Hmax; lra | ].
  split; exact Hsec.
Qed.

(** C10.  [theta = lo/lt] is computed with no test on [lt]: whenever the
    350 ms trim leaves nothing of the synthesized clip, the iteration ends in
    [ZeroDivisionError] without choosing a regime. *)
Theorem C10_trimmed_away_clip_divides_by_zero (i : nat) (r : SentenceRecord)
    (next : option SentenceRecord) (p : Q) (raw : Z) :
  synthesized i r = Some raw ->
  (0 <= raw <= 350)%Z ->
  slice_to raw (raw - tip) = 0%Z ->
  process i r next p = Raise ZeroDivisionError.
Proof.
  intros Hs _ Hcut. apply (process_raise i r next p raw _ Hs).
  apply reconcile_zero. rewrite len_trimmed, Hcut. reflexivity.
Qed.

(** ** Further properties of the loop *)

Lemma trimmed_zero_iff (raw : Z) :
  len (trimmed raw) == 0 <-> slice_to raw (raw - tip) = 0%Z.
Proof.
  rewrite len_trimmed. change 0 with (inject_Z 0). apply inject_Z_injective.
Qed.

Lemma trimmed_positive_iff (raw : Z) :
  0 < len (trimmed raw) <-> (0 < slice_to raw (raw - tip))%Z.
Proof.
  rewrite len_trimmed. change 0 with (inject_Z 0). now rewrite <- Zlt_Qlt.
Qed.

Lemma seconds_positive (a : AudioSegment) : 0 < len a <-> 0 < seconds a.
Proof.
  unfold seconds. rewrite ms_seconds. split; intros H; lra.
Qed.

(** The drop regime: below [theta = 0.44] the synthesized speech is replaced
    by [slot + pendingSilence] seconds of silence, whatever the tempo tool
    would do. *)
Theorem drop_regime_replaces_speech (i : nat) (r : SentenceRecord)
    (next : option SentenceRecord) (p : Q) (raw : Z) :
  synthesized i r = Some raw ->
  0 < seconds (trimmed raw) ->
  slot r / seconds (trimmed raw) < 0.44 ->
  exists (p' : Q) (c : Chunk),
    process i r next p = Ok (p', Some c) /\
    clip c = silent ((slot r + p) * 1000) /\
    speech_ms (clip c) == 0 /\
    (0 <= p -> seconds (clip c) == slot r + p /\ lt_adjusted c == slot r + p).
Proof.
  intros Hs Hlt Hth.
  assert (Hz : ~ len (trimmed raw) == 0).
  { intros E. apply seconds_positive in Hlt. lra. }
  assert (Hreg : select_regime (slot r / seconds (trimmed raw)) = Drop)
    by now apply select_regime_drop.
  pose proof (reconcile_drop (trimmed raw) (slot r) p Hz Hreg) as Hrec.
  destruct (process_wrote i r next p raw _ Hs Hrec) as (p' & c & Hproc & Hclip & _ & Hadj).
  exists p', c. split; [exact Hproc | ]. split; [exact Hclip | ].
  rewrite Hadj, Hclip. split; [cbn; lra | ].
  intros Hp. assert (Hslot : 0 <= slot r) by apply gap_nonneg.
  assert (Hsec : seconds (silent ((slot r + p) * 1000)) == slot r + p)
    by (apply seconds_silent; lra).
  split; exact Hsec.
Qed.

(** Every chunk lasts at least its budget [lo = slot + pendingSilence]: its
    duration is the larger of the reconciled clip and the budget, plus the
    part of the following gap that is not borrowed. *)
Theorem chunk_fills_its_budget (i : nat) (r : SentenceRecord)
    (next : option SentenceRecord) (p p' : Q) (c : Chunk) :
  process i r next p = Ok (p', Some c) ->
  lo_total c = r_end r - r_start r + p /\
  0 <= extra_silence r next p' /\
  seconds (chunk_audio c)
  == Qmax (lt_adjusted c) (lo_total c) + extra_silence r next p' /\
  lo_total c + extra_silence r next p' <= seconds (chunk_audio c).
Proof.
  intros H. apply process_inv in H.
  assert (Hmax : forall a b : Q, a + Qmax (b - a) 0 == Qmax a b).
  { intros a b. max_cases (b - a) 0; max_cases a b; lra. }
  remember (Some c) as oc eqn:Hoc.
  destruct H as [Hs | raw out Hn Hs Hr | raw out r' Hn Hs Hr];
    [discriminate | | ]; inversion Hoc; subst c next; cbn [lo_total lt_adjusted].
  - split; [reflexivity | ]. cbn [extra_silence].
    unfold chunk_audio; cbn [clip trailing].
    rewrite seconds_app, seconds_silent by apply Q.le_max_r.
    change (seconds out) with (len out / 1000).
    pose proof (Hmax (len out / 1000) (r_end r - r_start r + p)) as Hm.
    pose proof (Q.le_max_r (len out / 1000) (r_end r - r_start r + p)).
    repeat split; lra.
  - split; [reflexivity | ]. cbn [extra_silence].
    pose proof (split_silence_sum (Qmax (r_start r' - r_end r) 0)) as Hsum.
    pose proof (split_silence_rest_nonneg (Qmax (r_start r' - r_end r) 0)) as Hnn.
    unfold chunk_audio; cbn [clip trailing].
    rewrite seconds_app, seconds_silent.
    + change (seconds out) with (len out / 1000).
      pose proof (Hmax (len out / 1000) (r_end r - r_start r + p)) as Hm.
      pose proof (Q.le_max_r (len out / 1000) (r_end r - r_start r + p)).
      repeat split; lra.
    + pose proof (Q.le_max_r (r_end r - r_start r + p - len out / 1000) 0). lra.
Qed.


(** When the run completes, the chunks the assembler joins are those of the
    synthesized sentences, one each, in increasing sentence order, whatever
    the order in which the directory of chunk files is listed. *)
Theorem chunks_follow_sentence_order (records : list SentenceRecord)
    (total_length : Q) (t : Track) :
  dub records total_length = Ok t ->
  map index (chunks t) = written_indices synthesize_speech 0 records /\
  StronglySorted Nat.lt (map index (chunks t)) /\
  Forall (fun k => (k < List.length records)%nat) (map index (chunks t)).
Proof.
  intros H. apply dub_inv in H. destruct H as (r0 & rest & _ & _ & Ht & _).
  apply trace_written in Ht. rewrite Ht.
  split; [reflexivity | ]. split; [apply written_indices_sorted | ].
  eapply Forall_impl; [ | apply (written_indices_bounds records 0)].
  cbn. intros k Hk. lia.
Qed.

(** When the credit is not negative, the only way [reconcile] fails is a
    clip that the trim emptied. *)

Lemma reconcile_ok_or_zero (raw : Z) (r : SentenceRecord) (p : Q) :
  0 <= p ->
  (slice_to raw (raw - tip) = 0%Z /\
   reconcile (trimmed raw) (slot r) p = Raise ZeroDivisionError) \/
  ((0 < slice_to raw (raw - tip))%Z /\
   exists out : AudioSegment, reconcile (trimmed raw) (slot r) p = Ok out).
Proof.
  intros Hp.
  destruct (Qeq_dec (len (trimmed raw)) 0) as [E | Hne].
  - left. split; [now apply trimmed_zero_iff | now apply reconcile_zero].
  - right. pose proof (trimmed_nonneg raw) as Hn.
    assert (Hpos : 0 < len (trimmed raw)) by lra.
    split; [now apply trimmed_positive_iff | ].
    assert (Hsec : 0 < seconds (trimmed raw)) by now apply seconds_positive.
    destruct (select_regime (slot r / seconds (trimmed raw))) eqn:Hreg.
    + eexists. apply reconcile_stretch; [exact Hne | exact Hreg | ].
      apply select_regime_stretch in Hreg. destruct Hreg as [Hlo _].
      apply div_gt_iff in Hlo; [ | exact Hsec].
      change (len (trimmed raw) / 1000) with (seconds (trimmed raw)).
      assert (0 < (slot r + p) / seconds (trimmed raw)); [ | lra].
      apply div_gt_iff; [exact Hsec | lra].
    + eexists. now apply reconcile_drop.
    + eexists. now apply reconcile_pad.
Qed.

Lemma process_ok_or_zero (i : nat) (r : SentenceRecord) (next : option SentenceRecord)
    (p : Q) :
  0 <= p ->
  (exists raw : Z,
      synthesized i r = Some raw /\ slice_to raw (raw - tip) = 0%Z /\
      process i r next p = Raise ZeroDivisionError) \/
  (exists (p' : Q) (c : option Chunk),
      process i r next p = Ok (p', c) /\
      forall raw : Z, synthesized i r = Some raw -> slice_to raw (raw - tip) <> 0%Z).
Proof.
  intros Hp. destruct (synthesized i r) as [raw | ] eqn:Hs.
  - destruct (reconcile_ok_or_zero raw r p Hp) as [[Hz Hr] | [Hpos [out Hr]]].
    + left. exists raw. split; [reflexivity | ]. split; [exact Hz | ].
      now apply (process_raise i r next p raw).
    + right. destruct (process_wrote i r next p raw out Hs Hr) as (p' & c & Hproc & _).
      exists p', (Some c). split; [exact Hproc | ].
      intros raw' E. inversion E; subst raw'. lia.
  - right. exists p, None. split; [now apply process_skip | discriminate].
Qed.

Lemma loop_ok_or_zero (records : list SentenceRecord) :
  forall (i : nat) (p : Q) (cs : list Chunk),
    in_budget p ->
    (exists (p' : Q) (cs' : list Chunk),
        loop i records p cs = Ok (p', cs') /\
        forall (k : nat) (r : SentenceRecord) (raw : Z),
          nth_error records k = Some r -> synthesized (i + k) r = Some raw ->
          slice_to raw (raw - tip) <> 0%Z) \/
    (loop i records p cs = Raise ZeroDivisionError /\
     exists (k : nat) (r : SentenceRecord) (raw : Z),
       nth_error records k = Some r /\ synthesized (i + k) r = Some raw /\
       slice_to raw (raw - tip) = 0%Z).
Proof.
  induction records as [ | r rest IH]; intros i p cs Hp; cbn [Reconciler.loop].
  - left. exists p, cs. split; [reflexivity | ]. intros [ | k]; discriminate.
  - destruct (process_ok_or_zero i r (hd_error rest) p (proj1 Hp))
      as [(raw & Hs & Hz & Hr) | (p' & c & Hr & Hnz)].
    + right. rewrite Hr. split; [reflexivity | ].
      exists 0%nat, r, raw. rewrite Nat.add_0_r. now repeat split.
    + rewrite Hr. cbn [Py.bind].
      assert (Hp' : in_budget p') by (eapply process_budget; eassumption).
      destruct (IH (S i) p' (match c with Some c0 => cs ++ [c0] | None => cs end) Hp')
        as [(q & cs' & Hl & Hall) | (Hl & k & r1 & raw & Hn & Hs & Hz)].
      * left. exists q, cs'. split; [exact Hl | ].
        intros [ | k] r1 raw Hn Hs.
        -- cbn in Hn. inversion Hn; subst r1. rewrite Nat.add_0_r in Hs.
           now apply Hnz.
        -- cbn in Hn. rewrite Nat.add_succ_r in Hs. now apply (Hall k r1 raw).
      * right. split; [exact Hl | ].
        exists (S k), r1, raw. rewrite Nat.add_succ_r. now repeat split.
Qed.

(** The errors of [dub].  With a leading gap that is not negative, the run
    raises [IndexError] exactly when there is no sentence, raises
    [ZeroDivisionError] exactly when some synthesized clip is emptied by the
    350 ms trim, and returns a track otherwise. *)
Theorem dub_outcome (records : list SentenceRecord) (total_length : Q) :
  0 <= leading_gap records ->
  match dub records total_length with
  | Ok t =>
      records <> [] /\
      forall (k : nat) (r : SentenceRecord) (raw : Z),
        nth_error records k = Some r -> synthesized k r = Some raw ->
        slice_to raw (raw - tip) <> 0%Z
  | Raise e =>
      (e = IndexError /\ records = []) \/
      (e = ZeroDivisionError /\ records <> [] /\
       exists (k : nat) (r : SentenceRecord) (raw : Z),
         nth_error records k = Some r /\ synthesized k r = Some raw /\
         slice_to raw (raw - tip) = 0%Z)
  end.
Proof.
  intros H0.
  destruct records as [ | r0 rest]; [left; now split | ].
  cbn [leading_gap] in H0.
  pose proof (split_silence_budget (r_start r0) H0) as Hb.
  destruct (loop_ok_or_zero (r0 :: rest) 0 (fst (split_silence (r_start r0))) [] Hb)
    as [(q & cs' & Hl & Hall) | (Hl & Hex)].
  - rewrite (loop_dub r0 rest total_length q cs' Hl).
    split; [discriminate | exact Hall].
  - unfold Reconciler.dub.
    destruct (split_silence (r_start r0)) as [p0 ns]. cbn [fst] in Hl.
    rewrite Hl. cbn [Py.bind].
    right. split; [reflexivity | ]. split; [discriminate | exact Hex].
Qed.

(** When the clip fits its slot. *)




End ReconcilerFacts.

(** ** The speaker attributor *)

Lemma scan_speakers_spec (span : Q * Q) (items : Rolls) :
  forall (m : Q) (s : string),
    (exists item : (Q * Q) * string,
        first_largest Qlt Qle (seen_overlap span) item items /\
        m < seen_overlap span item /\
        scan_speakers span items m s = snd item) \/
    ((forall item, In item items -> seen_overlap span item <= m) /\
     scan_speakers span items m s = s).
Proof.
  induction items as [ | [key value] rest IH]; intros m s.
  - right. split; [intros item [] | reflexivity].
  - cbn [scan_speakers].
    change (get_overlap span (speaker_range key))
      with (seen_overlap span (key, value)).
    destruct (Py.ltb m (seen_overlap span (key, value))) eqn:E.
    + apply ltb_true in E. left.
      destruct (IH (seen_overlap span (key, value)) value)
        as [(item & (pre & post & Hl & Hpre & Hpost) & Hm & Hres) | [Hall Hres]].
      * exists item. split; [ | split; [lra | exact Hres]].
        exists ((key, value) :: pre), post. subst rest.
        split; [reflexivity | ]. split; [ | exact Hpost].
        intros y [<- | Hy]; [exact Hm | now apply Hpre].
      * exists (key, value). split; [ | split; [exact E | exact Hres]].
        exists [], rest. split; [reflexivity | ].
        split; [intros y [] | exact Hall].
    + apply ltb_false in E.
      destruct (IH m s)
        as [(item & (pre & post & Hl & Hpre & Hpost) & Hm & Hres) | [Hall Hres]].
      * left. exists item. split; [ | split; [exact Hm | exact Hres]].
        exists ((key, value) :: pre), post. subst rest.
        split; [reflexivity | ]. split; [ | exact Hpost].
        intros y [<- | Hy]; [lra | now apply Hpre].
      * right. split; [ | exact Hres].
        intros item [<- | Hi]; [exact E | now apply Hall].
Qed.

Lemma max_key_from_spec {A : Type} (k : A -> nat) (l : list A) :
  forall best : A,
    first_largest Nat.lt Nat.le k (Py.max_key_from k best l) (best :: l).
Proof.
  induction l as [ | x l IH]; intros best; cbn [Py.max_key_from].
  - exists [], []. split; [reflexivity | split; intros y []].
  - destruct (k best <? k x)%nat eqn:E.
    + apply Nat.ltb_lt in E.
      destruct (IH x) as (pre & post & Hl & Hpre & Hpost).
      remember (Py.max_key_from k x l) as res eqn:Hres. clear Hres.
      exists (best :: pre), post.
      split; [cbn; now rewrite Hl | ]. split; [ | exact Hpost].
      intros y [<- | Hy]; [ | now apply Hpre].
      destruct pre as [ | z pre]; inversion Hl as [[Hx Hp]].
      * now subst res.
      * subst z. specialize (Hpre x (or_introl eq_refl)).
        unfold Nat.lt in *. lia.
    + apply Nat.ltb_ge in E.
      destruct (IH best) as (pre & post & Hl & Hpre & Hpost).
      remember (Py.max_key_from k best l) as res eqn:Hres. clear Hres.
      destruct pre as [ | z pre]; inversion Hl as [[Hb Hp]].
      * subst res. exists [], (x :: post).
        split; [reflexivity | ].
        split; [intros y [] | ].
        intros y [<- | Hy]; [exact E | now apply Hpost].
      * subst z. exists (best :: x :: pre), post.
        split; [reflexivity | ]. split; [ | exact Hpost].
        pose proof (Hpre best (or_introl eq_refl)) as Hbest.
        intros y [<- | [<- | Hy]];
          [exact Hbest | unfold Nat.lt in *; lia | apply Hpre; now right].
Qed.

(** C6, as the code has it.  When no interval was kept, line 239 raises
    [ValueError] and no sentence gets a speaker.  Otherwise the overlap is
    taken against the interval with both ends truncated to whole seconds
    ([int(key[0])], [int(key[1])]): the sentence gets the speaker of the
    first entry of [speakers_rolls] whose overlap of that kind is largest,
    when that overlap is positive, and otherwise the value of line 239, which
    is the first label whose number of entries is largest. *)
Theorem C6_speaker_of_largest_truncated_overlap (span : Q * Q)
    (speakers_rolls : Rolls) :
  match attributed_speaker span speakers_rolls with
  | Ok assigned =>
      speakers_rolls <> [] /\
      ((exists item : (Q * Q) * string,
           first_largest Qlt Qle (seen_overlap span) item speakers_rolls /\
           0 < seen_overlap span item /\
           seen_overlap span item ==
             Qmax 0 (Qmin (snd span) (inject_Z (Py.int (snd (fst item))))
                     - Qmax (fst span) (inject_Z (Py.int (fst (fst item))))) /\
           assigned = snd item) \/
       ((forall item, In item speakers_rolls -> seen_overlap span item <= 0) /\
        most_occured_speaker speakers_rolls = Ok assigned /\
        first_largest Nat.lt Nat.le (occurrences (values speakers_rolls)) assigned
          (values speakers_rolls)))
  | Raise e =>
      speakers_rolls = [] /\ e = ValueError /\
      most_occured_speaker speakers_rolls = Raise ValueError
  end.
Proof.
  unfold attributed_speaker.
  destruct speakers_rolls as [ | [key value] rest] eqn:Hrolls.
  - cbn. now repeat split.
  - rewrite <- Hrolls.
    assert (Hmost : most_occured_speaker speakers_rolls
                    = Ok (Py.max_key_from (occurrences (values speakers_rolls))
                            value (values rest))).
    { rewrite Hrolls. reflexivity. }
    rewrite Hmost. cbn [Py.bind].
    split; [rewrite Hrolls; discriminate | ].
    set (most_occured := Py.max_key_from (occurrences (values speakers_rolls))
                           value (values rest)) in *.
    unfold assign_speaker.
    destruct (scan_speakers_spec span speakers_rolls 0 most_occured)
      as [(item & Hfirst & Hpos & Hres) | [Hall Hres]].
    + left. exists item.
      split; [exact Hfirst | ]. split; [exact Hpos | ].
      split; [apply Qeq_refl | exact Hres].
    + right. split; [exact Hall | ]. rewrite Hres. split; [reflexivity | ].
      subst most_occured. rewrite Hrolls at 3. cbn [values map snd].
      apply max_key_from_spec.
Qed.

(** C6, as stated, fails.  Of two diarization turns, the one of speaker A
    overlaps the sentence (10 s to 12 s) for 0.9 s and the one of speaker B
    for 0.5 s, and A is also the most frequent speaker; the sentence is given
    to B. *)
Lemma C6_largest_overlap_loses :
  let span := (10, 12) in
  let speakers_rolls :=
    diarize [mkTurn 8 10.9 "A"; mkTurn 11.5 13.2 "B"] [] in
  speakers_rolls = [((8, 10.9), "A"%string); ((11.5, 13.2), "B"%string)] /\
  get_overlap span (8, 10.9) == 0.9 /\
  get_overlap span (11.5, 13.2) == 0.5 /\
  get_overlap span (11.5, 13.2) < get_overlap span (8, 10.9) /\
  most_occured_speaker speakers_rolls = Ok "A"%string /\
  assign_speaker span speakers_rolls "A" = "B"%string /\
  assign_speaker span speakers_rolls "A" <> "A"%string /\
  attributed_speaker span speakers_rolls = Ok "B"%string.
Proof.
  cbv zeta. repeat split. discriminate.
Qed.

(** ** The diarization intervals and the speakers' reference audio *)

Lemma key_eqb_true (a b : Q * Q) :
  key_eqb a b = true <-> fst a == fst b /\ snd a == snd b.
Proof.
  unfold key_eqb. rewrite andb_true_iff, !Qeq_bool_iff. reflexivity.
Qed.

Lemma dict_set_in {K V : Type} (eqb : K -> K -> bool) (d : list (K * V))
    (key : K) (value : V) (x : K * V) :
  In x (dict_set eqb d key value) ->
  In x d \/
  (snd x = value /\
   (fst x = key \/ exists old : V, In (fst x, old) d /\ eqb (fst x) key = true)).
Proof.
  induction d as [ | [k v] rest IH]; cbn [dict_set].
  - intros [<- | []]. right. split; [reflexivity | now left].
  - destruct (eqb k key) eqn:E.
    + intros [<- | Hx].
      * right. split; [reflexivity | ]. right. exists v. split; [now left | exact E].
      * left. now right.
    + intros [<- | Hx]; [left; now left | ].
      destruct (IH Hx) as [Hin | (Hv & [Hk | (old & Hold & He)])].
      * left. now right.
      * right. split; [exact Hv | now left].
      * right. split; [exact Hv | ]. right. exists old. split; [now right | exact He].
Qed.

Lemma dict_set_key_stays {K V : Type} (eqb : K -> K -> bool) (d : list (K * V))
    (key k0 : K) (value v0 : V) :
  In (k0, v0) d -> exists v' : V, In (k0, v') (dict_set eqb d key value).
Proof.
  induction d as [ | [k v] rest IH]; cbn [dict_set]; [intros [] | ].
  intros [E | Hin].
  - inversion E; subst k v. destruct (eqb k0 key).
    + exists value. now left.
    + exists v0. now left.
  - destruct (eqb k key).
    + exists v0. now right.
    + destruct (IH Hin) as (v' & Hv'). exists v'. now right.
Qed.

Lemma dict_set_has {K V : Type} (eqb : K -> K -> bool) (d : list (K * V))
    (key : K) (value : V) :
  exists k0 : K,
    In (k0, value) (dict_set eqb d key value) /\ (k0 = key \/ eqb k0 key = true).
Proof.
  induction d as [ | [k v] rest IH]; cbn [dict_set].
  - exists key. split; [now left | now left].
  - destruct (eqb k key) eqn:E.
    + exists k. split; [now left | now right].
    + destruct IH as (k0 & Hin & Hk). exists k0. split; [now right | exact Hk].
Qed.

(** Where the keys of [speakers_rolls] come from. *)
Lemma diarize_keys (turns : list Turn) :
  forall (acc : Rolls) (key : Q * Q) (v : string),
    In (key, v) (diarize turns acc) ->
    (exists v0 : string, In (key, v0) acc) \/
    (exists t : Turn,
        In t turns /\ long_turn t /\ key = (turn_start t, turn_end t)).
Proof.
  induction turns as [ | t rest IH]; intros acc key v H; cbn [diarize] in H.
  - left. now exists v.
  - apply IH in H. destruct H as [(v0 & Hin) | (t' & Ht' & Hl & Hk)].
    + destruct (Py.ltb 1.5 (Qabs (turn_end t - turn_start t))) eqn:E.
      * apply ltb_true in E. apply dict_set_in in Hin. cbn [fst snd] in Hin.
        destruct Hin as [Hin | (_ & [Hk | (old & Hold & _)])].
        -- left. now exists v0.
        -- right. exists t. split; [now left | ]. split; [exact E | exact Hk].
        -- left. now exists old.
      * left. now exists v0.
    + right. exists t'. split; [now right | now split].
Qed.

(** Where the speakers of [speakers_rolls] come from. *)
Lemma diarize_values (turns : list Turn) :
  forall (acc : Rolls) (key : Q * Q) (v : string),
    In (key, v) (diarize turns acc) ->
    In (key, v) acc \/
    (exists t : Turn,
        In t turns /\ long_turn t /\ v = turn_speaker t /\
        fst key == turn_start t /\ snd key == turn_end t).
Proof.
  induction turns as [ | t rest IH]; intros acc key v H; cbn [diarize] in H.
  - now left.
  - apply IH in H. destruct H as [Hin | (t' & Ht' & Hl & Hv & Hk)].
    + destruct (Py.ltb 1.5 (Qabs (turn_end t - turn_start t))) eqn:E.
      * apply ltb_true in E. apply dict_set_in in Hin. cbn [fst snd] in Hin.
        destruct Hin as [Hin | (Hv & [Hk | (old & Hold & He)])].
        -- now left.
        -- right. exists t. split; [now left | ]. split; [exact E | ].
           split; [exact Hv | ]. subst key. cbn. split; reflexivity.
        -- right. exists t. split; [now left | ]. split; [exact E | ].
           split; [exact Hv | ]. now apply key_eqb_true in He.
      * now left.
    + right. exists t'. split; [now right | now repeat split].
Qed.

Lemma diarize_key_stays (turns : list Turn) :
  forall (acc : Rolls) (key : Q * Q) (v : string),
    In (key, v) acc -> exists v' : string, In (key, v') (diarize turns acc).
Proof.
  induction turns as [ | t rest IH]; intros acc key v H; cbn [diarize].
  - now exists v.
  - destruct (Py.ltb 1.5 (Qabs (turn_end t - turn_start t))).
    + destruct (dict_set_key_stays key_eqb acc (turn_start t, turn_end t) key
                  (turn_speaker t) v H) as (v' & Hv').
      now apply (IH _ key v').
    + now apply (IH _ key v).
Qed.

Lemma diarize_covers (turns : list Turn) :
  forall (acc : Rolls) (t : Turn),
    In t turns -> long_turn t ->
    exists (key : Q * Q) (v : string),
      In (key, v) (diarize turns acc) /\
      fst key == turn_start t /\ snd key == turn_end t.
Proof.
  induction turns as [ | t0 rest IH]; intros acc t Hin Hl; [destruct Hin | ].
  cbn [diarize]. destruct Hin as [-> | Hin].
  - apply ltb_true in Hl. unfold long_turn in Hl. rewrite Hl.
    destruct (dict_set_has key_eqb acc (turn_start t, turn_end t) (turn_speaker t))
      as (k0 & Hk0 & Hk).
    destruct (diarize_key_stays rest _ k0 _ Hk0) as (v' & Hv').
    exists k0, v'. split; [exact Hv' | ].
    destruct Hk as [-> | He]; [cbn; split; reflexivity | now apply key_eqb_true in He].
  - now apply IH.
Qed.

(** [speakers_rolls] holds the turns that last more than 1.5 s, and only
    them: each entry bears the bounds and the speaker of such a turn, and
    each such turn has an entry with its bounds. *)
Theorem speakers_rolls_hold_the_long_turns (turns : list Turn) :
  (forall (key : Q * Q) (v : string),
      In (key, v) (diarize turns []) ->
      exists t : Turn,
        In t turns /\ long_turn t /\ v = turn_speaker t /\
        fst key == turn_start t /\ snd key == turn_end t) /\
  (forall t : Turn,
      In t turns -> long_turn t ->
      exists (key : Q * Q) (v : string),
        In (key, v) (diarize turns []) /\
        fst key == turn_start t /\ snd key == turn_end t).
Proof.
  split.
  - intros key v H. apply diarize_values in H. destruct H as [[] | H]. exact H.
  - intros t Hin Hl. now apply diarize_covers.
Qed.

Lemma first_largest_in {A B : Type} (lt le : B -> B -> Prop) (f : A -> B)
    (x : A) (l : list A) :
  first_largest lt le f x l -> In x l.
Proof.
  intros (pre & post & -> & _). apply in_or_app. right. now left.
Qed.

(** The speaker given to a sentence always has an interval in
    [speakers_rolls], so the reference file [speakers_audio/{speaker}.wav]
    that the synthesizer is pointed at is one of those line 237 exported. *)
Theorem assigned_speaker_is_diarized (span : Q * Q) (speakers_rolls : Rolls)
    (most_occured : string) :
  most_occured_speaker speakers_rolls = Ok most_occured ->
  In (assign_speaker span speakers_rolls most_occured) (values speakers_rolls).
Proof.
  intros Hm. unfold assign_speaker.
  destruct (scan_speakers_spec span speakers_rolls 0 most_occured)
    as [(item & Hfirst & _ & ->) | [_ ->]].
  - apply first_largest_in in Hfirst. unfold values. now apply in_map.
  - unfold most_occured_speaker, Py.max_key in Hm.
    destruct (values speakers_rolls) as [ | v vs] eqn:E; [discriminate | ].
    inversion Hm; subst most_occured.
    apply (first_largest_in _ _ _ _ _ (max_key_from_spec _ vs v)).
Qed.

Lemma int_floor (x : Q) : 0 <= x -> Py.int x = Qfloor x.
Proof.
  destruct x as [n d]. unfold Py.int, Qfloor, Qle. cbn. intros H.
  apply Z.quot_div_nonneg; lia.
Qed.

Lemma long_turn_spans_a_second (t : Turn) :
  0 <= turn_start t -> turn_start t <= turn_end t -> long_turn t ->
  (0 <= Py.int (turn_start t))%Z /\
  (Py.int (turn_start t) + 1 <= Py.int (turn_end t))%Z /\
  inject_Z (Py.int (turn_end t)) <= turn_end t.
Proof.
  intros H0 Hle Hl. unfold long_turn in Hl.
  rewrite Qabs_pos in Hl by lra.
  rewrite !int_floor by lra.
  pose proof (Qfloor_le (turn_start t)) as Hs.
  pose proof (Qfloor_le (turn_end t)) as He.
  pose proof (Qlt_floor (turn_end t)) as He'.
  rewrite inject_Z_plus in He'. change (inject_Z 1) with 1 in He'.
  split.
  - change 0%Z with (Qfloor 0). now apply Qfloor_resp_le.
  - split; [ | exact He].
    assert (Hlt : inject_Z (Qfloor (turn_start t)) < inject_Z (Qfloor (turn_end t)))
      by lra.
    rewrite <- Zlt_Qlt in Hlt. lia.
Qed.

(** A slice from the start is the slice [audio[:stop]] of the reconciler. *)
Lemma slice_from_start (n stop : Z) :
  (0 <= n)%Z -> slice_len n 0 stop = slice_to n stop.
Proof.
  intros Hn. unfold slice_len, slice_to, slice_bound, position.
  repeat match goal with
  | |- context [(?a <? ?b)%Z] => destruct (Z.ltb_spec a b)
  end; lia.
Qed.

Lemma slice_len_inside (n a b : Z) :
  (0 <= a <= b)%Z -> (b <= n)%Z -> slice_len n a b = (b - a)%Z.
Proof.
  intros Hab Hbn. unfold slice_len, slice_bound, position.
  rewrite (Z.min_l a n), (Z.min_l b n) by lia.
  assert (Ea : (a <? 0)%Z = false) by (apply Z.ltb_ge; lia).
  assert (Eb : (b <? 0)%Z = false) by (apply Z.ltb_ge; lia).
  rewrite !Ea, !Eb. lia.
Qed.

Lemma slice_len_nonneg (n a b : Z) : (0 <= slice_len n a b)%Z.
Proof. unfold slice_len. lia. Qed.

Lemma speaker_audio_nonneg (n : Z) (items : Rolls) (speaker : string) :
  (0 <= speaker_audio n items speaker)%Z.
Proof.
  induction items as [ | [key value] rest IH]; cbn [speaker_audio]; [lia | ].
  destruct (String.eqb speaker value); [ | exact IH].
  pose proof (slice_len_nonneg n (Py.int (fst key) * 1000) (Py.int (snd key) * 1000)).
  lia.
Qed.

Lemma speaker_audio_holds (n : Z) (items : Rolls) (speaker : string) (key : Q * Q) :
  In (key, speaker) items ->
  (slice_len n (Py.int (fst key) * 1000) (Py.int (snd key) * 1000)
   <= speaker_audio n items speaker)%Z.
Proof.
  induction items as [ | [k v] rest IH]; [intros [] | ].
  cbn [speaker_audio]. intros [E | Hin].
  - inversion E; subst k v. rewrite String.eqb_refl.
    pose proof (speaker_audio_nonneg n rest speaker). lia.
  - specialize (IH Hin). destruct (String.eqb speaker v); [ | exact IH].
    pose proof (slice_len_nonneg n (Py.int (fst k) * 1000) (Py.int (snd k) * 1000)).
    lia.
Qed.

(** No speaker is left without reference audio: when the turns lie inside
    the audio, every speaker of [speakers_rolls] gets at least one second of
    it, although the bounds of the intervals are truncated to whole
    seconds. *)
Theorem every_speaker_gets_reference_audio (n : Z) (turns : list Turn)
    (speaker : string) :
  (forall t : Turn, In t turns -> turn_in_audio n t) ->
  In speaker (values (diarize turns [])) ->
  (1000 <= speaker_audio n (diarize turns []) speaker)%Z.
Proof.
  intros Hturns Hin. unfold values in Hin. apply in_map_iff in Hin.
  destruct Hin as ([key v] & Hv & Hin). cbn in Hv. subst v.
  pose proof (speaker_audio_holds n _ speaker key Hin) as Hle.
  destruct (diarize_keys turns [] key speaker Hin) as [(v0 & []) | (t & Ht & Hl & ->)].
  destruct (Hturns t Ht) as (H0 & Hse & Hen).
  destruct (long_turn_spans_a_second t H0 Hse Hl) as (Hs0 & Hstep & Hfe).
  cbn [fst snd] in Hle.
  rewrite slice_len_inside in Hle; [lia | lia | ].
  assert (Hq : inject_Z (Py.int (turn_end t) * 1000) <= inject_Z n).
  { rewrite inject_Z_mult. change (inject_Z 1000) with 1000. lra. }
  now rewrite <- Zle_Qle in Hq.
Qed.

(** ** The sentence segmenter *)

Lemma scan_word_miss (m : nat) (w : WordToken) (letter : nat) :
  forall (f : nat) (starts : list Q),
    (letter <= f \/ f + m < letter)%nat ->
    scan_word m w letter f starts = ((f + m)%nat, starts).
Proof.
  induction m as [ | m IH]; intros f starts H; cbn [scan_word].
  - now rewrite Nat.add_0_r.
  - replace (S f =? letter)%nat with false by (symmetry; apply Nat.eqb_neq; lia).
    rewrite IH by lia. f_equal. lia.
Qed.

Lemma scan_word_counter (m : nat) (w : WordToken) (letter : nat) :
  forall (f : nat) (starts : list Q),
    fst (scan_word m w letter f starts) = (f + m)%nat.
Proof.
  induction m as [ | m IH]; intros f starts; cbn [scan_word].
  - cbn. lia.
  - rewrite IH. lia.
Qed.

Lemma scan_words_miss (time_stamped : list WordToken) (letter : nat) :
  forall (f : nat) (starts : list Q),
    (letter <= f \/ f + total_chars time_stamped < letter)%nat ->
    scan_words time_stamped letter f starts = starts.
Proof.
  induction time_stamped as [ | w rest IH]; intros f starts H; cbn [scan_words].
  - reflexivity.
  - cbn [total_chars] in H.
    rewrite scan_word_miss by lia. apply IH. lia.
Qed.

Lemma append_empty (tmp : string) : (tmp ++ EmptyString)%string = tmp.
Proof.
  induction tmp as [ | a tmp IH]; cbn; [reflexivity | now rewrite IH].
Qed.

Lemma append_char (tmp : string) (c : ascii) (chars : string) :
  ((tmp ++ String c EmptyString) ++ chars)%string = (tmp ++ String c chars)%string.
Proof.
  induction tmp as [ | a tmp IH]; cbn; [reflexivity | now rewrite IH].
Qed.

Lemma scan_sentence_miss (time_stamped : list WordToken) (chars : string) :
  forall (letter : nat) (tmp : string) (starts : list Q),
    (total_chars time_stamped <= letter)%nat ->
    scan_sentence chars time_stamped letter tmp starts
    = ((letter + String.length chars)%nat, (tmp ++ chars)%string, starts).
Proof.
  induction chars as [ | c chars IH]; intros letter tmp starts H; cbn [scan_sentence].
  - cbn [String.length]. now rewrite Nat.add_0_r, append_empty.
  - rewrite scan_words_miss by lia. rewrite IH by lia.
    cbn [String.length]. rewrite append_char.
    replace (S letter + String.length chars)%nat
      with (letter + S (String.length chars))%nat by lia.
    reflexivity.
Qed.

Lemma scan_sentence_counter (time_stamped : list WordToken) (chars : string) :
  forall (letter : nat) (tmp : string) (starts : list Q),
    fst (fst (scan_sentence chars time_stamped letter tmp starts))
    = (letter + String.length chars)%nat.
Proof.
  induction chars as [ | c chars IH]; intros letter tmp starts; cbn [scan_sentence].
  - cbn. lia.
  - rewrite IH. cbn [String.length]. lia.
Qed.

Lemma unmatched_no_stamp (time_stamped : list WordToken) (letter : nat) (s : string) :
  unmatched time_stamped letter s ->
  snd (scan_sentence s time_stamped letter EmptyString []) = [].
Proof.
  intros H. destruct s as [ | c s].
  - reflexivity.
  - rewrite scan_sentence_miss; [reflexivity | ].
    specialize (H 0%nat). cbn [String.length] in H. lia.
Qed.

Lemma segment_only_value_error (time_stamped : list WordToken) (sentences : list string) :
  forall (letter : nat) (d : list (string * (Q * Q))) (e : Py.Error),
    segment sentences time_stamped letter d = Raise e -> e = ValueError.
Proof.
  induction sentences as [ | s rest IH]; intros letter d e H; cbn [segment] in H.
  - discriminate.
  - destruct (scan_sentence s time_stamped letter EmptyString []) as [[l tmp] starts].
    destruct starts as [ | x starts]; cbn in H.
    + now inversion H.
    + now apply IH in H.
Qed.

Lemma segment_unmatched (time_stamped : list WordToken) (sentences : list string) :
  forall (i letter : nat) (d : list (string * (Q * Q))) (s : string),
    nth_error sentences i = Some s ->
    unmatched time_stamped (letter + letter_before sentences i) s ->
    segment sentences time_stamped letter d = Raise ValueError.
Proof.
  induction sentences as [ | s0 rest IH]; intros i letter d s Hn Hu.
  - destruct i; discriminate.
  - cbn [segment]. destruct i as [ | i].
    + cbn in Hn. inversion Hn; subst s0. cbn [letter_before] in Hu.
      rewrite Nat.add_0_r in Hu. apply unmatched_no_stamp in Hu.
      destruct (scan_sentence s time_stamped letter EmptyString []) as [[l tmp] starts].
      cbn in Hu. subst starts. reflexivity.
    + cbn in Hn. cbn [letter_before] in Hu.
      pose proof (scan_sentence_counter time_stamped s0 letter EmptyString []) as Hc.
      destruct (scan_sentence s0 time_stamped letter EmptyString []) as [[l tmp] starts].
      cbn in Hc. subst l.
      destruct starts as [ | x starts]; [reflexivity | ].
      cbn. apply (IH i _ _ s Hn).
      replace (S (letter + String.length s0) + letter_before rest i)%nat
        with (letter + (String.length s0 + 1 + letter_before rest i))%nat by lia.
      exact Hu.
Qed.

(** Conversely, a character inside the word stream leaves the timestamps of
    its word in [starts], so the segmenter raises for no other reason. *)

Lemma scan_word_grows (m : nat) (w : WordToken) (letter : nat) :
  forall (f : nat) (starts : list Q),
    exists extra : list Q,
      snd (scan_word m w letter f starts) = starts ++ extra /\
      ((f < letter <= f + m)%nat -> extra <> []).
Proof.
  induction m as [ | m IH]; intros f starts; cbn [scan_word].
  - exists []. split; [cbn; now rewrite app_nil_r | lia].
  - destruct (S f =? letter)%nat eqn:E.
    + destruct (IH (S f) (starts ++ [w_start w; w_end w])) as (extra & Hs & _).
      exists ([w_start w; w_end w] ++ extra).
      split; [now rewrite Hs, <- app_assoc | discriminate].
    + apply Nat.eqb_neq in E.
      destruct (IH (S f) starts) as (extra & Hs & Hne).
      exists extra. split; [exact Hs | intros H; apply Hne; lia].
Qed.

Lemma scan_words_grows (time_stamped : list WordToken) (letter : nat) :
  forall (f : nat) (starts : list Q),
    exists extra : list Q,
      scan_words time_stamped letter f starts = starts ++ extra /\
      ((f < letter <= f + total_chars time_stamped)%nat -> extra <> []).
Proof.
  induction time_stamped as [ | w rest IH]; intros f starts; cbn [scan_words total_chars].
  - exists []. split; [now rewrite app_nil_r | lia].
  - pose proof (scan_word_counter (String.length (word w)) w letter f starts) as Hc.
    destruct (scan_word_grows (String.length (word w)) w letter f starts)
      as (e1 & Hs & Hne1).
    destruct (scan_word (String.length (word w)) w letter f starts) as [f' starts'].
    cbn in Hc, Hs. subst f' starts'.
    destruct (IH (f + String.length (word w))%nat (starts ++ e1)) as (e2 & Hs2 & Hne2).
    exists (e1 ++ e2). split; [now rewrite Hs2, <- app_assoc | ].
    intros H Hnil. apply app_eq_nil in Hnil. destruct Hnil as [H1 H2].
    destruct (le_lt_dec letter (f + String.length (word w))) as [Hle | Hgt].
    + apply Hne1; [lia | exact H1].
    + apply Hne2; [lia | exact H2].
Qed.

Lemma scan_sentence_grows (time_stamped : list WordToken) (chars : string) :
  forall (letter : nat) (tmp : string) (starts : list Q),
    exists extra : list Q,
      snd (scan_sentence chars time_stamped letter tmp starts) = starts ++ extra /\
      (chars <> EmptyString -> (letter < total_chars time_stamped)%nat -> extra <> []).
Proof.
  induction chars as [ | c chars IH]; intros letter tmp starts; cbn [scan_sentence].
  - exists []. split; [cbn; now rewrite app_nil_r | congruence].
  - destruct (scan_words_grows time_stamped (S letter) 0 starts) as (e1 & Hs & Hne1).
    rewrite Hs.
    destruct (IH (S letter) (tmp ++ String c EmptyString)%string (starts ++ e1))
      as (e2 & Hs2 & _).
    exists (e1 ++ e2). split; [now rewrite Hs2, <- app_assoc | ].
    intros _ Hl Hnil. apply app_eq_nil in Hnil. destruct Hnil as [H1 _].
    apply Hne1; [lia | exact H1].
Qed.

Lemma no_stamp_unmatched (time_stamped : list WordToken) (letter : nat) (s : string) :
  snd (scan_sentence s time_stamped letter EmptyString []) = [] ->
  unmatched time_stamped letter s.
Proof.
  intros H j Hj.
  destruct (scan_sentence_grows time_stamped s letter EmptyString [])
    as (extra & Hs & Hne).
  rewrite Hs in H. cbn in H.
  destruct (le_lt_dec (total_chars time_stamped) letter) as [Hle | Hgt]; [lia | ].
  exfalso. apply Hne; [ | exact Hgt | exact H].
  intros ->. cbn in Hj. lia.
Qed.

Lemma segment_raise_unmatched (time_stamped : list WordToken) (sentences : list string) :
  forall (letter : nat) (d : list (string * (Q * Q))) (e : Py.Error),
    segment sentences time_stamped letter d = Raise e ->
    exists (i : nat) (s : string),
      nth_error sentences i = Some s /\
      unmatched time_stamped (letter + letter_before sentences i) s.
Proof.
  induction sentences as [ | s0 rest IH]; intros letter d e H; cbn [segment] in H.
  - discriminate.
  - pose proof (scan_sentence_counter time_stamped s0 letter EmptyString []) as Hc.
    pose proof (no_stamp_unmatched time_stamped letter s0) as Hu.
    destruct (scan_sentence s0 time_stamped letter EmptyString []) as [[l tmp] starts].
    cbn in Hc, Hu. subst l.
    destruct starts as [ | x starts].
    + exists 0%nat, s0. split; [reflexivity | ].
      cbn [letter_before]. rewrite Nat.add_0_r. now apply Hu.
    + cbn in H. apply IH in H. destruct H as (i & s & Hn & Hs).
      exists (S i), s. split; [exact Hn | ].
      cbn [letter_before].
      replace (letter + (String.length s0 + 1 + letter_before rest i))%nat
        with (S (letter + String.length s0) + letter_before rest i)%nat by lia.
      exact Hs.
Qed.

Lemma sentence_spans_raise_iff (sentences : list string) (time_stamped : list WordToken) :
  sentence_spans sentences time_stamped = Raise ValueError <->
  (exists (i : nat) (s : string),
      nth_error sentences i = Some s /\
      unmatched time_stamped (letter_before sentences i) s).
Proof.
  unfold sentence_spans. split.
  - intros H.
    destruct (segment sentences time_stamped 0 []) as [d | e'] eqn:E; [discriminate | ].
    apply segment_raise_unmatched in E. exact E.
  - intros (i & s & Hn & Hu).
    now rewrite (segment_unmatched time_stamped sentences i 0 [] s Hn Hu).
Qed.

Lemma sentence_spans_only_value_error (sentences : list string)
    (time_stamped : list WordToken) (e : Py.Error) :
  sentence_spans sentences time_stamped = Raise e -> e = ValueError.
Proof.
  unfold sentence_spans. intros H.
  destruct (segment sentences time_stamped 0 []) as [d | e'] eqn:E; [discriminate | ].
  cbn in H. inversion H; subst e'.
  now apply segment_only_value_error in E.
Qed.

(** C8.  A sentence none of whose characters falls inside the word stream
    collects no timestamp, and [min(starts)] on the empty list raises
    [ValueError]: the segmenter returns no span at all. *)
Theorem C8_unmatched_sentence_raises (sentences : list string)
    (time_stamped : list WordToken) (i : nat) (s : string) :
  nth_error sentences i = Some s ->
  unmatched time_stamped (letter_before sentences i) s ->
  sentence_spans sentences time_stamped = Raise ValueError.
Proof.
  intros Hn Hu. unfold sentence_spans.
  now rewrite (segment_unmatched time_stamped sentences i 0 [] s Hn Hu).
Qed.

(** ** The spans the segmenter returns *)

Lemma min_from_le (l : list Q) : forall best : Q, Py.min_from best l <= best.
Proof.
  induction l as [ | x l IH]; intros best; cbn [Py.min_from]; [lra | ].
  destruct (Py.ltb x best) eqn:E.
  - apply ltb_true in E. specialize (IH x). lra.
  - apply IH.
Qed.

Lemma max_from_ge (l : list Q) : forall best : Q, best <= Py.max_from best l.
Proof.
  induction l as [ | x l IH]; intros best; cbn [Py.max_from]; [lra | ].
  destruct (Py.ltb best x) eqn:E.
  - apply ltb_true in E. specialize (IH x). lra.
  - apply IH.
Qed.

Lemma min_from_in (l : list Q) : forall best : Q, In (Py.min_from best l) (best :: l).
Proof.
  induction l as [ | x l IH]; intros best; cbn [Py.min_from]; [now left | ].
  destruct (Py.ltb x best).
  - right. apply IH.
  - destruct (IH best) as [H | H]; [now left | right; now right].
Qed.

Lemma max_from_in (l : list Q) : forall best : Q, In (Py.max_from best l) (best :: l).
Proof.
  induction l as [ | x l IH]; intros best; cbn [Py.max_from]; [now left | ].
  destruct (Py.ltb best x).
  - right. apply IH.
  - destruct (IH best) as [H | H]; [now left | right; now right].
Qed.

Lemma scan_word_stamps (time_stamped : list WordToken) (w : WordToken) (letter : nat)
    (m : nat) :
  In w time_stamped ->
  forall (f : nat) (starts : list Q),
    Forall (stamp time_stamped) starts ->
    Forall (stamp time_stamped) (snd (scan_word m w letter f starts)).
Proof.
  intros Hw. induction m as [ | m IH]; intros f starts H; cbn [scan_word]; [exact H | ].
  apply IH. destruct (S f =? letter)%nat; [ | exact H].
  apply Forall_app. split; [exact H | ].
  constructor; [exists w; split; [exact Hw | now left] | ].
  constructor; [exists w; split; [exact Hw | now right] | constructor].
Qed.

Lemma scan_words_stamps (time_stamped words : list WordToken) (letter : nat) :
  (forall w, In w words -> In w time_stamped) ->
  forall (f : nat) (starts : list Q),
    Forall (stamp time_stamped) starts ->
    Forall (stamp time_stamped) (scan_words words letter f starts).
Proof.
  induction words as [ | w rest IH]; intros Hsub f starts H; cbn [scan_words]; [exact H | ].
  pose proof (scan_word_stamps time_stamped w letter (String.length (word w))
                (Hsub w (or_introl eq_refl)) f starts H) as Hw.
  destruct (scan_word (String.length (word w)) w letter f starts) as [f' starts'].
  apply IH; [ | exact Hw]. intros w' Hw'. apply Hsub. now right.
Qed.

Lemma scan_sentence_stamps (time_stamped : list WordToken) (chars : string) :
  forall (letter : nat) (tmp : string) (starts : list Q),
    Forall (stamp time_stamped) starts ->
    Forall (stamp time_stamped)
      (snd (scan_sentence chars time_stamped letter tmp starts)).
Proof.
  induction chars as [ | c chars IH]; intros letter tmp starts H; cbn [scan_sentence];
    [exact H | ].
  apply IH. now apply scan_words_stamps.
Qed.

Lemma scan_sentence_text (time_stamped : list WordToken) (chars : string) :
  forall (letter : nat) (tmp : string) (starts : list Q),
    snd (fst (scan_sentence chars time_stamped letter tmp starts))
    = (tmp ++ chars)%string.
Proof.
  induction chars as [ | c chars IH]; intros letter tmp starts; cbn [scan_sentence].
  - cbn. now rewrite append_empty.
  - rewrite IH. apply append_char.
Qed.

Lemma segment_sound (time_stamped : list WordToken) (all : list string)
    (sentences : list string) :
  (forall s, In s sentences -> In s all) ->
  forall (letter : nat) (d d' : list (string * (Q * Q))),
    segment sentences time_stamped letter d = Ok d' ->
    Forall (sound_entry time_stamped all) d ->
    Forall (sound_entry time_stamped all) d'.
Proof.
  induction sentences as [ | s rest IH]; intros Hsub letter d d' H Hd; cbn [segment] in H.
  - inversion H; subst d'. exact Hd.
  - pose proof (scan_sentence_stamps time_stamped s letter EmptyString [] (Forall_nil _))
      as Hst.
    pose proof (scan_sentence_text time_stamped s letter EmptyString []) as Htxt.
    destruct (scan_sentence s time_stamped letter EmptyString []) as [[l tmp] starts].
    cbn [fst snd] in Hst, Htxt. cbn in Htxt. subst tmp.
    destruct starts as [ | x starts]; [discriminate | ].
    cbn [Py.min Py.max Py.bind] in H.
    apply IH in H; [exact H | intros s' Hs'; apply Hsub; now right | ].
    apply Forall_forall. intros entry Hin. apply dict_set_in in Hin.
    destruct Hin as [Hin | (Hv & Hk)].
    + rewrite Forall_forall in Hd. now apply Hd.
    + unfold sound_entry. rewrite Hv. cbn [fst snd]. split.
      * destruct Hk as [-> | (old & Hold & He)].
        -- apply Hsub. now left.
        -- apply String.eqb_eq in He. rewrite He. apply Hsub. now left.
      * pose proof (min_from_le starts x). pose proof (max_from_ge starts x).
        rewrite Forall_forall in Hst.
        split; [lra | ].
        split; apply Hst; [apply min_from_in | apply max_from_in].
Qed.

(** Every span the segmenter returns belongs to one of the sentences, ends
    no earlier than it starts, and has for bounds the start or the end of
    words of the transcript. *)
Theorem span_bounds_are_word_stamps (sentences : list string)
    (time_stamped : list WordToken) (spans : list (string * Q * Q)) :
  sentence_spans sentences time_stamped = Ok spans ->
  forall (s : string) (a b : Q),
    In (s, a, b) spans ->
    In s sentences /\ a <= b /\ stamp time_stamped a /\ stamp time_stamped b.
Proof.
  unfold sentence_spans. intros H s a b Hin.
  destruct (segment sentences time_stamped 0 []) as [d | e] eqn:E; [ | discriminate].
  cbn in H. inversion H; subst spans. clear H.
  apply in_map_iff in Hin. destruct Hin as ([k [lo hi]] & Heq & Hin).
  cbn in Heq. inversion Heq; subst k lo hi.
  pose proof (segment_sound time_stamped sentences sentences (fun _ H => H) 0 [] d E
                (Forall_nil _)) as Hd.
  rewrite Forall_forall in Hd. exact (Hd _ Hin).
Qed.

(** The keys of a dictionary after an assignment. *)
Lemma dict_set_keys (d : list (string * (Q * Q))) (key : string) (value : Q * Q) :
  (In key (map fst d) -> map fst (dict_set String.eqb d key value) = map fst d) /\
  (~ In key (map fst d) ->
   map fst (dict_set String.eqb d key value) = map fst d ++ [key]).
Proof.
  induction d as [ | [k v] rest [IHin IHout]]; cbn [dict_set map fst].
  - split; [intros [] | reflexivity].
  - destruct (String.eqb k key) eqn:E.
    + apply String.eqb_eq in E. subst k. split; [reflexivity | ].
      intros Hn. exfalso. apply Hn. now left.
    + apply String.eqb_neq in E. cbn [map fst]. split.
      * intros [Hk | Hin]; [congruence | ]. now rewrite IHin.
      * intros Hn. rewrite IHout; [reflexivity | ]. intros Hin. apply Hn. now right.
Qed.

Lemma segment_keys (time_stamped : list WordToken) (sentences : list string) :
  forall (letter : nat) (d d' : list (string * (Q * Q))),
    segment sentences time_stamped letter d = Ok d' ->
    NoDup (map fst d) ->
    NoDup (map fst d') /\
    (forall s, In s (map fst d') <-> In s (map fst d) \/ In s sentences) /\
    (List.length d' <= List.length d + List.length sentences)%nat /\
    (NoDup sentences -> (forall s, In s sentences -> ~ In s (map fst d)) ->
     map fst d' = map fst d ++ sentences).
Proof.
  induction sentences as [ | s rest IH]; intros letter d d' H Hnd; cbn [segment] in H.
  - inversion H; subst d'. split; [exact Hnd | ].
    split; [intros s; split; [now left | intros [H1 | []]; exact H1] | ].
    split; [cbn; lia | intros _ _; now rewrite app_nil_r].
  - pose proof (scan_sentence_text time_stamped s letter EmptyString []) as Htxt.
    destruct (scan_sentence s time_stamped letter EmptyString []) as [[l tmp] starts].
    cbn in Htxt. subst tmp.
    destruct starts as [ | x starts]; [discriminate | ].
    cbn [Py.min Py.max Py.bind] in H.
    set (value := (Py.min_from x starts, Py.max_from x starts)) in H.
    destruct (dict_set_keys d s value) as [Kin Kout].
    assert (Hlen : (List.length (dict_set String.eqb d s value) <= S (List.length d))%nat).
    { rewrite <- (length_map fst (dict_set String.eqb d s value)), <- (length_map fst d).
      destruct (in_dec string_dec s (map fst d)) as [Hi | Hni].
      - rewrite (Kin Hi). lia.
      - rewrite (Kout Hni), length_app. cbn. lia. }
    assert (Hnd' : NoDup (map fst (dict_set String.eqb d s value))).
    { destruct (in_dec string_dec s (map fst d)) as [Hi | Hni].
      - now rewrite (Kin Hi).
      - rewrite (Kout Hni). apply NoDup_app; [exact Hnd | repeat constructor; intros [] | ].
        intros y Hy [<- | []]. contradiction. }
    assert (Hkeys : forall y, In y (map fst (dict_set String.eqb d s value))
                              <-> In y (map fst d) \/ y = s).
    { intros y. destruct (in_dec string_dec s (map fst d)) as [Hi | Hni].
      - rewrite (Kin Hi). split; [now left | intros [Hy | ->]; assumption].
      - rewrite (Kout Hni), in_app_iff. cbn. split.
        + intros [Hy | [<- | []]]; [now left | now right].
        + intros [Hy | ->]; [now left | right; now left]. }
    destruct (IH _ _ _ H Hnd') as (N & Hmem & Hl & Hord).
    split; [exact N | ].
    split.
    { intros y. rewrite Hmem, Hkeys. cbn [In]. split.
      - intros [[Hy | ->] | Hy]; [now left | right; now left | right; now right].
      - intros [Hy | [<- | Hy]]; [left; now left | left; now right | now right]. }
    split; [cbn [List.length]; lia | ].
    intros Hnds Hdis. inversion Hnds as [ | s' rest' Hns Hndr]; subst.
    assert (Hni : ~ In s (map fst d)) by (apply Hdis; now left).
    rewrite Hord; [rewrite (Kout Hni), <- app_assoc; reflexivity | exact Hndr | ].
    intros y Hy. rewrite Hkeys. intros [Hyd | ->].
    + apply (Hdis y); [now right | exact Hyd].
    + contradiction.
Qed.

(** The spans are keyed by the text of the sentence.  Each sentence has one
    span and no two spans bear the same text, so a sentence that occurs again
    adds no span; when the sentences are all different the spans follow them
    one by one, in transcript order. *)
Theorem spans_are_keyed_by_text (sentences : list string)
    (time_stamped : list WordToken) (spans : list (string * Q * Q)) :
  sentence_spans sentences time_stamped = Ok spans ->
  NoDup (map span_text spans) /\
  (forall s : string, In s (map span_text spans) <-> In s sentences) /\
  (List.length spans <= List.length sentences)%nat /\
  (NoDup sentences -> map span_text spans = sentences).
Proof.
  unfold sentence_spans. intros H.
  destruct (segment sentences time_stamped 0 []) as [d | e] eqn:E; [ | discriminate].
  cbn in H. inversion H; subst spans. clear H.
  assert (Hmap : map span_text
                   (map (fun kv : string * (Q * Q) => (fst kv, fst (snd kv), snd (snd kv))) d)
                 = map fst d).
  { rewrite map_map. apply map_ext. now intros [k [lo hi]]. }
  rewrite Hmap, length_map.
  destruct (segment_keys time_stamped sentences 0 [] d E (NoDup_nil _))
    as (N & Hmem & Hl & Hord).
  split; [exact N | ].
  split; [intros s; rewrite Hmem; cbn; tauto | ].
  split; [cbn in Hl; lia | ].
  intros Hnd. apply Hord; [exact Hnd | intros s _ []].
Qed.

(** ** The translation service *)

Section TranslationFacts.

Variable groq_reply : string -> string -> string -> string -> option string.
Variable openrouter_reply : string -> string -> string -> string -> option string.

Local Abbreviation translate_by :=
  (Translation.translate groq_reply openrouter_reply).

Lemma truthy_some (o : option string) :
  truthy o = true -> exists r, o = Some r /\ truthy_string r = true.
Proof.
  destruct o as [r|]; simpl; [|discriminate]. intros H. now exists r.
Qed.

(** What [setup_translation_service] leaves: Groq is usable when one of its
    two variables holds a key and the client could be built, OpenRouter when
    its variable holds a key that was accepted.  The report of
    [get_available_providers] agrees for Groq; for OpenRouter it also says
    yes when the variable is set to the empty string, a key that [translate]
    never uses. *)
Theorem providers_after_setup (GROQ_TOKEN Groq_TOKEN OPENROUTER_API_KEY
    : option string) (groq_builds key_valid : bool) :
  let svc :=
    Translation.setup_translation_service GROQ_TOKEN Groq_TOKEN
      OPENROUTER_API_KEY groq_builds key_valid in
  (Translation.groq_client svc = true <->
   (truthy GROQ_TOKEN = true \/ truthy Groq_TOKEN = true) /\ groq_builds = true) /\
  (truthy (Translation.openrouter_api_key svc) = true <->
   truthy OPENROUTER_API_KEY = true /\ key_valid = true) /\
  fst (Translation.get_available_providers svc) = Translation.groq_client svc /\
  (snd (Translation.get_available_providers svc) = true <->
   (truthy OPENROUTER_API_KEY = true /\ key_valid = true) \/
   OPENROUTER_API_KEY = Some ""%string) /\
  (OPENROUTER_API_KEY = Some ""%string ->
   forall s b a t provider r,
     translate_by svc s b a t provider = Some r -> groq_reply s b a t = Some r).
Proof.
  intros svc. subst svc.
  unfold Translation.setup_translation_service, Translation.init,
    Translation.get_available_providers, Translation.or_else.
  cbn [Translation.groq_client Translation.openrouter_api_key fst snd].
  split; [| split; [| split; [reflexivity | split]]].
  - destruct (truthy GROQ_TOKEN) eqn:H1.
    + rewrite H1. split; [intros ->; auto | tauto].
    + destruct (truthy Groq_TOKEN) eqn:H2.
      * split; [intros ->; auto | tauto].
      * split; [discriminate | intros [[?|?] _]; discriminate].
  - destruct (truthy OPENROUTER_API_KEY) eqn:H1.
    + destruct key_valid; [rewrite H1; tauto | cbn; split; [discriminate | tauto]].
    + rewrite H1. split; [discriminate | tauto].
  - destruct OPENROUTER_API_KEY as [[|c k]|]; cbn.
    + split; [auto | reflexivity].
    + destruct key_valid; cbn; split; auto; intros [[_ ?]|?]; discriminate.
    + split; [discriminate | intros [[? _]|?]; discriminate].
  - intros -> s b a t provider r. cbn.
    unfold Translation.translate, Translation.translate_with_openrouter,
      Translation.translate_with_groq.
    cbn [Translation.groq_client Translation.openrouter_api_key truthy
         truthy_string negb andb].
    rewrite !andb_false_r.
    destruct (String.eqb provider "groq");
      destruct (if truthy (if truthy GROQ_TOKEN then GROQ_TOKEN else Groq_TOKEN)
                then groq_builds else false); cbn; try discriminate; auto;
      destruct (String.eqb provider "auto"); try discriminate;
      destruct (truthy (groq_reply s b a t)); try discriminate; auto.
Qed.

(** In [auto] mode OpenRouter is asked first and Groq only when OpenRouter
    is not set up or gave nothing; an empty answer counts as nothing, so the
    result is never the empty string; and [None] means that every provider
    that is set up gave nothing. *)
Theorem auto_prefers_openrouter (svc : Translation.TranslationService)
    (s b a t : string) :
  match translate_by svc s b a t "auto" with
  | Some r =>
      truthy_string r = true /\
      ((truthy (Translation.openrouter_api_key svc) = true /\
        openrouter_reply s b a t = Some r) \/
       ((truthy (Translation.openrouter_api_key svc) = false \/
         truthy (openrouter_reply s b a t) = false) /\
        Translation.groq_client svc = true /\ groq_reply s b a t = Some r))
  | None =>
      (truthy (Translation.openrouter_api_key svc) = false \/
       truthy (openrouter_reply s b a t) = false) /\
      (Translation.groq_client svc = false \/
       truthy (groq_reply s b a t) = false)
  end.
Proof.
  unfold Translation.translate, Translation.translate_with_openrouter,
    Translation.translate_with_groq.
  destruct svc as [client key]; simpl.
  destruct client; simpl; destruct (truthy key) eqn:Hk; simpl.
  - destruct (truthy (openrouter_reply s b a t)) eqn:Ho.
    + destruct (truthy_some _ Ho) as (r & Hr & Ht). rewrite Hr. auto.
    + destruct (truthy (groq_reply s b a t)) eqn:Hg.
      * destruct (truthy_some _ Hg) as (r & Hr & Ht). rewrite Hr. auto 6.
      * auto.
  - destruct (truthy (groq_reply s b a t)) eqn:Hg.
    + destruct (truthy_some _ Hg) as (r & Hr & Ht). rewrite Hr. auto 6.
    + auto.
  - destruct (truthy (openrouter_reply s b a t)) eqn:Ho.
    + destruct (truthy_some _ Ho) as (r & Hr & Ht). rewrite Hr. auto.
    + auto.
  - auto.
Qed.

(** A provider asked for by name is never replaced by the other one: the
    answer is that provider's own, and there is none when it is not set up
    or when the name is not one of the three the code knows. *)
Theorem named_provider_has_no_fallback (svc : Translation.TranslationService)
    (s b a t provider r : string) :
  provider <> "auto"%string ->
  translate_by svc s b a t provider = Some r ->
  (provider = "groq"%string /\ Translation.groq_client svc = true /\
   groq_reply s b a t = Some r) \/
  (provider = "openrouter"%string /\
   truthy (Translation.openrouter_api_key svc) = true /\
   openrouter_reply s b a t = Some r).
Proof.
  intros Hauto.
  unfold Translation.translate, Translation.translate_with_openrouter,
    Translation.translate_with_groq.
  destruct (String.eqb_spec provider "groq") as [Hg|Hg].
  - subst provider. simpl.
    destruct (Translation.groq_client svc) eqn:Hc; simpl.
    + intros H. left. auto.
    + discriminate.
  - simpl.
    destruct (String.eqb_spec provider "openrouter") as [Ho|Ho].
    + subst provider. simpl.
      destruct (truthy (Translation.openrouter_api_key svc)) eqn:Hk; simpl.
      * intros H. right. auto.
      * discriminate.
    + simpl. destruct (String.eqb_spec provider "auto") as [Ha|Ha].
      * contradiction.
      * discriminate.
Qed.

(** [auto] is never worse than a named provider: whenever some choice of
    provider yields a non-empty translation, so does [auto]. *)
Theorem auto_succeeds_whenever_a_provider_does
    (svc : Translation.TranslationService) (s b a t provider r : string) :
  translate_by svc s b a t provider = Some r ->
  truthy_string r = true ->
  exists r', translate_by svc s b a t "auto" = Some r' /\ truthy_string r' = true.
Proof.
  unfold Translation.translate, Translation.translate_with_openrouter,
    Translation.translate_with_groq.
  destruct svc as [client key]; simpl.
  intros H Hr.
  assert (Hcases :
    (client = true /\ groq_reply s b a t = Some r) \/
    (truthy key = true /\ openrouter_reply s b a t = Some r)).
  { destruct (String.eqb provider "groq"), client; simpl in H; auto;
    destruct (String.eqb provider "openrouter"), (truthy key); simpl in H; auto;
    destruct (String.eqb provider "auto"); try discriminate;
    repeat match type of H with
    | context [truthy ?o] => let E := fresh in destruct (truthy o) eqn:E
    | context [match ?o with _ => _ end] => let E := fresh in destruct o eqn:E
    end; try discriminate; auto;
    try (right; split; [reflexivity|congruence]);
    try (left; split; [reflexivity|congruence]). }
  destruct Hcases as [[Hc Hg]|[Hk Ho]].
  - subst client. simpl.
    destruct (truthy key); simpl.
    + destruct (truthy (openrouter_reply s b a t)) eqn:Ho.
      * destruct (truthy_some _ Ho) as (r' & Hr' & Ht). rewrite Hr'. eauto.
      * rewrite Hg. simpl. rewrite Hr. eauto.
    + rewrite Hg. simpl. rewrite Hr. eauto.
  - rewrite Hk. simpl. rewrite Ho. simpl. rewrite Hr. eauto.
Qed.

End TranslationFacts.

(** ** The synthesizer front end *)

(** After [__init__] at most one engine is loaded, and requests go to Google
    exactly when it was asked for and its client could be built, to Coqui
    when that is not so and the Coqui model loads, and nowhere otherwise. *)
Theorem engine_after_init (use_google google_loads coqui_loads : bool) :
  let t := Tts.init use_google google_loads coqui_loads in
  Tts.engine t =
    (if use_google && google_loads then Tts.Google
     else if coqui_loads then Tts.Coqui else Tts.NoEngine) /\
  (Tts.use_google_tts t = true -> Tts.google_tts t = Some true) /\
  (Tts.coqui_tts t = true -> Tts.use_google_tts t = false).
Proof.
  destruct use_google, google_loads, coqui_loads; cbv; repeat split;
    intros; congruence.
Qed.

(** When Google synthesis is switched on and credentials were found but the
    Google client cannot be built, the loop still sends the request it
    builds for Google: Coqui then synthesizes every sentence without a
    speaker reference and without an emotion. *)
Theorem coqui_gets_no_speaker_when_google_fails (flag : bool)
    (google_credentials_path : option string) (google_loads coqui_loads : bool)
    (target : string) (speaker_file : string -> string)
    (r : SentenceRecord) (i : nat) :
  flag = true ->
  truthy google_credentials_path = true ->
  google_loads = false ->
  coqui_loads = true ->
  Tts.engine (Tts.front_end flag google_credentials_path google_loads coqui_loads)
    = Tts.Coqui /\
  Tts.speaker_wav
    (Tts.request_for flag google_credentials_path target speaker_file r i) = None /\
  Tts.request_emotion
    (Tts.request_for flag google_credentials_path target speaker_file r i) = None.
Proof.
  intros -> Hc -> ->.
  unfold Tts.request_for, Tts.front_end. rewrite Hc.
  destruct google_credentials_path as [p|]; [|discriminate].
  simpl. repeat split.
Qed.

(** ** Google Cloud credentials *)

Section CredentialsFacts.

Variable exists_ : string -> bool.
Variable home_default : string.

Local Abbreviation setup :=
  (Credentials.setup_google_cloud_credentials exists_ home_default).
Local Abbreviation candidate_paths := (Credentials.candidates home_default).

Lemma first_existing_find (paths : list string) :
  Credentials.first_existing exists_ paths = find exists_ paths.
Proof.
  induction paths as [|p rest IH]; simpl; [reflexivity|].
  now rewrite IH.
Qed.

Lemma truthy_and_exists (p : string) :
  exists_ ""%string = false -> truthy_string p && exists_ p = exists_ p.
Proof.
  intros H. destruct p; simpl; [now rewrite H | reflexivity].
Qed.

Lemma setup_find (env_application env_path : option string) :
  exists_ ""%string = false ->
  setup env_application env_path
  = find exists_ (candidate_paths env_application env_path).
Proof.
  intros H.
  unfold Credentials.setup_google_cloud_credentials, Credentials.candidates.
  rewrite first_existing_find.
  destruct env_application as [p|], env_path as [q|]; simpl;
    rewrite ?truthy_and_exists by exact H;
    repeat match goal with
    | |- context [if exists_ ?x then _ else _] => destruct (exists_ x)
    end; reflexivity.
Qed.

Lemma find_first {A} (f : A -> bool) (l : list A) :
  match find f l with
  | Some x =>
      f x = true /\
      exists before after,
        l = before ++ x :: after /\ forall y, In y before -> f y = false
  | None => forall y, In y l -> f y = false
  end.
Proof.
  induction l as [|a l IH]; simpl.
  - tauto.
  - destruct (f a) eqn:Ha.
    + split; [exact Ha|]. exists [], l. split; [reflexivity|]. intros y [].
    + destruct (find f l) as [x|].
      * destruct IH as (Hx & before & after & Hl & Hb).
        split; [exact Hx|]. exists (a :: before), after.
        split; [now rewrite Hl|]. intros y [<-|Hy]; auto.
      * intros y [<-|Hy]; auto.
Qed.

(** The path returned is the first one, in the order environment variable,
    [.env] entry, default locations, that exists; it is never the empty
    string; and [None] is returned only when none of them exists. *)
Theorem credentials_are_the_first_that_exist
    (env_application env_path : option string) :
  exists_ ""%string = false ->
  match setup env_application env_path with
  | Some path =>
      exists_ path = true /\ path <> ""%string /\
      exists before after,
        candidate_paths env_application env_path = before ++ path :: after /\
        forall q, In q before -> exists_ q = false
  | None =>
      forall q, In q (candidate_paths env_application env_path) ->
                exists_ q = false
  end.
Proof.
  intros H. rewrite (setup_find _ _ H).
  pose proof (find_first exists_ (candidate_paths env_application env_path)) as F.
  destruct (find exists_ (candidate_paths env_application env_path)) as [path|].
  - destruct F as (Hp & Hrest). split; [exact Hp|]. split; [|exact Hrest].
    intros ->. congruence.
  - exact F.
Qed.

(** [app.py] tests the credentials twice, with [is not None] when it builds
    the front end and by truth value when it builds each request.  On every
    value [setup_google_cloud_credentials] can return the two agree, so the
    Google engine only ever receives requests built for it. *)
Theorem google_engine_gets_google_requests
    (env_application env_path : option string) (flag google_loads coqui_loads : bool)
    (target : string) (speaker_file : string -> string)
    (r : SentenceRecord) (i : nat) :
  exists_ ""%string = false ->
  let creds := setup env_application env_path in
  truthy creds = is_not_none creds /\
  (Tts.engine (Tts.front_end flag creds google_loads coqui_loads) = Tts.Google ->
   Tts.request_for flag creds target speaker_file r i
   = Tts.mkRequest (translated r) target None None (Some "NEUTRAL"%string) i).
Proof.
  intros H creds.
  assert (Ht : truthy creds = is_not_none creds).
  { subst creds. rewrite (setup_find _ _ H).
    pose proof (find_first exists_ (candidate_paths env_application env_path)) as F.
    destruct (find exists_ (candidate_paths env_application env_path)) as [path|];
      [|reflexivity].
    destruct F as (Hp & _). simpl. destruct path; [congruence|reflexivity]. }
  split; [exact Ht|].
  unfold Tts.front_end, Tts.request_for. rewrite Ht.
  destruct flag, (is_not_none creds), google_loads, coqui_loads; simpl;
    (reflexivity || discriminate).
Qed.

End CredentialsFacts.

(** ** The language tables *)

(** Every language the interface offers has an entry of its own in the
    Google table, so [get_google_language_code] falls back to [en-US] for
    none of them but English, and no two languages share a Google code. *)
Theorem every_language_has_a_google_code (name code : string) :
  In (name, code) language_mapping ->
  In (code, get_google_language_code code) GOOGLE_TTS_LANGUAGE_MAPPING /\
  (get_google_language_code code = "en-US"%string -> name = "English"%string) /\
  (forall name' code', In (name', code') language_mapping ->
     get_google_language_code code' = get_google_language_code code ->
     name' = name).
Proof.
  intros H.
  repeat (destruct H as [H|H]; [inversion H; subst name code; clear H|]);
    try (exfalso; exact H);
    (split; [vm_compute; tauto|]);
    (split; [vm_compute; first [reflexivity | discriminate]|]);
    intros name' code' H';
    repeat (destruct H' as [H'|H']; [inversion H'; subst name' code'; clear H'|]);
    try (exfalso; exact H');
    vm_compute; first [reflexivity | discriminate].
Qed.

(** ** The translator a run uses *)

(** [process_video] passes the empty string as the context-translation key,
    so a run started from the interface always translates with MarianMT: the
    translation provider chosen there is stored and never consulted. *)
Theorem interface_runs_use_marian (video_path source target : string)
    (use_wav2lip : bool) (model : string) (bg_sound : bool)
    (hf_token : option string) (google : bool) (provider : string)
    (s : Settings) :
  process_video_settings video_path source target use_wav2lip model bg_sound
    hf_token google provider = Some s ->
  translator s = MarianMT /\
  translation_provider s = provider /\
  LipSync s = use_wav2lip /\ Voice_denoising s = negb bg_sound.
Proof.
  unfold process_video_settings.
  destruct (dict_item language_mapping source); [|discriminate].
  destruct (dict_item language_mapping target); [|discriminate].
  intros H. inversion H; subst s; clear H. cbn. repeat split.
Qed.

(** ** The result files *)

Lemma exists_create (fs : Files.Fs) (p q : string) :
  Files.exists_ (Files.create q fs) p = String.eqb p q || Files.exists_ fs p.
Proof.
  unfold Files.create. destruct (Files.exists_ fs q) eqn:Hq.
  - destruct (String.eqb_spec p q) as [->|]; simpl; [exact Hq|reflexivity].
  - reflexivity.
Qed.

Lemma exists_unlink (fs : Files.Fs) (p q : string) :
  Files.exists_ (Files.unlink q fs) p
  = negb (String.eqb p q) && Files.exists_ fs p.
Proof.
  unfold Files.exists_, Files.unlink.
  induction fs as [|a fs IH]; simpl.
  - now rewrite andb_false_r.
  - destruct (String.eqb_spec q a) as [<-|Hqa]; simpl.
    + rewrite IH. destruct (String.eqb p q); reflexivity.
    + rewrite IH. destruct (String.eqb_spec p a) as [->|Hpa]; simpl.
      * destruct (String.eqb_spec a q) as [->|]; [contradiction|reflexivity].
      * reflexivity.
Qed.

Lemma exists_run (works : bool) (fs : Files.Fs) (p q : string) :
  Files.exists_ (Files.run works q fs) p
  = (works && String.eqb p q) || Files.exists_ fs p.
Proof.
  destruct works; simpl; [apply exists_create|reflexivity].
Qed.

Lemma move_ok (src folder : string) (fs fs' : Files.Fs) :
  Files.move src folder fs = Files.Ok fs' ->
  Files.exists_ fs src = true /\
  fs' = Files.create (Files.join folder (Files.basename src)) (Files.unlink src fs).
Proof.
  unfold Files.move.
  destruct (Files.exists_ fs (Files.join folder (Files.basename src)));
    [discriminate|].
  destruct (Files.exists_ fs src); [|discriminate].
  intros H. inversion H. auto.
Qed.

Lemma remove_ok (path : string) (fs fs' : Files.Fs) :
  Files.remove path fs = Files.Ok fs' ->
  Files.exists_ fs path = true /\ fs' = Files.unlink path fs.
Proof.
  unfold Files.remove. destruct (Files.exists_ fs path); [|discriminate].
  intros H. inversion H. auto.
Qed.

Lemma bind_ok {A B} (m : Files.Result A) (k : A -> Files.Result B) (b : B) :
  Files.bind m k = Files.Ok b -> exists a, m = Files.Ok a /\ k a = Files.Ok b.
Proof.
  destruct m as [a|e]; simpl; [eauto|discriminate].
Qed.

Lemma audio_is_not (name : string) (c : ascii) (rest : string) :
  Ascii.eqb c "a" = false ->
  String.eqb (String c rest) (Files.join "audio/" name) = false.
Proof.
  intros H. cbn. now rewrite H.
Qed.

Ltac finish_steps H :=
  repeat match type of H with
  | Files.bind _ _ = Files.Ok _ =>
      let fs := fresh "fs" in let Hm := fresh "Hm" in
      apply bind_ok in H; destruct H as (fs & Hm & H)
  end;
  repeat match goal with
  | Hm : Files.move _ _ _ = Files.Ok _ |- _ =>
      let E := fresh "E" in apply move_ok in Hm; destruct Hm as (E & ->)
  | Hm : Files.remove _ _ = Files.Ok _ |- _ =>
      let E := fresh "E" in apply remove_ok in Hm; destruct Hm as (E & ->)
  end.

Ltac exists_steps :=
  repeat (rewrite exists_create || rewrite exists_unlink || rewrite exists_run);
  cbn.

Ltac exists_steps_in E :=
  repeat (rewrite exists_create in E || rewrite exists_unlink in E
          || rewrite exists_run in E);
  cbn in E.

(** Whenever the constructor gets through its last lines, the path
    [process_video] reports names a file that is then in [results], and
    [output_video.mp4] is no longer in the working directory. *)
Theorem reported_path_exists (use_wav2lip bg_sound : bool) (tools : Files.Tools)
    (output_file_paths : string) (fs fs' : Files.Fs) :
  Files.finish use_wav2lip (negb bg_sound) tools output_file_paths fs
    = Files.Ok fs' ->
  Files.process_video_path use_wav2lip bg_sound tools output_file_paths fs
    = Some (Files.source_path use_wav2lip bg_sound) /\
  Files.exists_ fs' (Files.source_path use_wav2lip bg_sound) = true /\
  Files.exists_ fs' "output_video.mp4" = false.
Proof.
  intros H. split.
  { unfold Files.process_video_path. now rewrite H. }
  unfold Files.finish in H.
  destruct use_wav2lip, bg_sound; cbn [negb andb Files.source_path] in H |- *;
    finish_steps H; cbn [Files.basename Files.basename_from Files.join
      Files.ends_with_slash Ascii.eqb Bool.eqb String.append];
    split; exists_steps; reflexivity.
Qed.

(** With lip sync on and the background sound kept, the constructor always
    raises in its last lines unless a [denoised_video.mp4] was lying in the
    working directory before: it removes that file although only a
    denoising run writes it.  [process_video] then reports no video. *)
Theorem lipsync_with_background_reports_no_video (tools : Files.Tools)
    (output_file_paths : string) (fs : Files.Fs) :
  Files.exists_ fs "denoised_video.mp4" = false ->
  (exists e, Files.finish true false tools output_file_paths fs = Files.Raise e) /\
  Files.process_video_path true true tools output_file_paths fs = None.
Proof.
  intros Hd.
  assert (Hraise :
    exists e, Files.finish true false tools output_file_paths fs = Files.Raise e).
  { destruct (Files.finish true false tools output_file_paths fs) as [fs'|e] eqn:H;
      [|eauto].
    exfalso. unfold Files.finish in H. cbn [negb andb] in H.
    finish_steps H.
    match goal with
    | E : Files.exists_ _ "denoised_video.mp4" = true |- _ =>
        exists_steps_in E; rewrite Hd in E; cbn in E;
        rewrite ?andb_false_r in E; discriminate
    end. }
  split; [exact Hraise|].
  unfold Files.process_video_path. cbn [negb].
  destruct Hraise as (e & ->). reflexivity.
Qed.

(** The tool that puts the dubbed track on the video is never checked: when
    it leaves no [output_video.mp4], every mode raises in the last lines,
    because each of them moves or removes that file. *)
Theorem missing_output_video_raises (LipSync Voice_denoising : bool)
    (tools : Files.Tools) (output_file_paths : string) (fs : Files.Fs) :
  Files.exists_ (Files.run (Files.mux_works tools) "output_video.mp4" fs)
    "output_video.mp4" = false ->
  exists e,
    Files.finish LipSync Voice_denoising tools output_file_paths fs = Files.Raise e.
Proof.
  intros Ho.
  destruct (Files.finish LipSync Voice_denoising tools output_file_paths fs)
    as [fs'|e] eqn:H; [|eauto].
  exfalso. unfold Files.finish in H.
  destruct LipSync, Voice_denoising; cbn [negb andb] in H; finish_steps H;
    match goal with
    | E : Files.exists_ _ "output_video.mp4" = true |- _ =>
        repeat (rewrite exists_unlink in E || rewrite exists_create in E);
        repeat match type of E with
        | context [Files.exists_ (Files.run ?w "output_video.mp4" ?f) ?p] =>
            lazymatch p with
            | "output_video.mp4"%string => fail
            | _ => rewrite (exists_run w f p "output_video.mp4") in E
            end
        | context [Files.exists_ (Files.run ?w ?q ?f) ?p] =>
            lazymatch q with
            | "output_video.mp4"%string => fail
            | _ => rewrite (exists_run w f p q) in E
            end
        end;
        repeat (rewrite exists_unlink in E || rewrite exists_create in E);
        rewrite Ho in E; cbn in E;
        rewrite ?andb_false_r in E; cbn in E;
        rewrite ?andb_false_r in E; discriminate
    end.
Qed.

(** ** The theorems above on concrete runs *)

Lemma C3_pending_silence_within_budget_example :
  in_budget (fst (split_silence 1)) /\
  Forall in_budget
    (pending_history (tts_clips [Some 2350%Z; None]) atempo_exact 0
       [spoken 1 2.5; spoken 3.7 4] (fst (split_silence 1))) /\
  (forall t : Track,
     dub (tts_clips [Some 2350%Z; None]) atempo_exact backwards
       [spoken 1 2.5; spoken 3.7 4] 5 = Ok t ->
     in_budget (final_pending t) /\
     Forall (fun c => in_budget (pending c)) (chunks t)).
Proof.
  apply (C3_pending_silence_within_budget (tts_clips [Some 2350%Z; None])
           atempo_exact backwards (spoken 1 2.5) [spoken 3.7 4] 5).
  cbn. lra.
Defined.

(** Scenario D: a gap of 1.2 s to the next sentence.  The next pending
    silence is 0.8 s and the extra silence 0.4 s; with the shortfall of
    0.8 s (a slot of 1.5 s and 0.3 s pending for a clip of 1 s) the silence
    appended lasts 1.2 s. *)
Lemma C4_tracker_update_example :
  exists (p' extra : Q) (c : Chunk),
    process (tts_clips [Some 1350%Z]) atempo_exact 0 (spoken 1 2.5)
      (Some (spoken 3.7 4)) 0.3 = Ok (p', Some c) /\
    trailing c = silent ((Qmax (lo_total c - lt_adjusted c) 0 + extra) * 1000) /\
    (0.8 <= Qmax (3.7 - 2.5) 0 -> p' = 0.8 /\ extra = Qmax (3.7 - 2.5) 0 - 0.8) /\
    (Qmax (3.7 - 2.5) 0 < 0.8 -> p' = Qmax (3.7 - 2.5) 0 /\ extra = 0) /\
    0 <= extra /\
    clip c = silent (0.3 * 1000) ++ trimmed 1350 /\
    lo_total c = 2.5 - 1 + 0.3 /\
    lt_adjusted c = seconds (silent (0.3 * 1000) ++ trimmed 1350) /\
    silence_ms (trailing c)
    == (Qmax (lo_total c - lt_adjusted c) 0 + extra) * 1000 /\
    speech_ms (trailing c) == 0 /\
    seconds (trailing c) == Qmax (lo_total c - lt_adjusted c) 0 + extra /\
    seconds (chunk_audio c)
    == seconds (silent (0.3 * 1000) ++ trimmed 1350)
       + Qmax (lo_total c - lt_adjusted c) 0 + extra.
Proof.
  apply (C4_tracker_update (tts_clips [Some 1350%Z]) atempo_exact 0
           (spoken 1 2.5) (spoken 3.7 4) 0.3 1350%Z
           (silent (0.3 * 1000) ++ trimmed 1350)); reflexivity.
Defined.

(** Scenario A: a slot of 2.0 s, a clip of 2.5 s and 0.3 s of pending
    silence. *)
Lemma C5_stretch_or_silence_example :
  slot (spoken 0 2) / seconds (trimmed 2850) == 0.8 /\
  (slot (spoken 0 2) + 0.3) / seconds (trimmed 2850) == 0.92 /\
  1.0869 < 1 / ((slot (spoken 0 2) + 0.3) / seconds (trimmed 2850)) < 1.0870 /\
  exists (p' : Q) (c : Chunk),
    process (tts_clips [Some 2850%Z]) atempo_fails 0 (spoken 0 2) None 0.3
      = Ok (p', Some c) /\
    clip c = match atempo_fails (trimmed 2850)
                     (1 / ((slot (spoken 0 2) + 0.3) / seconds (trimmed 2850))) with
             | Some out => out
             | None => silent ((slot (spoken 0 2) + 0.3) * 1000)
             end /\
    (atempo_fails (trimmed 2850)
       (1 / ((slot (spoken 0 2) + 0.3) / seconds (trimmed 2850))) = None ->
     seconds (clip c) == slot (spoken 0 2) + 0.3 /\ speech_ms (clip c) == 0).
Proof.
  split; [reflexivity | ].
  split; [reflexivity | ].
  split; [split; reflexivity | ].
  apply (C5_stretch_or_silence (tts_clips [Some 2850%Z]) atempo_fails 0
           (spoken 0 2) None 0.3 2850%Z); reflexivity || (cbn; discriminate).
Defined.

(** Scenario C: a slot of 3.0 s and a clip of 2.0 s. *)
Lemma C7_pad_prepends_pending_silence_example :
  slot (spoken 0 3) / seconds (trimmed 2350) == 1.5 /\
  exists (p' : Q) (c : Chunk),
    process (tts_clips [Some 2350%Z]) atempo_exact 0 (spoken 0 3) None 0.3
      = Ok (p', Some c) /\
    clip c = silent (0.3 * 1000) ++ trimmed 2350 /\
    speech_ms (clip c) == len (trimmed 2350) /\
    (0 <= 0.3 ->
       silence_ms (clip c) == 0.3 * 1000 /\
       seconds (clip c) == seconds (trimmed 2350) + 0.3 /\
       lt_adjusted c == seconds (trimmed 2350) + 0.3).
Proof.
  split; [reflexivity | ].
  apply (C7_pad_prepends_pending_silence (tts_clips [Some 2350%Z]) atempo_exact 0
           (spoken 0 3) None 0.3 2350%Z); [reflexivity | cbn; discriminate].
Defined.

(** A clip of exactly 350 ms. *)
Lemma C10_trimmed_away_clip_divides_by_zero_example :
  process (tts_clips [Some 350%Z]) atempo_exact 0 (spoken 0 2) None 0
    = Raise ZeroDivisionError.
Proof.
  apply (C10_trimmed_away_clip_divides_by_zero (tts_clips [Some 350%Z])
           atempo_exact 0 (spoken 0 2) None 0 350%Z); [reflexivity | lia | reflexivity].
Defined.

(** Two sentences over a transcript that only holds the first. *)
Lemma C8_unmatched_sentence_raises_example :
  sentence_spans ["Hi."%string; "Bye."%string] [mkWord " Hi." 0 0.5]
  = Raise ValueError.
Proof.
  apply (C8_unmatched_sentence_raises ["Hi."%string; "Bye."%string]
           [mkWord " Hi." 0 0.5] 1 "Bye."%string).
  - reflexivity.
  - intros j Hj. cbn in *. lia.
Defined.
(** C2, as stated, fails.  A single sentence from 0 s to 3 s with a clip of
    2 s in a video of 3 s: there is no gap at all and no final pad, and one
    second of trailing silence is emitted.  Two sentences 2 s apart in a video
    that ends with the second, the first of which is not synthesized: no
    silence is emitted for the 2 s gap. *)
Lemma C2_silence_is_not_conserved :
  (exists t : Track,
      dub (tts_clips [Some 2350%Z]) atempo_exact backwards [spoken 0 3] 3 = Ok t /\
      seconds (prefix t) + Qsum (map (fun c => seconds (trailing c)) (chunks t)) == 1 /\
      leading_gap [spoken 0 3] + Qsum (gaps [spoken 0 3]) + seconds (final_pad t) == 0 /\
      ~ seconds (prefix t) + Qsum (map (fun c => seconds (trailing c)) (chunks t))
        == Qsum (gaps [spoken 0 3]) + seconds (final_pad t)) /\
  (exists t : Track,
      dub (tts_clips [None; Some 1350%Z]) atempo_exact backwards [spoken 0 1; spoken 3 4] 4
        = Ok t /\
      seconds (prefix t) + Qsum (map (fun c => seconds (trailing c)) (chunks t)) == 0 /\
      leading_gap [spoken 0 1; spoken 3 4] + Qsum (gaps [spoken 0 1; spoken 3 4])
        + seconds (final_pad t) == 2 /\
      ~ seconds (prefix t) + Qsum (map (fun c => seconds (trailing c)) (chunks t))
        == Qsum (gaps [spoken 0 1; spoken 3 4]) + seconds (final_pad t)).
Proof.
  split; eexists; (split; [reflexivity | ]); repeat split;
    intros H; vm_compute in H; discriminate.
Qed.

Lemma C2_silence_is_redistributed_example :
  exists t : Track,
    dub (tts_clips [Some 2350%Z; Some 1350%Z]) atempo_exact backwards
      [spoken 1 4; spoken 5.2 6] 7 = Ok t /\
    (seconds (prefix t) + Qsum (map (fun c => seconds (trailing c)) (chunks t))
       + Qsum (map pending (chunks t))
       + unused_credit (tts_clips [Some 2350%Z; Some 1350%Z])
           [spoken 1 4; spoken 5.2 6] (final_pending t)
     == leading_gap [spoken 1 4; spoken 5.2 6]
        + kept_gaps (tts_clips [Some 2350%Z; Some 1350%Z]) 0 [spoken 1 4; spoken 5.2 6]
        + Qsum (map shortfall (chunks t)) /\
     (forall d : SentenceRecord,
        seconds (final_pad t)
        == Qabs (7 - r_end (last [spoken 1 4; spoken 5.2 6] d))) /\
     ((forall (k : nat) (r : SentenceRecord),
          nth_error [spoken 1 4; spoken 5.2 6] k = Some r ->
          synthesized (tts_clips [Some 2350%Z; Some 1350%Z]) k r <> None) ->
      seconds (prefix t) + Qsum (map (fun c => seconds (trailing c)) (chunks t))
        + Qsum (map pending (chunks t))
      == leading_gap [spoken 1 4; spoken 5.2 6] + Qsum (gaps [spoken 1 4; spoken 5.2 6])
         + Qsum (map shortfall (chunks t)))).
Proof.
  eexists. split; [reflexivity | ].
  apply (C2_silence_is_redistributed (tts_clips [Some 2350%Z; Some 1350%Z])
           atempo_exact backwards [spoken 1 4; spoken 5.2 6] 7).
  reflexivity.
Defined.

(** Three sentences, the second of which is not synthesized. *)
Lemma C9_failed_synthesis_skips_sentence_example :
  (forall p : Q,
     process (tts_clips [Some 1350%Z; None; Some 1350%Z]) atempo_exact
       (List.length [spoken 1 2]) (spoken 3 4) (hd_error [spoken 5 6]) p = Ok (p, None)) /\
  (forall (p : Q) (cs : list Chunk),
     loop (tts_clips [Some 1350%Z; None; Some 1350%Z]) atempo_exact
       (List.length [spoken 1 2]) (spoken 3 4 :: [spoken 5 6]) p cs
     = loop (tts_clips [Some 1350%Z; None; Some 1350%Z]) atempo_exact
         (S (List.length [spoken 1 2])) [spoken 5 6] p cs) /\
  (forall (total_length : Q) (t : Track),
     dub (tts_clips [Some 1350%Z; None; Some 1350%Z]) atempo_exact backwards
       ([spoken 1 2] ++ spoken 3 4 :: [spoken 5 6]) total_length = Ok t ->
     (forall c : Chunk, In c (chunks t) -> index c <> List.length [spoken 1 2]) /\
     (ordered ([spoken 1 2] ++ spoken 3 4 :: [spoken 5 6]) ->
      slot (spoken 3 4) + gap_after (spoken 3 4) [spoken 5 6]
      <= omitted_time (tts_clips [Some 1350%Z; None; Some 1350%Z]) 0
           ([spoken 1 2] ++ spoken 3 4 :: [spoken 5 6]) /\
      seconds (combined t)
        + unused_credit (tts_clips [Some 1350%Z; None; Some 1350%Z])
            ([spoken 1 2] ++ spoken 3 4 :: [spoken 5 6]) (final_pending t)
        + omitted_time (tts_clips [Some 1350%Z; None; Some 1350%Z]) 0
            ([spoken 1 2] ++ spoken 3 4 :: [spoken 5 6])
      == r_end (last ([spoken 1 2] ++ spoken 3 4 :: [spoken 5 6]) (spoken 3 4))
         + seconds (final_pad t) + Qsum (map overrun (chunks t)))).
Proof.
  apply (C9_failed_synthesis_skips_sentence
           (tts_clips [Some 1350%Z; None; Some 1350%Z]) atempo_exact backwards
           [spoken 1 2] [spoken 5 6] (spoken 3 4)).
  reflexivity.
Defined.

(** The same run, measured: the track of a 6 s video lasts 4 s, the 2 s
    missing being the slot of the second sentence and the gap after it. *)
Example failed_synthesis_shortens_track :
  exists t : Track,
    dub (tts_clips [Some 1350%Z; None; Some 1350%Z]) atempo_exact backwards
      [spoken 1 2; spoken 3 4; spoken 5 6] 6 = Ok t /\
    map index (chunks t) = [0%nat; 2%nat] /\
    map pending (chunks t) = [0.8; 0.8] /\
    seconds (combined t) == 4 /\
    omitted_time (tts_clips [Some 1350%Z; None; Some 1350%Z]) 0
      [spoken 1 2; spoken 3 4; spoken 5 6] == 2.
Proof.
  eexists. split; [reflexivity | ]. repeat split.
Qed.

(** A slot of 2 s for a clip of 5 s: theta is 0.4. *)
Lemma drop_regime_replaces_speech_example :
  exists (p' : Q) (c : Chunk),
    process (tts_clips [Some 5350%Z]) atempo_exact 0 (spoken 0 2) None 0.3
      = Ok (p', Some c) /\
    clip c = silent ((slot (spoken 0 2) + 0.3) * 1000) /\
    speech_ms (clip c) == 0 /\
    (0 <= 0.3 ->
       seconds (clip c) == slot (spoken 0 2) + 0.3 /\
       lt_adjusted c == slot (spoken 0 2) + 0.3).
Proof.
  apply (drop_regime_replaces_speech (tts_clips [Some 5350%Z]) atempo_exact 0
           (spoken 0 2) None 0.3 5350%Z); reflexivity.
Defined.

Lemma chunk_fills_its_budget_example :
  exists (p' : Q) (c : Chunk),
    process (tts_clips [Some 1350%Z]) atempo_exact 0 (spoken 1 2.5)
      (Some (spoken 3.7 4)) 0.3 = Ok (p', Some c) /\
    lo_total c = r_end (spoken 1 2.5) - r_start (spoken 1 2.5) + 0.3 /\
    0 <= extra_silence (spoken 1 2.5) (Some (spoken 3.7 4)) p' /\
    seconds (chunk_audio c)
    == Qmax (lt_adjusted c) (lo_total c)
       + extra_silence (spoken 1 2.5) (Some (spoken 3.7 4)) p' /\
    lo_total c + extra_silence (spoken 1 2.5) (Some (spoken 3.7 4)) p'
    <= seconds (chunk_audio c).
Proof.
  eexists. eexists. split; [reflexivity | ].
  apply (chunk_fills_its_budget (tts_clips [Some 1350%Z]) atempo_exact 0
           (spoken 1 2.5) (Some (spoken 3.7 4)) 0.3).
  reflexivity.
Defined.

(** Eleven sentences, the fourth of which is not synthesized, in a directory
    that is listed backwards: [10.wav] is joined last, after [9.wav]. *)
Lemma chunks_follow_sentence_order_example :
  exists t : Track,
    dub (tts_clips (repeat (Some 850%Z) 3 ++ None :: repeat (Some 850%Z) 7))
      atempo_exact backwards eleven 11 = Ok t /\
    map index (chunks t) = [0; 1; 2; 4; 5; 6; 7; 8; 9; 10]%nat /\
    map index (chunks t)
    = written_indices
        (tts_clips (repeat (Some 850%Z) 3 ++ None :: repeat (Some 850%Z) 7)) 0
        eleven /\
    StronglySorted Nat.lt (map index (chunks t)) /\
    Forall (fun k => (k < List.length eleven)%nat) (map index (chunks t)).
Proof.
  eexists. split; [vm_compute; reflexivity | ]. split; [reflexivity | ].
  apply (chunks_follow_sentence_order
           (tts_clips (repeat (Some 850%Z) 3 ++ None :: repeat (Some 850%Z) 7))
           atempo_exact backwards eleven 11).
  vm_compute. reflexivity.
Defined.

(** A clip of 350 ms, which the trim empties. *)
Lemma dub_outcome_example :
  match dub (tts_clips [Some 350%Z]) atempo_exact backwards [spoken 0 2] 2 with
  | Ok t =>
      [spoken 0 2] <> [] /\
      forall (k : nat) (r : SentenceRecord) (raw : Z),
        nth_error [spoken 0 2] k = Some r ->
        synthesized (tts_clips [Some 350%Z]) k r = Some raw ->
        slice_to raw (raw - tip) <> 0%Z
  | Raise e =>
      (e = IndexError /\ [spoken 0 2] = []) \/
      (e = ZeroDivisionError /\ [spoken 0 2] <> [] /\
       exists (k : nat) (r : SentenceRecord) (raw : Z),
         nth_error [spoken 0 2] k = Some r /\
         synthesized (tts_clips [Some 350%Z]) k r = Some raw /\
         slice_to raw (raw - tip) = 0%Z)
  end.
Proof.
  apply (dub_outcome (tts_clips [Some 350%Z]) atempo_exact backwards [spoken 0 2] 2).
  cbn. lra.
Defined.



Lemma assigned_speaker_is_diarized_example :
  In (assign_speaker (9, 12)
        [((8, 10.9), "SPEAKER_00"%string); ((11.5, 13.2), "SPEAKER_01"%string)]
        "SPEAKER_00")
     (values [((8, 10.9), "SPEAKER_00"%string); ((11.5, 13.2), "SPEAKER_01"%string)]).
Proof.
  apply (assigned_speaker_is_diarized (9, 12)
           [((8, 10.9), "SPEAKER_00"%string); ((11.5, 13.2), "SPEAKER_01"%string)]
           "SPEAKER_00").
  reflexivity.
Defined.

Lemma every_speaker_gets_reference_audio_example :
  (1000 <= speaker_audio 20000
             (diarize [mkTurn 8 10.9 "SPEAKER_00"; mkTurn 11.5 13.2 "SPEAKER_01"] [])
             "SPEAKER_01")%Z.
Proof.
  apply (every_speaker_gets_reference_audio 20000
           [mkTurn 8 10.9 "SPEAKER_00"; mkTurn 11.5 13.2 "SPEAKER_01"] "SPEAKER_01").
  - intros t [<- | [<- | []]]; unfold turn_in_audio; cbn; repeat split;
      intros H; vm_compute in H; discriminate.
  - cbn. auto.
Defined.

Lemma span_bounds_are_word_stamps_example :
  exists spans : list (string * Q * Q),
    sentence_spans ["Hi there."%string]
      [mkWord " Hi" 0 0.5; mkWord " there." 0.6 1.1] = Ok spans /\
    forall (s : string) (a b : Q),
      In (s, a, b) spans ->
      In s ["Hi there."%string] /\ a <= b /\
      stamp [mkWord " Hi" 0 0.5; mkWord " there." 0.6 1.1] a /\
      stamp [mkWord " Hi" 0 0.5; mkWord " there." 0.6 1.1] b.
Proof.
  eexists. split; [reflexivity | ].
  apply (span_bounds_are_word_stamps ["Hi there."%string]
           [mkWord " Hi" 0 0.5; mkWord " there." 0.6 1.1]).
  reflexivity.
Defined.

(** The same sentence twice: one entry is returned. *)
Lemma spans_are_keyed_by_text_example :
  exists spans : list (string * Q * Q),
    sentence_spans ["Yes."%string; "Yes."%string]
      [mkWord " Yes." 0 0.5; mkWord " Yes." 0.6 1.1] = Ok spans /\
    NoDup (map span_text spans) /\
    (forall s : string,
       In s (map span_text spans) <-> In s ["Yes."%string; "Yes."%string]) /\
    (List.length spans <= List.length ["Yes."%string; "Yes."%string])%nat /\
    (NoDup ["Yes."%string; "Yes."%string] ->
     map span_text spans = ["Yes."%string; "Yes."%string]).
Proof.
  eexists. split; [reflexivity | ].
  apply (spans_are_keyed_by_text ["Yes."%string; "Yes."%string]
           [mkWord " Yes." 0 0.5; mkWord " Yes." 0.6 1.1]).
  reflexivity.
Defined.

(** Groq is set up and answers, OpenRouter is not set up. *)
Lemma named_provider_has_no_fallback_example :
  ("groq"%string = "groq"%string /\
   Translation.groq_client (Translation.mkService true None) = true /\
   always (Some "hola"%string) "hello" "" "" "es" = Some "hola"%string) \/
  ("groq"%string = "openrouter"%string /\
   truthy (Translation.openrouter_api_key (Translation.mkService true None)) = true /\
   always None "hello" "" "" "es" = Some "hola"%string).
Proof.
  apply (named_provider_has_no_fallback
           (always (Some "hola"%string)) (always None)
           (Translation.mkService true None) "hello" "" "" "es" "groq" "hola").
  - discriminate.
  - reflexivity.
Defined.

Lemma auto_succeeds_whenever_a_provider_does_example :
  exists r' : string,
    Translation.translate (always (Some "hola"%string))
      (always (Some ""%string))
      (Translation.mkService true (Some "key"%string)) "hello" "" "" "es" "auto"
    = Some r' /\ truthy_string r' = true.
Proof.
  apply (auto_succeeds_whenever_a_provider_does
           (always (Some "hola"%string)) (always (Some ""%string))
           (Translation.mkService true (Some "key"%string))
           "hello" "" "" "es" "groq" "hola"); reflexivity.
Defined.

Lemma coqui_gets_no_speaker_when_google_fails_example :
  Tts.engine (Tts.front_end true (Some "credentials.json"%string) false true)
    = Tts.Coqui /\
  Tts.speaker_wav
    (Tts.request_for true (Some "credentials.json"%string) "fr"
       speaker_file
       (spoken 0 2) 0) = None /\
  Tts.request_emotion
    (Tts.request_for true (Some "credentials.json"%string) "fr"
       speaker_file
       (spoken 0 2) 0) = None.
Proof.
  apply (coqui_gets_no_speaker_when_google_fails true
           (Some "credentials.json"%string) false true "fr"
           speaker_file
           (spoken 0 2) 0); reflexivity.
Defined.

(** Only the second default location exists, and the environment variable
    names a file that does not. *)
Lemma credentials_are_the_first_that_exist_example :
  match
    Credentials.setup_google_cloud_credentials
      (only_file "google-cloud-credentials.json") "/root/.config/gcloud/adc.json"
      (Some "missing.json"%string) None
  with
  | Some path =>
      only_file "google-cloud-credentials.json" path = true /\
      path <> ""%string /\
      exists before after : list string,
        Credentials.candidates "/root/.config/gcloud/adc.json"
          (Some "missing.json"%string) None = before ++ path :: after /\
        forall q : string,
          In q before -> only_file "google-cloud-credentials.json" q = false
  | None =>
      forall q : string,
        In q (Credentials.candidates "/root/.config/gcloud/adc.json"
                (Some "missing.json"%string) None) ->
        only_file "google-cloud-credentials.json" q = false
  end.
Proof.
  apply (credentials_are_the_first_that_exist
           (only_file "google-cloud-credentials.json")
           "/root/.config/gcloud/adc.json" (Some "missing.json"%string) None).
  reflexivity.
Defined.

Lemma google_engine_gets_google_requests_example :
  let creds :=
    Credentials.setup_google_cloud_credentials
      (only_file "google-cloud-credentials.json") "/root/.config/gcloud/adc.json"
      None None in
  truthy creds = is_not_none creds /\
  (Tts.engine (Tts.front_end true creds true true) = Tts.Google ->
   Tts.request_for true creds "fr"
     speaker_file (spoken 0 2) 0
   = Tts.mkRequest (translated (spoken 0 2)) "fr" None None
       (Some "NEUTRAL"%string) 0).
Proof.
  apply (google_engine_gets_google_requests
           (only_file "google-cloud-credentials.json")
           "/root/.config/gcloud/adc.json" None None true true true "fr"
           speaker_file
           (spoken 0 2) 0).
  reflexivity.
Defined.

Lemma every_language_has_a_google_code_example :
  In ("zh-cn"%string, get_google_language_code "zh-cn") GOOGLE_TTS_LANGUAGE_MAPPING /\
  (get_google_language_code "zh-cn" = "en-US"%string ->
   "Chinese (Simplified)"%string = "English"%string) /\
  (forall name' code' : string,
     In (name', code') language_mapping ->
     get_google_language_code code' = get_google_language_code "zh-cn" ->
     name' = "Chinese (Simplified)"%string).
Proof.
  apply (every_language_has_a_google_code "Chinese (Simplified)" "zh-cn").
  cbn. tauto.
Defined.

Lemma interface_runs_use_marian_example :
  exists s : Settings,
    process_video_settings "video.mp4" "English" "French" false "turbo" false
      None false "groq" = Some s /\
    translator s = MarianMT /\
    translation_provider s = "groq"%string /\
    LipSync s = false /\ Voice_denoising s = negb false.
Proof.
  eexists. split; [reflexivity | ].
  apply (interface_runs_use_marian "video.mp4" "English" "French" false "turbo"
           false None false "groq").
  reflexivity.
Defined.

(** No lip sync, background sound kept, every tool working. *)
Lemma reported_path_exists_example :
  exists fs' : Files.Fs,
    Files.finish false (negb true) (Files.mkTools true true true)
      "video_(Instrumental).wav" ["video_(Instrumental).wav"%string] = Files.Ok fs' /\
    Files.process_video_path false true (Files.mkTools true true true)
      "video_(Instrumental).wav" ["video_(Instrumental).wav"%string]
    = Some (Files.source_path false true) /\
    Files.exists_ fs' (Files.source_path false true) = true /\
    Files.exists_ fs' "output_video.mp4" = false.
Proof.
  eexists. split; [reflexivity | ].
  apply (reported_path_exists false true (Files.mkTools true true true)
           "video_(Instrumental).wav" ["video_(Instrumental).wav"%string]).
  reflexivity.
Defined.

(** Lip sync with the background sound kept, every tool working. *)
Lemma lipsync_with_background_reports_no_video_example :
  (exists e : Files.Error,
      Files.finish true false (Files.mkTools true true true)
        "video_(Instrumental).wav" ["video_(Instrumental).wav"%string]
      = Files.Raise e) /\
  Files.process_video_path true true (Files.mkTools true true true)
    "video_(Instrumental).wav" ["video_(Instrumental).wav"%string] = None.
Proof.
  apply (lipsync_with_background_reports_no_video (Files.mkTools true true true)
           "video_(Instrumental).wav" ["video_(Instrumental).wav"%string]).
  reflexivity.
Defined.

Lemma missing_output_video_raises_example :
  exists e : Files.Error,
    Files.finish false true (Files.mkTools false true true)
      "video_(Instrumental).wav" ["video_(Instrumental).wav"%string]
    = Files.Raise e.
Proof.
  apply (missing_output_video_raises false true (Files.mkTools false true true)
           "video_(Instrumental).wav" ["video_(Instrumental).wav"%string]).
  reflexivity.
Defined.
